(** * GumJS V8 platform adapter: operations, runners and the memory backend

    A shallow embedding of [bindings/gumjs/gumv8platform.cpp].

    - [OperationLifecycle]: the two operation classes
      ([GumV8MainContextOperation], [GumV8ThreadPoolOperation]) as small
      statement lists run by interleaved threads over one operation object,
      the platform lock and the operation's condition variable.
    - [Platform]: the coordinator ([GumV8Platform]) and the foreground task
      runner as a state monad over the platform object.
    - [MemoryBackend]: [GumV8MemoryBackend] over an abstract host allocator.
    - [Binary64]: the [double] arithmetic of the clocks and delays.
    - [RegistryInterleaving]: [GetForegroundTaskRunner] statement by
      statement, for two callers at once.
    - [PlatformCalls]: the entry points V8 calls ([CallOnWorkerThread],
      [CallOnForegroundThread] and the like) and the clocks.
    - [Bundles]: the script bundles the platform makes and disposes.
    - [MemoryBackendRuns]: runs of calls on the memory backend.
    - [ScriptFixture]: the message queue and the timeouts of the test
      fixture in [tests/gumjs/script-fixture.c]. *)

From stdpp Require Import gmap list.
From Stdlib Require Import ZArith Lia.
From Stdlib Require Import Floats.SpecFloat.
From Stdlib Require Import Ascii.
From Stdlib.Strings Require Byte.

Local Open Scope nat_scope.

(* ===================================================================== *)
(** ** Operation lifecycle under interleaving                             *)
(* ===================================================================== *)

Module OperationLifecycle.

(** The two concrete subclasses of [GumV8Operation]. *)
Inductive Variant := MainContext | ThreadPool.

(** The three methods of an operation. *)
Inductive Method := Perform | Cancel | Await.

(** The statements the method bodies are made of.  Each one is an atomic
    step of the thread that runs it. *)
Inductive Stmt :=
| CallFunc        (* func (); *)
| LockerEnter     (* GumV8PlatformLocker locker (platform);  -> g_mutex_lock *)
| SetCompleted    (* completed = true; *)
| CondSignal      (* g_cond_signal (&cond); *)
| LockerLeave     (* end of the locker's scope               -> g_mutex_unlock *)
| SourceDestroy   (* g_source_destroy (source); *)
| AwaitLoop.      (* while (!completed) g_cond_wait (&cond, &platform->lock); *)

Global Instance Variant_eq_dec : EqDecision Variant.
Proof. solve_decision. Defined.
Global Instance Method_eq_dec : EqDecision Method.
Proof. solve_decision. Defined.
Global Instance Stmt_eq_dec : EqDecision Stmt.
Proof. solve_decision. Defined.

(** [GumV8MainContextOperation::Perform] and
    [GumV8ThreadPoolOperation::Perform] have the same body. *)
Definition Perform_body (v : Variant) : list Stmt :=
  [CallFunc; LockerEnter; SetCompleted; CondSignal; LockerLeave].

(** [GumV8MainContextOperation::Cancel] destroys the source and completes
    the operation; [GumV8ThreadPoolOperation::Cancel] has an empty body. *)
Definition Cancel_body (v : Variant) : list Stmt :=
  match v with
  | MainContext =>
      [SourceDestroy; LockerEnter; SetCompleted; CondSignal; LockerLeave]
  | ThreadPool => []
  end.

(** Both [Await] methods: take the lock, wait while not completed. *)
Definition Await_body (v : Variant) : list Stmt :=
  [LockerEnter; AwaitLoop; LockerLeave].

Definition body (v : Variant) (m : Method) : list Stmt :=
  match m with
  | Perform => Perform_body v
  | Cancel => Cancel_body v
  | Await => Await_body v
  end.

(** What the host scheduler still holds for the operation: the attached
    [GSource] (main context) or the pushed job (thread pool).  GLib removes a
    source whose callback returns [FALSE], which
    [PerformMainContextOperation] always does, and never dispatches a
    destroyed source; a pool job is popped once. *)
Inductive Ticket := Queued | Dispatched | Destroyed.

Global Instance Ticket_eq_dec : EqDecision Ticket.
Proof. solve_decision. Defined.

(** An activation: the method a thread is in and what is left of its body. *)
Abbreviation Activation := (Method * list Stmt)%type.

Record Sys := mkSys {
  variant : Variant;
  completed : bool;                      (* volatile bool completed *)
  runs : nat;                            (* how often func () was invoked *)
  ticket : Ticket;
  lock : option nat;                     (* platform->lock and its holder *)
  threads : gmap nat Activation;         (* runnable activations, by thread *)
  waiters : list (nat * Activation)      (* threads inside g_cond_wait *)
}.

(** State right after the [ScheduleOn...] call that created the operation:
    the constructor sets [completed (false)], the source is attached or the
    job pushed. *)
Definition init (v : Variant) : Sys :=
  mkSys v false 0 Queued None ∅ [].

Definition set_threads (x : gmap nat Activation) (s : Sys) : Sys :=
  let 'mkSys v c n k l _ w := s in mkSys v c n k l x w.
Definition set_lock (x : option nat) (s : Sys) : Sys :=
  let 'mkSys v c n k _ th w := s in mkSys v c n k x th w.
Definition set_completed (x : bool) (s : Sys) : Sys :=
  let 'mkSys v _ n k l th w := s in mkSys v x n k l th w.
Definition set_runs (x : nat) (s : Sys) : Sys :=
  let 'mkSys v c _ k l th w := s in mkSys v c x k l th w.
Definition set_ticket (x : Ticket) (s : Sys) : Sys :=
  let 'mkSys v c n _ l th w := s in mkSys v c n x l th w.
Definition set_waiters (x : list (nat * Activation)) (s : Sys) : Sys :=
  let 'mkSys v c n k l th _ := s in mkSys v c n k l th x.

(** A thread that has run its body to the end has returned and leaves the
    table. *)
Definition set_pc (t : nat) (m : Method) (pc : list Stmt)
    (th : gmap nat Activation) : gmap nat Activation :=
  match pc with
  | [] => delete t th
  | _ => <[t := (m, pc)]> th
  end.

(** A thread can start a call when it is neither running nor waiting. *)
Definition idle (t : nat) (s : Sys) : bool :=
  bool_decide (threads s !! t = None) && bool_decide (t ∉ (waiters s).*1).

Definition start (t : nat) (m : Method) (s : Sys) : option Sys :=
  if idle t s
  then Some (set_threads (set_pc t m (body (variant s) m) (threads s)) s)
  else None.

(** Waking the [k]-th waiter: [g_cond_wait] re-acquires the mutex before it
    returns, then the loop tests [completed] again. *)
Definition wake (k : nat) (s : Sys) : Sys :=
  match waiters s !! k with
  | Some (t, (m, pc)) =>
      set_waiters (delete k (waiters s))
        (set_threads (<[t := (m, LockerEnter :: pc)]> (threads s)) s)
  | None => s
  end.

(** [g_cond_signal]: if threads wait, one of them is unblocked; [k] picks
    which. *)
Definition cond_signal (k : nat) (s : Sys) : Sys :=
  match waiters s with
  | [] => s
  | _ => wake (k mod length (waiters s)) s
  end.

(** [g_cond_broadcast], which the operations never call: all waiters are
    unblocked. *)
Fixpoint cond_broadcast_n (n : nat) (s : Sys) : Sys :=
  match n with
  | 0 => s
  | S n' => cond_broadcast_n n' (wake 0 s)
  end.
Definition cond_broadcast (s : Sys) : Sys :=
  cond_broadcast_n (length (waiters s)) s.

(** One statement of thread [t], whose activation is [(m, stmt :: rest)]. *)
Definition exec_stmt (t k : nat) (m : Method) (stmt : Stmt) (rest : list Stmt)
    (s : Sys) : option Sys :=
  let continue s := set_threads (set_pc t m rest (threads s)) s in
  match stmt with
  | CallFunc => Some (continue (set_runs (S (runs s)) s))
  | LockerEnter =>
      match lock s with
      | None => Some (continue (set_lock (Some t) s))
      | Some _ => None
      end
  | SetCompleted => Some (continue (set_completed true s))
  | CondSignal => Some (continue (cond_signal k s))
  | LockerLeave =>
      if bool_decide (lock s = Some t)
      then Some (continue (set_lock None s))
      else None
  | SourceDestroy =>
      Some (continue
        (set_ticket (match ticket s with Queued => Destroyed | x => x end) s))
  | AwaitLoop =>
      if completed s then Some (continue s)
      else if bool_decide (lock s = Some t)
      then Some (set_waiters (waiters s ++ [(t, (m, AwaitLoop :: rest))])
                  (set_threads (delete t (threads s)) (set_lock None s)))
      else None
  end.

(** What can happen next.  [Perform] has no caller but the two host
    callbacks, [PerformMainContextOperation] and
    [PerformThreadPoolOperation]; [Cancel] and [Await] are called on the
    handle by any thread, any number of times. *)
Inductive Action :=
| HostDispatch (t : nat)     (* the host calls Perform...Operation on thread t *)
| CallCancel (t : nat)       (* thread t calls Cancel () on the handle *)
| CallAwait (t : nat)        (* thread t calls Await () on the handle *)
| Step (t k : nat)           (* thread t runs its next statement *)
| SpuriousWakeup (k : nat).  (* g_cond_wait returns without a signal *)

Definition exec (s : Sys) (a : Action) : option Sys :=
  match a with
  | HostDispatch t =>
      match ticket s with
      | Queued => start t Perform (set_ticket Dispatched s)
      | _ => None
      end
  | CallCancel t => start t Cancel s
  | CallAwait t => start t Await s
  | Step t k =>
      match threads s !! t with
      | Some (m, stmt :: rest) => exec_stmt t k m stmt rest s
      | _ => None
      end
  | SpuriousWakeup k =>
      match waiters s !! k with
      | Some _ => Some (wake k s)
      | None => None
      end
  end.

Fixpoint run (s : Sys) (acts : list Action) : option Sys :=
  match acts with
  | [] => Some s
  | a :: rest =>
      match exec s a with
      | Some s' => run s' rest
      | None => None
      end
  end.

(** How often the completion flag changed its value along a schedule. *)
Fixpoint flag_changes (s : Sys) (acts : list Action) : nat :=
  match acts with
  | [] => 0
  | a :: rest =>
      match exec s a with
      | Some s' =>
          (if bool_decide (completed s = completed s') then 0 else 1)
          + flag_changes s' rest
      | None => 0
      end
  end.

(** The operation's state as the lifecycle names it: the code keeps one
    flag, set by [Perform] and by [Cancel] alike. *)
Inductive State := Pending | Terminal.
Definition state (s : Sys) : State :=
  if completed s then Terminal else Pending.

(** Thread [t] leaves method [m] in the step from [s] to [s']. *)
Definition returns (m : Method) (t : nat) (s s' : Sys) : Prop :=
  (∃ pc, threads s !! t = Some (m, pc)) ∧
  threads s' !! t = None ∧ t ∉ (waiters s').*1.

(** The same steps as a relation, one rule per case of [exec]. *)
Inductive step : Sys → Action → Sys → Prop :=
| step_dispatch v c n l th w t :
    th !! t = None → t ∉ w.*1 →
    step (mkSys v c n Queued l th w) (HostDispatch t)
         (mkSys v c n Dispatched l
            (<[t := (Perform, Perform_body v)]> th) w)
| step_call_cancel v c n k l th w t :
    th !! t = None → t ∉ w.*1 →
    step (mkSys v c n k l th w) (CallCancel t)
         (mkSys v c n k l (set_pc t Cancel (Cancel_body v) th) w)
| step_call_await v c n k l th w t :
    th !! t = None → t ∉ w.*1 →
    step (mkSys v c n k l th w) (CallAwait t)
         (mkSys v c n k l (<[t := (Await, Await_body v)]> th) w)
| step_func v c n k l th w t x m rest :
    th !! t = Some (m, CallFunc :: rest) →
    step (mkSys v c n k l th w) (Step t x)
         (mkSys v c (S n) k l (set_pc t m rest th) w)
| step_locker_enter v c n k th w t x m rest :
    th !! t = Some (m, LockerEnter :: rest) →
    step (mkSys v c n k None th w) (Step t x)
         (mkSys v c n k (Some t) (set_pc t m rest th) w)
| step_set_completed v c n k l th w t x m rest :
    th !! t = Some (m, SetCompleted :: rest) →
    step (mkSys v c n k l th w) (Step t x)
         (mkSys v true n k l (set_pc t m rest th) w)
| step_signal_nobody v c n k l th t x m rest :
    th !! t = Some (m, CondSignal :: rest) →
    step (mkSys v c n k l th []) (Step t x)
         (mkSys v c n k l (set_pc t m rest th) [])
| step_signal_one v c n k l th w t x m rest tw mw pcw :
    th !! t = Some (m, CondSignal :: rest) →
    w !! (x mod length w) = Some (tw, (mw, pcw)) →
    step (mkSys v c n k l th w) (Step t x)
         (mkSys v c n k l
            (set_pc t m rest (<[tw := (mw, LockerEnter :: pcw)]> th))
            (delete (x mod length w) w))
| step_locker_leave v c n k th w t x m rest :
    th !! t = Some (m, LockerLeave :: rest) →
    step (mkSys v c n k (Some t) th w) (Step t x)
         (mkSys v c n k None (set_pc t m rest th) w)
| step_source_destroy v c n k l th w t x m rest :
    th !! t = Some (m, SourceDestroy :: rest) →
    step (mkSys v c n k l th w) (Step t x)
         (mkSys v c n (match k with Queued => Destroyed | y => y end) l
            (set_pc t m rest th) w)
| step_await_done v n k l th w t x m rest :
    th !! t = Some (m, AwaitLoop :: rest) →
    step (mkSys v true n k l th w) (Step t x)
         (mkSys v true n k l (set_pc t m rest th) w)
| step_await_wait v n k th w t x m rest :
    th !! t = Some (m, AwaitLoop :: rest) →
    step (mkSys v false n k (Some t) th w) (Step t x)
         (mkSys v false n k None (delete t th)
            (w ++ [(t, (m, AwaitLoop :: rest))]))
| step_spurious v c n k l th w x tw mw pcw :
    w !! x = Some (tw, (mw, pcw)) →
    step (mkSys v c n k l th w) (SpuriousWakeup x)
         (mkSys v c n k l (<[tw := (mw, LockerEnter :: pcw)]> th)
            (delete x w)).

(** The points a thread can be at inside a body: its non-empty suffixes. *)
Fixpoint tails (l : list Stmt) : list (list Stmt) :=
  match l with
  | [] => []
  | x :: rest => (x :: rest) :: tails rest
  end.

(** Every runnable thread is somewhere inside the body of its method, and
    every waiting thread is inside the loop of [Await]. *)
Definition shape_ok (s : Sys) : Prop :=
  (∀ t m pc, threads s !! t = Some (m, pc) →
             pc ∈ tails (body (variant s) m)) ∧
  (∀ t m pc, (t, (m, pc)) ∈ waiters s →
             m = Await ∧ pc = [AwaitLoop; LockerLeave]).

(** A thread that still has [func ()] ahead of it. *)
Definition pending (s : Sys) (t : nat) : Prop :=
  ∃ m pc, threads s !! t = Some (m, pc) ∧ CallFunc ∈ pc.

(** The work is called at most once: while the host still holds the ticket
    nobody is about to call it and nobody has; afterwards at most one thread
    is about to, and none once it has run. *)
Definition once_ok (s : Sys) : Prop :=
  runs s ≤ 1 ∧
  (ticket s = Queued → runs s = 0 ∧ ∀ t, ¬ pending s t) ∧
  (runs s = 1 → ∀ t, ¬ pending s t) ∧
  (∀ t t', pending s t → pending s t' → t = t').

(** A thread past the loop of [Await] has seen the flag set. *)
Definition await_ok (s : Sys) : Prop :=
  ∀ t, threads s !! t = Some (Await, [LockerLeave]) → completed s = true.

(** Statements that sit between a locker's constructor and its
    destructor. *)
Definition inside_locker (pc : list Stmt) : bool :=
  match pc with
  | SetCompleted :: _ | CondSignal :: _ | LockerLeave :: _
  | AwaitLoop :: _ => true
  | _ => false
  end.

(** A thread inside a locker's scope holds the platform lock. *)
Definition lock_ok (s : Sys) : Prop :=
  ∀ t m pc, threads s !! t = Some (m, pc) →
            inside_locker pc = true → lock s = Some t.

(** What holds of an operation at every point of every schedule. *)
Definition Inv (s : Sys) : Prop :=
  shape_ok s ∧ once_ok s ∧ await_ok s ∧ lock_ok s.

(** Schedules with the calls to [Cancel] taken out. *)
Definition is_cancel (a : Action) : bool :=
  match a with
  | CallCancel _ => true
  | _ => false
  end.

Fixpoint without_cancel (acts : list Action) : list Action :=
  match acts with
  | [] => []
  | a :: rest =>
      if is_cancel a then without_cancel rest else a :: without_cancel rest
  end.

(** The schedule in which the host dispatches the operation on thread [t]
    and [Perform] runs to its end. *)
Definition perform_schedule (t : nat) : list Action :=
  [HostDispatch t; Step t 0; Step t 0; Step t 0; Step t 0; Step t 0].

End OperationLifecycle.

(* ===================================================================== *)
(** ** Binary64 doubles                                                   *)
(* ===================================================================== *)

Module Binary64.

Local Open Scope Z_scope.

(** A [double] is an IEEE 754 binary64 number, with the operations of the
    Standard Library's specification of floating-point arithmetic: every
    result is rounded to nearest, ties to even. *)
Definition prec : Z := 53.
Definition emax : Z := 1024.
Abbreviation double := spec_float.

(** [(double) z] for an integer [z]; also a literal such as [1000.0]. *)
Definition double_of_Z (z : Z) : double :=
  binary_normalize prec emax z 0 false.

Definition double_add : double → double → double := SFadd prec emax.
Definition double_mul : double → double → double := SFmul prec emax.
Definition double_div : double → double → double := SFdiv prec emax.

(** [x <= y] on doubles. *)
Definition double_le (x y : double) : bool := SFleb x y.

(** A double in its one binary64 form (a NaN and the infinities count). *)
Definition double_valid : double → bool := valid_binary prec emax.

(** The whole part of a double, towards zero; an infinity and a NaN have
    none. *)
Definition double_trunc (x : double) : option Z :=
  match x with
  | S754_zero _ => Some 0
  | S754_finite s m e => Some (cond_Zopp s (Z.shiftl (Zpos m) e))
  | _ => None
  end.

(** A [double] passed for a [guint], as the x86-64 build converts it:
    [cvttsd2si] to 64 bits, which gives [- 2 ^ 63] for what does not fit
    and for a NaN, and of these the low 32 bits.  The language defines the
    result only when the whole part is within the [guint] range; it is
    then the whole part itself. *)
Definition double_to_guint (x : double) : Z :=
  match double_trunc x with
  | Some t => if (- 2 ^ 63 <=? t) && (t <? 2 ^ 63) then t mod 2 ^ 32 else 0
  | None => 0
  end.

(** The value of a finite double in units of [2 ^ -1074], the smallest
    positive double. *)
Definition scaled (m e : Z) : Z := m * 2 ^ (e + 1074).

Definition double_scaled (x : double) : option Z :=
  match x with
  | S754_zero _ => Some 0
  | S754_finite s m e => Some (cond_Zopp s (scaled (Zpos m) e))
  | _ => None
  end.

(** The spacing of the doubles around the value [v], in the same units, as
    a power of two; a value on the grid is a double. *)
Definition grid (v : Z) : Z := Z.max (Z.log2 v - 52) 0.


(** [shifted k a b]: the record [b] is [a] moved [k] bits to the right,
    and it says whether a bit was lost. *)
Definition shifted (k : Z) (a b : shr_record) : Prop :=
  shr_m b = shr_m a / 2 ^ k ∧
  (orb (shr_r b) (shr_s b) = false ↔
   shr_m a mod 2 ^ k = 0 ∧ orb (shr_r a) (shr_s a) = false).

(** What the rounding step hands back for a rounded mantissa [m2] at the
    exponent [e1]. *)
Definition result_is (sx : bool) (m2 e1 : Z) (r : double) : Prop :=
  (m2 = 0 ∧ r = S754_zero sx) ∨
  (∃ mf ef, 0 < m2 ∧ e1 ≤ ef ∧ Zpos mf * 2 ^ (ef - e1) = m2 ∧
            canonical_mantissa prec emax mf ef = true ∧
            r = if ef <=? 971 then S754_finite sx mf ef
                else S754_infinity sx).

End Binary64.

(* ===================================================================== *)
(** ** The platform coordinator and the foreground task runner           *)
(* ===================================================================== *)

Module Platform.
Import Binary64.

(** GLib's source priorities (gmain.h). *)
Definition G_PRIORITY_HIGH : Z := (-100)%Z.
Definition G_PRIORITY_DEFAULT : Z := 0%Z.
Definition G_PRIORITY_LOW : Z := 300%Z.

(** The closures handed around as [std::function<void ()>], one constructor
    per lambda of the file; [HostFunc] stands for a callable made elsewhere. *)
Inductive Work :=
| HostFunc (id : nat)
| RunTask (runner task : nat)        (* [=]() { Run (t.get ()); }, a Task *)
| RunIdleTask (runner task : nat)    (* [=]() { Run (t.get ()); }, an IdleTask *)
| TaskRun (task : nat)               (* [=]() { t->Run (); } *)
| SubmitToThreadPool (f : Work).     (* [=]() { ScheduleOnThreadPool (f); } *)

Inductive SourceKind :=
| IdleSource                         (* g_idle_source_new () *)
| TimeoutSource (ms : Z).            (* g_timeout_source_new (ms) *)

Record GSource := mkSource {
  kind : SourceKind;
  priority : Z;
  attached : bool
}.

Inductive OperationClass :=
| MainContextOperation (source : GSource)
| ThreadPoolOperation.

Record Operation := mkOperation {
  class : OperationClass;
  func : Work;
  completed : bool
}.

Record ForegroundTaskRunner := mkRunner {
  isolate : nat
}.

(** The three pieces of state the platform lock is there for. *)
Inductive Guarded := OutstandingSet | CompletionFlag | RunnerRegistry.

(** What a call leaves behind, newest first.  A [Mutation] records whether
    the platform lock was held at the write. *)
Inductive Event :=
| Mutation (g : Guarded) (locked : bool)
| FuncCalled (id : nat)
| TaskRan (isolate task : nat)
| WorkerTaskRan (task : nat)
| IdleTaskRan (isolate task : nat) (deadline_in_seconds : double)
| Signalled (op : nat).

Record GumV8Platform := mkPlatform {
  lock : bool;                                  (* GMutex lock, held or not *)
  js_operations : gset nat;
  foreground_runners : gmap nat (option nat);   (* Isolate * -> shared_ptr *)
  start_time : Z;                               (* gint64, microseconds *)
  operations : gmap nat Operation;              (* live operation objects *)
  runners : gmap nat ForegroundTaskRunner;      (* live runner objects *)
  next_address : nat;                           (* the next make_shared result *)
  js_context : list nat;                        (* sources attached to the JS context *)
  thread_pool : list nat;                       (* jobs pushed on the pool *)
  journal : list Event
}.

Definition with_lock (x : bool) (p : GumV8Platform)
  : GumV8Platform :=
  let 'mkPlatform _ ops reg t0 heap rs next ctx pool j := p in
  mkPlatform x ops reg t0 heap rs next ctx pool j.
Definition with_js_operations (x : gset nat) (p : GumV8Platform)
  : GumV8Platform :=
  let 'mkPlatform l _ reg t0 heap rs next ctx pool j := p in
  mkPlatform l x reg t0 heap rs next ctx pool j.
Definition with_foreground_runners (x : gmap nat (option nat)) (p : GumV8Platform)
  : GumV8Platform :=
  let 'mkPlatform l ops _ t0 heap rs next ctx pool j := p in
  mkPlatform l ops x t0 heap rs next ctx pool j.
Definition with_operations (x : gmap nat Operation) (p : GumV8Platform)
  : GumV8Platform :=
  let 'mkPlatform l ops reg t0 _ rs next ctx pool j := p in
  mkPlatform l ops reg t0 x rs next ctx pool j.
Definition with_runners (x : gmap nat ForegroundTaskRunner) (p : GumV8Platform)
  : GumV8Platform :=
  let 'mkPlatform l ops reg t0 heap _ next ctx pool j := p in
  mkPlatform l ops reg t0 heap x next ctx pool j.
Definition with_next_address (x : nat) (p : GumV8Platform)
  : GumV8Platform :=
  let 'mkPlatform l ops reg t0 heap rs _ ctx pool j := p in
  mkPlatform l ops reg t0 heap rs x ctx pool j.
Definition with_js_context (x : list nat) (p : GumV8Platform)
  : GumV8Platform :=
  let 'mkPlatform l ops reg t0 heap rs next _ pool j := p in
  mkPlatform l ops reg t0 heap rs next x pool j.
Definition with_thread_pool (x : list nat) (p : GumV8Platform)
  : GumV8Platform :=
  let 'mkPlatform l ops reg t0 heap rs next ctx _ j := p in
  mkPlatform l ops reg t0 heap rs next ctx x j.
Definition with_journal (x : list Event) (p : GumV8Platform)
  : GumV8Platform :=
  let 'mkPlatform l ops reg t0 heap rs next ctx pool _ := p in
  mkPlatform l ops reg t0 heap rs next ctx pool x.

(** The platform as its constructor leaves it, before any runner or
    operation exists. *)
Definition new_platform (start : Z) : GumV8Platform :=
  mkPlatform false ∅ ∅ start ∅ ∅ 1 [] [] [].

(** Calls on the platform: a state monad; [None] is a call that cannot go on
    (it would block on the lock, or it dereferences a dead object). *)
Definition M (A : Type) : Type := GumV8Platform → option (A * GumV8Platform).

Definition ret {A} (a : A) : M A := λ p, Some (a, p).
Definition bind {A B} (m : M A) (k : A → M B) : M B :=
  λ p, match m p with
       | Some (a, p') => k a p'
       | None => None
       end.

Declare Scope platform_scope.
Delimit Scope platform_scope with platform.
Notation "'let*' x ':=' m 'in' k" := (bind m (λ x, k))
  (at level 10, x name, m at level 100, k at level 200) : platform_scope.
Notation "m ';;' k" := (bind m (λ _, k))
  (at level 100, k at level 200, right associativity) : platform_scope.
Local Open Scope platform_scope.

Definition modify (f : GumV8Platform → GumV8Platform) : M unit :=
  λ p, Some (tt, f p).
Definition emit (e : Event) : M unit :=
  modify (λ p, with_journal (e :: journal p) p).

(** [GumV8PlatformLocker]: constructor and destructor. *)
Definition locker_enter : M unit :=
  λ p, if lock p then None else Some (tt, with_lock true p).
Definition locker_leave : M unit := modify (with_lock false).

(** A write to guarded state, journalled with the lock as it is then. *)
Definition mutate (g : Guarded) (f : GumV8Platform → GumV8Platform)
  : M unit :=
  λ p, Some (tt, f (with_journal (Mutation g (lock p) :: journal p) p)).

(** [std::make_shared]: a fresh object at a fresh address. *)
Definition make_shared_operation (c : OperationClass) (f : Work) : M nat :=
  λ p, let a := next_address p in
       Some (a, with_next_address (S a)
                  (with_operations
                     (<[a := mkOperation c f false]> (operations p)) p)).
Definition make_shared_runner (iso : nat) : M nat :=
  λ p, let a := next_address p in
       Some (a, with_next_address (S a)
                  (with_runners (<[a := mkRunner iso]> (runners p)) p)).

(** The last [shared_ptr] to an operation goes out of scope. *)
Definition drop_operation (op : nat) : M unit :=
  modify (λ p, with_operations (delete op (operations p)) p).

Definition mark_attached (o : Operation) : Operation :=
  match class o with
  | MainContextOperation src =>
      mkOperation
        (MainContextOperation (mkSource (kind src) (priority src) true))
        (func o) (completed o)
  | ThreadPoolOperation => o
  end.

(** [GumV8Platform::ScheduleOnJSThreadDelayed (delay, priority, f)]. *)
Definition ScheduleOnJSThreadDelayed (delay_in_milliseconds : Z)
    (prio : Z) (f : Work) : M nat :=
  let source :=
    mkSource (if (delay_in_milliseconds =? 0)%Z then IdleSource
              else TimeoutSource delay_in_milliseconds) prio false in
  let* op := make_shared_operation (MainContextOperation source) f in
  locker_enter ;;
  mutate OutstandingSet
    (λ p, with_js_operations ({[op]} ∪ js_operations p) p) ;;
  locker_leave ;;
  modify (λ p, with_js_context (js_context p ++ [op])
                 (with_operations
                    (alter mark_attached op (operations p)) p)) ;;
  ret op.

(** The overloads that fill in the defaults. *)
Definition ScheduleOnJSThread (f : Work) : M nat :=
  ScheduleOnJSThreadDelayed 0 G_PRIORITY_DEFAULT f.
Definition ScheduleOnJSThread_with_priority (prio : Z) (f : Work) : M nat :=
  ScheduleOnJSThreadDelayed 0 prio f.

(** [GumV8Platform::ScheduleOnThreadPool (f)]. *)
Definition ScheduleOnThreadPool (f : Work) : M nat :=
  let* op := make_shared_operation ThreadPoolOperation f in
  modify (λ p, with_thread_pool (thread_pool p ++ [op]) p) ;;
  ret op.

(** [GumV8Platform::ScheduleOnThreadPoolDelayed (delay, f)].  The body ends
    after [child_op] is bound: no [return] statement hands a handle back, so
    the model's result is [None]; the local [op] dies with the scope. *)
Definition ScheduleOnThreadPoolDelayed (delay_in_milliseconds : Z)
    (f : Work) : M (option nat) :=
  let* op := make_shared_operation ThreadPoolOperation f in
  let* child_op := ScheduleOnJSThreadDelayed delay_in_milliseconds
                G_PRIORITY_HIGH (SubmitToThreadPool f) in
  drop_operation op ;;
  ret None.

(** Two's complement [gint64]. *)
Definition wrap64 (z : Z) : Z :=
  ((z + 2 ^ 63) mod 2 ^ 64 - 2 ^ 63)%Z.

(** [GumV8Platform::MonotonicallyIncreasingTime ()], with [now] the value
    [g_get_monotonic_time ()] returns: the whole milliseconds elapsed,
    converted to [double] and divided by [1000.0]. *)
Definition MonotonicallyIncreasingTime (p : GumV8Platform) (now : Z)
  : double :=
  let delta := wrap64 (now - start_time p) in
  double_div (double_of_Z (Z.quot delta 1000)) (double_of_Z 1000).

(** [GumV8ForegroundTaskRunner::Run] for a [Task] and for an [IdleTask], inside
    the isolate's [Locker] and scopes. *)
Definition Run_Task (runner task : nat) : M unit :=
  λ p, match runners p !! runner with
       | Some r => emit (TaskRan (isolate r) task) p
       | None => None
       end.
Definition Run_IdleTask (runner task : nat) (now : Z) : M unit :=
  λ p, match runners p !! runner with
       | Some r =>
           let deadline_in_seconds :=
             double_add (MonotonicallyIncreasingTime p now)
               (double_div (double_of_Z 1) (double_of_Z 60)) in
           emit (IdleTaskRan (isolate r) task deadline_in_seconds) p
       | None => None
       end.

(** Calling a closure. *)
Definition invoke (w : Work) (now : Z) : M unit :=
  match w with
  | HostFunc id => emit (FuncCalled id)
  | RunTask runner task => Run_Task runner task
  | RunIdleTask runner task => Run_IdleTask runner task now
  | TaskRun task => emit (WorkerTaskRan task)
  | SubmitToThreadPool f => let* _ := ScheduleOnThreadPool f in ret tt
  end.

Definition complete (o : Operation) : Operation :=
  mkOperation (class o) (func o) true.

(** [Perform ()] of either operation class, run without interference. *)
Definition Perform (op : nat) (now : Z) : M unit :=
  λ p, match operations p !! op with
       | Some o =>
           (invoke (func o) now ;;
            locker_enter ;;
            mutate CompletionFlag
              (λ p, with_operations (alter complete op (operations p)) p) ;;
            emit (Signalled op) ;;
            locker_leave) p
       | None => None
       end.

(** [GumV8Platform::PerformMainContextOperation]: always [FALSE]. *)
Definition PerformMainContextOperation (op : nat) (now : Z) : M bool :=
  Perform op now ;; ret false.

(** [GumV8Platform::ReleaseMainContextOperation]. *)
Definition ReleaseMainContextOperation (op : nat) : M unit :=
  locker_enter ;;
  mutate OutstandingSet
    (λ p, with_js_operations (js_operations p ∖ {[op]}) p) ;;
  locker_leave.

(** [GumV8Platform::PerformThreadPoolOperation]. *)
Definition PerformThreadPoolOperation (op : nat) (now : Z) : M unit :=
  Perform op now.

(** [foreground_runners[isolate]]: [operator[]] puts a null pointer under a
    key that is not there yet. *)
Definition runner_at (iso : nat) : M (option nat) :=
  λ p, match foreground_runners p !! iso with
       | Some r => Some (r, p)
       | None =>
           (mutate RunnerRegistry
              (λ p, with_foreground_runners
                      (<[iso := None]> (foreground_runners p)) p) ;;
            ret None) p
       end.

(** [GumV8Platform::GetForegroundTaskRunner (isolate)]. *)
Definition GetForegroundTaskRunner (iso : nat) : M (option nat) :=
  let* runner := runner_at iso in
  match runner with
  | Some r => ret (Some r)
  | None =>
      let* r := make_shared_runner iso in
      mutate RunnerRegistry
        (λ p, with_foreground_runners
                (<[iso := Some r]> (foreground_runners p)) p) ;;
      ret (Some r)
  end.

(** [GumV8ForegroundTaskRunner::PostTask] and [PostIdleTask]. *)
Definition PostTask (runner task : nat) : M unit :=
  let* _ := ScheduleOnJSThread (RunTask runner task) in ret tt.
Definition PostIdleTask (runner task : nat) : M unit :=
  let* _ := ScheduleOnJSThread_with_priority G_PRIORITY_LOW
         (RunIdleTask runner task) in
  ret tt.


(** Every registered runner is a live runner object made for the isolate it
    is registered under, and every live runner object lies below the next
    address [make_shared] will hand out. *)
Definition runners_wf (p : GumV8Platform) : Prop :=
  (∀ i r, foreground_runners p !! i = Some (Some r) →
          runners p !! r = Some (mkRunner i)) ∧
  (∀ r x, runners p !! r = Some x → r < next_address p).

(** Whether every write to guarded state in a journal was made with the
    platform lock held. *)
Definition mutations_locked (j : list Event) : bool :=
  forallb (λ e, match e with Mutation _ locked => locked | _ => true end) j.

End Platform.

(* ===================================================================== *)
(** ** The memory backend                                                *)
(* ===================================================================== *)

Module MemoryBackend.

Local Open Scope Z_scope.

Inductive GumPageProtection := GUM_PAGE_RW | GUM_PAGE_RWX.

(** [GumMemoryRange]: the range [[base_address, base_address + size)]. *)
Record GumMemoryRange := mkRange {
  base_address : Z;
  size : Z
}.

Global Instance GumMemoryRange_eq_dec : EqDecision GumMemoryRange.
Proof. solve_decision. Defined.

(** The calls the backend makes on the host, oldest first. *)
Inductive Effect :=
| MemoryAllocate (size : Z) (prot : GumPageProtection) (hint base : Z)
| MemoryRelease (address size : Z) (success : bool)
| CloakAddRange (r : GumMemoryRange)
| CloakRemoveRange (r : GumMemoryRange).

Global Instance GumPageProtection_eq_dec : EqDecision GumPageProtection.
Proof. solve_decision. Defined.
Global Instance Effect_eq_dec : EqDecision Effect.
Proof. solve_decision. Defined.

(** Modelled from the spec: the cloak registry ([gum/gumcloak.h], not part of
    these sources) is an address-range registry with an add-range and a
    remove-range operation; remove-range takes out the entry that add-range
    put in. *)
Definition gum_cloak_add_range (r : GumMemoryRange)
    (registry : list GumMemoryRange) : list GumMemoryRange :=
  r :: registry.

Fixpoint gum_cloak_remove_range (r : GumMemoryRange)
    (registry : list GumMemoryRange) : list GumMemoryRange :=
  match registry with
  | [] => []
  | x :: rest =>
      if decide (x = r) then rest else x :: gum_cloak_remove_range r rest
  end.

Section Backend.

(** The host's page allocator ([gum/gummemory.h]) is taken as it comes:
    [gum_memory_allocate (size, prot, hint)] yields a base address, [0] for
    [NULL]; [gum_memory_release (address, size)] says whether it worked. *)
Variable Host : Type.
Variable gum_memory_allocate :
  Z → GumPageProtection → Z → Host → Z * Host.
Variable gum_memory_release : Z → Z → Host → bool * Host.

Record World := mkWorld {
  host : Host;
  cloak : list GumMemoryRange;
  effects : list Effect
}.

(** [GumV8MemoryBackend::Cloak] and [Uncloak]. *)
Definition Cloak (base size : Z) (w : World) : World :=
  let r := mkRange base size in
  mkWorld (host w) (gum_cloak_add_range r (cloak w))
    (effects w ++ [CloakAddRange r]).

Definition Uncloak (base size : Z) (w : World) : World :=
  let r := mkRange base size in
  mkWorld (host w) (gum_cloak_remove_range r (cloak w))
    (effects w ++ [CloakRemoveRange r]).

(** [GumV8MemoryBackend::Allocate (address, size, is_executable)]. *)
Definition Allocate (address size : Z) (is_executable : bool) (w : World)
  : Z * World :=
  let prot := if is_executable then GUM_PAGE_RWX else GUM_PAGE_RW in
  let '(base, h) := gum_memory_allocate size prot address (host w) in
  let w1 := mkWorld h (cloak w)
              (effects w ++ [MemoryAllocate size prot address base]) in
  if base =? 0 then (base, w1) else (base, Cloak base size w1).

(** [GumV8MemoryBackend::Free (address, size)]. *)
Definition Free (address size : Z) (w : World) : bool * World :=
  let '(success, h) := gum_memory_release address size (host w) in
  let w1 := mkWorld h (cloak w)
              (effects w ++ [MemoryRelease address size success]) in
  if success then (success, Uncloak address size w1) else (success, w1).

(** [GumV8MemoryBackend::Release (address, size)]. *)
Definition Release (address size : Z) (w : World) : bool * World :=
  Free address size w.

End Backend.

Arguments mkWorld {Host}.
Arguments host {Host}.
Arguments cloak {Host}.
Arguments effects {Host}.
Arguments Cloak {Host}.
Arguments Uncloak {Host}.
Arguments Allocate {Host}.
Arguments Free {Host}.
Arguments Release {Host}.

(** A host to run the backend on: pages are handed out upwards from the
    break, a request of no bytes fails, and only the range at a live base is
    released. *)
Record Pages := mkPages {
  break : Z;
  live : list (Z * Z)
}.

Definition pages_allocate (size : Z) (prot : GumPageProtection) (hint : Z)
    (h : Pages) : Z * Pages :=
  if size <=? 0 then (0, h)
  else (break h, mkPages (break h + size) ((break h, size) :: live h)).

Definition pages_release (address size : Z) (h : Pages) : bool * Pages :=
  if bool_decide ((address, size) ∈ live h)
  then (true, mkPages (break h)
                (filter (λ r, r ≠ (address, size)) (live h)))
  else (false, h).

Definition fresh_world : World Pages := mkWorld (mkPages 4096 []) [] [].

(** Position of the first occurrence of an effect in a trace. *)
Fixpoint position (e : Effect) (l : list Effect) : option nat :=
  match l with
  | [] => None
  | x :: rest =>
      if decide (x = e) then Some 0%nat else S <$> position e rest
  end.

End MemoryBackend.

(* ===================================================================== *)
(** ** Invariants of the operation lifecycle                             *)
(* ===================================================================== *)

Module OperationLifecycleInvariants.
Import OperationLifecycle.

(** Until the host has dispatched the operation, the work has not run and no
    thread is about to run it. *)
Definition unfired_ok (s : Sys) : Prop :=
  ticket s ≠ Dispatched → runs s = 0 ∧ ∀ t, ¬ pending s t.

Definition cancelled_ok (s : Sys) : Prop :=
  Inv s ∧ unfired_ok s ∧ ticket s = Destroyed.

(** A thread parked on the condition variable is parked once and is not
    running. *)
Definition apart_ok (s : Sys) : Prop :=
  NoDup (waiters s).*1 ∧
  ∀ t, t ∈ (waiters s).*1 → threads s !! t = None.

(** The holder of the platform lock is a running thread inside a locker. *)
Definition held_ok (s : Sys) : Prop :=
  ∀ t, lock s = Some t →
       ∃ m pc, threads s !! t = Some (m, pc) ∧ inside_locker pc = true.

End OperationLifecycleInvariants.

(* ===================================================================== *)
(** ** The calls V8 makes on the platform                                *)
(* ===================================================================== *)

Module PlatformCalls.
Import Binary64 Platform.
Local Open Scope platform_scope.

(** [GumV8ForegroundTaskRunner::PostDelayedTask (task, delay_in_seconds)]:
    the [double] product [delay_in_seconds * 1000.0] is passed for a
    [guint] of milliseconds. *)
Definition PostDelayedTask (runner task : nat) (delay_in_seconds : double)
  : M unit :=
  let* _ := ScheduleOnJSThreadDelayed
              (double_to_guint (double_mul delay_in_seconds
                                  (double_of_Z 1000)))
              G_PRIORITY_DEFAULT (RunTask runner task) in
  ret tt.

(** [GumV8Platform::CallOnWorkerThread (task)]. *)
Definition CallOnWorkerThread (task : nat) : M unit :=
  let* _ := ScheduleOnThreadPool (TaskRun task) in ret tt.

(** [GetForegroundTaskRunner (isolate)->...]: the call goes through the
    pointer the registry hands back. *)
Definition on_runner (iso : nat) (call : nat → M unit) : M unit :=
  let* runner := GetForegroundTaskRunner iso in
  match runner with
  | Some r => call r
  | None => λ _, None
  end.

(** [GumV8Platform::CallOnForegroundThread],
    [CallDelayedOnForegroundThread] and [CallIdleOnForegroundThread]. *)
Definition CallOnForegroundThread (iso task : nat) : M unit :=
  on_runner iso (λ r, PostTask r task).
Definition CallDelayedOnForegroundThread (iso task : nat)
    (delay_in_seconds : double) : M unit :=
  on_runner iso (λ r, PostDelayedTask r task delay_in_seconds).
Definition CallIdleOnForegroundThread (iso task : nat) : M unit :=
  on_runner iso (λ r, PostIdleTask r task).

(** [GumV8Platform::CurrentClockTimeMillis ()], with [real_time] the value
    [g_get_real_time ()] returns, in microseconds: the [gint64] quotient
    converted to [double]. *)
Definition CurrentClockTimeMillis (real_time : Z) : double :=
  double_of_Z (Z.quot real_time 1000).

(** A closure can be called when the runner it captured is alive. *)
Definition invocable (p : GumV8Platform) (w : Work) : Prop :=
  match w with
  | RunTask r _ | RunIdleTask r _ => is_Some (runners p !! r)
  | _ => True
  end.

(** Every live operation, and every outstanding one, lies below the next
    address [make_shared] hands out. *)
Definition addresses_wf (p : GumV8Platform) : Prop :=
  (∀ a o, operations p !! a = Some o → a < next_address p) ∧
  (∀ a, a ∈ js_operations p → a < next_address p).

End PlatformCalls.

(* ===================================================================== *)
(** ** Two callers of the runner registry at once                         *)
(* ===================================================================== *)

Module RegistryInterleaving.
Import Platform.
Local Open Scope platform_scope.

(** [GetForegroundTaskRunner] takes no lock, so another caller can run
    between its statements.  These are the first statement,
    [auto runner = foreground_runners[isolate]], and the rest of the body,
    with [runner] the caller's local variable. *)
Definition GetForegroundTaskRunner_lookup (iso : nat) : M (option nat) :=
  runner_at iso.

Definition GetForegroundTaskRunner_rest (iso : nat) (runner : option nat)
  : M (option nat) :=
  match runner with
  | Some r => ret (Some r)
  | None =>
      let* r := make_shared_runner iso in
      mutate RunnerRegistry
        (λ p, with_foreground_runners
                (<[iso := Some r]> (foreground_runners p)) p) ;;
      ret (Some r)
  end.

(** Two callers [a] and [b] for one isolate, where [b] looks the isolate up
    before [a] has stored its runner; the result is what each call
    returns. *)
Definition overlapping_calls (iso : nat) : M (option nat * option nat) :=
  let* runner_a := GetForegroundTaskRunner_lookup iso in
  let* runner_b := GetForegroundTaskRunner_lookup iso in
  let* a := GetForegroundTaskRunner_rest iso runner_a in
  let* b := GetForegroundTaskRunner_rest iso runner_b in
  ret (a, b).

End RegistryInterleaving.

(* ===================================================================== *)
(** ** The script bundles                                                *)
(* ===================================================================== *)

Module Bundles.

(** The module tables a bundle is made from. *)
Inductive ModuleSet :=
| gumjs_runtime_modules | gumjs_debug_modules
| gumjs_objc_modules | gumjs_java_modules.

(** The bundle members of [GumV8Platform] ([None] is [NULL]), the bundles
    that exist, and how often the isolate was disposed. *)
Record State := mkState {
  runtime_bundle : option nat;
  debug_bundle : option nat;
  objc_bundle : option nat;
  java_bundle : option nat;
  live : gmap nat ModuleSet;
  next_bundle : nat;
  isolate_disposals : nat
}.

(** [gum_v8_bundle_new (isolate, modules)] and [gum_v8_bundle_free] (in
    gumv8bundle.c, not part of these sources), taken as making a bundle at
    an address of its own and unmaking it. *)
Definition gum_v8_bundle_new (modules : ModuleSet) (s : State)
  : nat * State :=
  (next_bundle s,
   mkState (runtime_bundle s) (debug_bundle s) (objc_bundle s)
     (java_bundle s) (<[next_bundle s := modules]> (live s))
     (S (next_bundle s)) (isolate_disposals s)).

Definition gum_v8_bundle_free (bundle : nat) (s : State) : State :=
  mkState (runtime_bundle s) (debug_bundle s) (objc_bundle s)
    (java_bundle s) (delete bundle (live s)) (next_bundle s)
    (isolate_disposals s).

(** [GumV8Platform::InitRuntime ()]. *)
Definition InitRuntime (s : State) : State :=
  let '(r, s1) := gum_v8_bundle_new gumjs_runtime_modules s in
  let s2 := mkState (Some r) (debug_bundle s1) (objc_bundle s1)
              (java_bundle s1) (live s1) (next_bundle s1)
              (isolate_disposals s1) in
  let '(d, s3) := gum_v8_bundle_new gumjs_debug_modules s2 in
  mkState (runtime_bundle s3) (Some d) (objc_bundle s3) (java_bundle s3)
    (live s3) (next_bundle s3) (isolate_disposals s3).

(** The constructor: [objc_bundle (NULL)], [java_bundle (NULL)], then
    [InitRuntime ()]. *)
Definition constructed : State :=
  InitRuntime (mkState None None None None ∅ 1 0).

(** [GumV8Platform::GetObjCBundle ()] and [GetJavaBundle ()]. *)
Definition GetObjCBundle (s : State) : option nat * State :=
  match objc_bundle s with
  | Some b => (Some b, s)
  | None =>
      let '(b, s1) := gum_v8_bundle_new gumjs_objc_modules s in
      (Some b,
       mkState (runtime_bundle s1) (debug_bundle s1) (Some b)
         (java_bundle s1) (live s1) (next_bundle s1) (isolate_disposals s1))
  end.

Definition GetJavaBundle (s : State) : option nat * State :=
  match java_bundle s with
  | Some b => (Some b, s)
  | None =>
      let '(b, s1) := gum_v8_bundle_new gumjs_java_modules s in
      (Some b,
       mkState (runtime_bundle s1) (debug_bundle s1) (objc_bundle s1)
         (Some b) (live s1) (next_bundle s1) (isolate_disposals s1))
  end.

(** [g_clear_pointer (&member, gum_v8_bundle_free)] on each member. *)
Definition clear (member : option nat) (s : State) : State :=
  match member with
  | Some b => gum_v8_bundle_free b s
  | None => s
  end.

(** [GumV8Platform::Dispose ()]: the four members are cleared in the order
    objc, java, debug, runtime; then the isolate is disposed. *)
Definition Dispose (s : State) : State :=
  let s1 := clear (objc_bundle s) s in
  let s2 := clear (java_bundle s) s1 in
  let s3 := clear (debug_bundle s) s2 in
  let s4 := clear (runtime_bundle s) s3 in
  mkState None None None None (live s4) (next_bundle s4)
    (S (isolate_disposals s4)).

(** The lazy getters, as a caller picks them. *)
Inductive Getter := ObjC | Java.

Definition get (g : Getter) (s : State) : State :=
  match g with
  | ObjC => snd (GetObjCBundle s)
  | Java => snd (GetJavaBundle s)
  end.

(** Every bundle that exists is held by one of the four members. *)
Definition owned (s : State) : Prop :=
  ∀ b, is_Some (live s !! b) →
       runtime_bundle s = Some b ∨ debug_bundle s = Some b ∨
       objc_bundle s = Some b ∨ java_bundle s = Some b.

End Bundles.

(* ===================================================================== *)
(** ** Runs of memory backend calls                                      *)
(* ===================================================================== *)

Module MemoryBackendRuns.
Import MemoryBackend.
Local Open Scope Z_scope.

(** One call V8 makes on the memory backend. *)
Inductive Call :=
| AllocateCall (address size : Z) (is_executable : bool)
| FreeCall (address size : Z)
| ReleaseCall (address size : Z).

Section Runs.

Variable Host : Type.
Variable gum_memory_allocate :
  Z → GumPageProtection → Z → Host → Z * Host.
Variable gum_memory_release : Z → Z → Host → bool * Host.

Definition call (c : Call) (w : World Host) : World Host :=
  match c with
  | AllocateCall address size is_executable =>
      snd (Allocate gum_memory_allocate address size is_executable w)
  | FreeCall address size => snd (Free gum_memory_release address size w)
  | ReleaseCall address size =>
      snd (Release gum_memory_release address size w)
  end.

Definition calls (cs : list Call) (w : World Host) : World Host :=
  foldl (λ w c, call c w) w cs.

End Runs.

Arguments call {Host}.
Arguments calls {Host}.

(** The calls on the page allocator, as against those on the cloak. *)
Definition is_host_call (e : Effect) : bool :=
  match e with
  | MemoryAllocate _ _ _ _ | MemoryRelease _ _ _ => true
  | CloakAddRange _ | CloakRemoveRange _ => false
  end.

(** The cloak call that goes with a call on the page allocator: the range
    handed out is added, the range released is removed, and a failure has
    none. *)
Definition cloak_call_after (e : Effect) : list Effect :=
  match e with
  | MemoryAllocate size _ _ base =>
      if base =? 0 then [] else [CloakAddRange (mkRange base size)]
  | MemoryRelease address size true =>
      [CloakRemoveRange (mkRange address size)]
  | _ => []
  end.

Definition paired (trace : list Effect) : Prop :=
  trace
  = flat_map (λ e, e :: cloak_call_after e)
      (List.filter is_host_call trace).

End MemoryBackendRuns.

(* ===================================================================== *)
(** ** The script test fixture                                           *)
(* ===================================================================== *)

Module ScriptFixture.

Local Open Scope char_scope.

(** A [gchar *] string, character by character. *)
Abbreviation gstring := (list ascii).

(** One hexadecimal digit as [printf] writes it for [%x]. *)
Definition hex_digit (n : N) : ascii :=
  match n with
  | 0%N => "0" | 1%N => "1" | 2%N => "2" | 3%N => "3"
  | 4%N => "4" | 5%N => "5" | 6%N => "6" | 7%N => "7"
  | 8%N => "8" | 9%N => "9" | 10%N => "a" | 11%N => "b"
  | 12%N => "c" | 13%N => "d" | 14%N => "e" | _ => "f"
  end.

(** [g_string_append_printf (s, "%02x", (int) data_elements[i])] for one
    [guint8]: two digits, the high one first. *)
Definition printf_02x (b : Byte.byte) : gstring :=
  [hex_digit (Byte.to_N b / 16); hex_digit (Byte.to_N b mod 16)].

(** The loop of [test_script_fixture_store_message] from index [i] on, [s]
    being the [GString] so far. *)
Fixpoint format_from (i : nat) (data : list Byte.byte) (s : gstring)
  : gstring :=
  match data with
  | [] => s
  | b :: rest =>
      format_from (S i) rest
        ((if Nat.eqb i 0 then s else s ++ [" "]) ++ printf_02x b)
  end.

Definition format_data (data : list Byte.byte) : gstring :=
  format_from 0 data [].

Record TestScriptMessageItem := mkItem {
  message : gstring;
  data : option gstring          (* NULL when the message had no data *)
}.

Record TestScriptFixture := mkFixture {
  messages : list TestScriptMessageItem;     (* GQueue messages *)
  timeouts : list N;                         (* GQueue timeouts *)
  loop_quits : nat                           (* g_main_loop_quit calls *)
}.

(** The item [test_script_fixture_store_message] makes of a message and
    its data: the message copied, the data dumped. *)
Definition item_of (d : gstring * option (list Byte.byte))
  : TestScriptMessageItem :=
  mkItem d.1 (format_data <$> d.2).

(** [test_script_fixture_store_message (script, message, data, self)]. *)
Definition test_script_fixture_store_message (msg : gstring)
    (bytes : option (list Byte.byte)) (self : TestScriptFixture)
  : TestScriptFixture :=
  let item := item_of (msg, bytes) in
  mkFixture (messages self ++ [item]) (timeouts self) (S (loop_quits self)).

(** The message handler called once for each delivery, in order. *)
Definition deliver (deliveries : list (gstring * option (list Byte.byte)))
    (fixture : TestScriptFixture) : TestScriptFixture :=
  foldl (λ fx d, test_script_fixture_store_message d.1 d.2 fx)
    fixture deliveries.

(** [g_main_loop_run] inside [try_pop_message]: what the loop delivers to
    the message handler before it returns is given; when it is nothing the
    timeout source has fired and [test_script_fixture_stop_loop] has quit
    the loop. *)
Definition run_loop (deliveries : list (gstring * option (list Byte.byte)))
    (fixture : TestScriptFixture) : TestScriptFixture :=
  match deliveries with
  | [] => mkFixture (messages fixture) (timeouts fixture)
            (S (loop_quits fixture))
  | _ => deliver deliveries fixture
  end.

(** [test_script_fixture_try_pop_message (fixture, timeout)]:
    [g_queue_pop_head] after the loop has run, if the queue was empty. *)
Definition test_script_fixture_try_pop_message
    (fixture : TestScriptFixture) (timeout : N)
    (deliveries : list (gstring * option (list Byte.byte)))
  : option TestScriptMessageItem * TestScriptFixture :=
  let fx := match messages fixture with
            | [] => run_loop deliveries fixture
            | _ => fixture
            end in
  match messages fx with
  | [] => (None, fx)
  | item :: rest =>
      (Some item, mkFixture rest (timeouts fx) (loop_quits fx))
  end.

(** [test_script_fixture_push_timeout] and [test_script_fixture_pop_timeout]:
    [g_queue_push_tail] and [g_queue_pop_tail]. *)
Definition test_script_fixture_push_timeout (fixture : TestScriptFixture)
    (timeout : N) : TestScriptFixture :=
  mkFixture (messages fixture) (timeouts fixture ++ [timeout])
    (loop_quits fixture).

Definition test_script_fixture_pop_timeout (fixture : TestScriptFixture)
  : TestScriptFixture :=
  mkFixture (messages fixture) (removelast (timeouts fixture))
    (loop_quits fixture).

(** The timeout [test_script_fixture_pop_message] waits with:
    [GPOINTER_TO_UINT (g_queue_peek_tail (&fixture->timeouts))], the null
    pointer of an empty queue reading as 0. *)
Definition timeout_in_effect (fixture : TestScriptFixture) : N :=
  List.last (timeouts fixture) 0%N.

(** [test_script_fixture_pop_message]: [None] is the failed
    [g_assert (item != NULL)]. *)
Definition test_script_fixture_pop_message (fixture : TestScriptFixture)
    (deliveries : list (gstring * option (list Byte.byte)))
  : option (TestScriptMessageItem * TestScriptFixture) :=
  match test_script_fixture_try_pop_message fixture
          (timeout_in_effect fixture) deliveries with
  | (Some item, fx) => Some (item, fx)
  | (None, _) => None
  end.

Definition SCRIPT_MESSAGE_DEFAULT_TIMEOUT_MSEC : N := 500.

(** The queues as [test_script_fixture_setup] leaves them. *)
Definition test_script_fixture_setup : TestScriptFixture :=
  test_script_fixture_push_timeout (mkFixture [] [] 0)
    SCRIPT_MESSAGE_DEFAULT_TIMEOUT_MSEC.

(** The loop of [test_script_fixture_teardown] that frees what is still
    queued, [while ((item = try_pop_message (fixture, 1)) != NULL)], with
    nothing more arriving; the result lists the items handed to
    [test_script_message_item_free], in order. *)
Fixpoint teardown_drain (fuel : nat) (fixture : TestScriptFixture)
  : option (list TestScriptMessageItem * TestScriptFixture) :=
  match fuel with
  | 0 => None
  | S fuel' =>
      match test_script_fixture_try_pop_message fixture 1 [] with
      | (None, fx) => Some ([], fx)
      | (Some item, fx) =>
          match teardown_drain fuel' fx with
          | Some (items, fx') => Some (item :: items, fx')
          | None => None
          end
      end
  end.

(** Reading back what [printf_02x] wrote; used in the proofs only. *)
Definition hex_value (c : ascii) : option N :=
  match c with
  | "0" => Some 0%N | "1" => Some 1%N | "2" => Some 2%N | "3" => Some 3%N
  | "4" => Some 4%N | "5" => Some 5%N | "6" => Some 6%N | "7" => Some 7%N
  | "8" => Some 8%N | "9" => Some 9%N | "a" => Some 10%N | "b" => Some 11%N
  | "c" => Some 12%N | "d" => Some 13%N | "e" => Some 14%N
  | "f" => Some 15%N
  | _ => None
  end.

Definition read_02x (s : gstring) : option Byte.byte :=
  match s with
  | [c1; c2] =>
      match hex_value c1, hex_value c2 with
      | Some h, Some l => Byte.of_N (16 * h + l)
      | _, _ => None
      end
  | _ => None
  end.

End ScriptFixture.

(* ===================================================================== *)
(** ** Facts about binary64 rounding                                     *)
(* ===================================================================== *)

Module Binary64Facts.
Import Binary64.
Local Open Scope Z_scope.
#[local] Set Warnings "-clear-no-such-hyp".

Lemma fexp_eq d : fexp prec emax d = Z.max (d - 53) (-1074).
Proof. reflexivity. Qed.

Lemma digits2_size p : digits2_pos p = Pos.size p.
Proof. induction p; simpl; congruence. Qed.

Lemma digits_log2 p : Zpos (digits2_pos p) = Z.log2 (Zpos p) + 1.
Proof.
  rewrite digits2_size. destruct p; simpl; lia.
Qed.

Lemma Zdigits2_log2 m : 0 < m → Zdigits2 m = Z.log2 m + 1.
Proof. destruct m; try lia. intros _. apply digits_log2. Qed.

Lemma shifted_trans k j a b c :
  0 ≤ k → 0 ≤ j → 0 ≤ shr_m a →
  shifted k a b → shifted j b c → shifted (k + j) a c.
Proof.
  intros Hk Hj Ha [Hm1 He1] [Hm2 He2].
  assert (0 < 2 ^ k) by (apply Z.pow_pos_nonneg; lia).
  assert (0 < 2 ^ j) by (apply Z.pow_pos_nonneg; lia).
  split.
  - rewrite Hm2, Hm1, Z.pow_add_r, Z.div_div by lia. done.
  - rewrite He2, He1, Hm1, Z.pow_add_r by lia.
    rewrite (Z.rem_mul_r (shr_m a) (2 ^ k) (2 ^ j)) by lia.
    pose proof (Z.mod_pos_bound (shr_m a) (2 ^ k) ltac:(lia)).
    pose proof (Z.mod_pos_bound (shr_m a / 2 ^ k) (2 ^ j) ltac:(lia)).
    split; [intros (? & ? & ?)|intros [? ?]]; repeat split; try done; nia.
Qed.

Lemma shr_1_shifted a : 0 ≤ shr_m a → shifted 1 a (shr_1 a).
Proof.
  destruct a as [m r s]. simpl. intros Hm.
  destruct m as [|[p|p|]|p]; try lia; simpl; unfold shifted; simpl;
    change (2 ^ 1) with 2.
  - split; [by rewrite Z.div_0_l|]. rewrite Z.mod_0_l by lia. tauto.
  - split.
    + apply (Z.div_unique _ _ _ 1); lia.
    + assert (Z.pos p~1 mod 2 = 1)
        by (symmetry; apply (Z.mod_unique _ _ (Z.pos p)); lia).
      split; [done|]. intros [? _]. lia.
  - split.
    + apply (Z.div_unique _ _ _ 0); lia.
    + assert (Z.pos p~0 mod 2 = 0)
        by (symmetry; apply (Z.mod_unique _ _ (Z.pos p)); lia).
      tauto.
  - split; [done|]. split; [done|]. intros [? _]. done.
Qed.

Lemma shifted_nonneg k a b : 0 ≤ k → 0 ≤ shr_m a → shifted k a b → 0 ≤ shr_m b.
Proof.
  intros Hk Ha [Hm _]. rewrite Hm. apply Z.div_pos; [done|].
  apply Z.pow_pos_nonneg; lia.
Qed.

Lemma iter_pos_shifted p : ∀ a,
  0 ≤ shr_m a → shifted (Zpos p) a (iter_pos shr_1 p a).
Proof.
  induction p as [p IH|p IH|]; intros a Ha; simpl.
  - pose proof (shr_1_shifted a Ha) as H1.
    assert (0 ≤ shr_m (shr_1 a)) as Hb
      by (apply (shifted_nonneg 1 a); [lia|done..]).
    pose proof (IH _ Hb) as H2.
    assert (0 ≤ shr_m (iter_pos shr_1 p (shr_1 a))) as Hc
      by (apply (shifted_nonneg (Zpos p) (shr_1 a)); [lia|done..]).
    pose proof (IH _ Hc) as H3.
    replace (Z.pos p~1) with (1 + (Z.pos p + Z.pos p)) by lia.
    eapply (shifted_trans 1 _ a (shr_1 a)); [lia|lia|done|done|].
    eapply (shifted_trans (Zpos p) (Zpos p)); [lia|lia|done|exact H2|exact H3].
  - pose proof (IH _ Ha) as H2.
    assert (0 ≤ shr_m (iter_pos shr_1 p a)) as Hc
      by (apply (shifted_nonneg (Zpos p) a); [lia|done..]).
    pose proof (IH _ Hc) as H3.
    replace (Z.pos p~0) with (Z.pos p + Z.pos p) by lia.
    eapply (shifted_trans (Zpos p) (Zpos p)); [lia|lia|done|exact H2|exact H3].
  - by apply shr_1_shifted.
Qed.

Lemma shifted_0 a : shifted 0 a a.
Proof.
  split; [by rewrite Z.div_1_r|]. rewrite Z.mod_1_r. tauto.
Qed.

(** [shr] moves the mantissa [n] bits when [n] is not negative. *)
Lemma shr_shifted a e n :
  0 ≤ n → 0 ≤ shr_m a →
  shifted n a (fst (shr a e n)) ∧ snd (shr a e n) = e + n.
Proof.
  intros Hn Ha. destruct n as [|p|p]; try lia; simpl.
  - split; [apply shifted_0|lia].
  - split; [by apply iter_pos_shifted|done].
Qed.

Lemma round_cases m l :
  (round_nearest_even m l = m ∨ round_nearest_even m l = m + 1) ∧
  (l = loc_Exact → round_nearest_even m l = m).
Proof.
  destruct l as [|[| |]]; simpl; try destruct (Z.even m); split; auto;
    intros; discriminate.
Qed.

Lemma loc_of_shr_record_exact a :
  loc_of_shr_record a = loc_Exact ↔ orb (shr_r a) (shr_s a) = false.
Proof. destruct a as [m [|] [|]]; simpl; split; congruence. Qed.

Lemma shr_record_of_loc_spec m l :
  shr_m (shr_record_of_loc m l) = m ∧
  (orb (shr_r (shr_record_of_loc m l)) (shr_s (shr_record_of_loc m l)) = false
   ↔ l = loc_Exact).
Proof. destruct l as [|[| |]]; simpl; split; try done; split; congruence. Qed.

Lemma shr_fexp_spec m e l :
  0 ≤ m → e ≤ fexp prec emax (Zdigits2 m + e) →
  snd (shr_fexp prec emax m e l) = fexp prec emax (Zdigits2 m + e) ∧
  shr_m (fst (shr_fexp prec emax m e l))
  = m / 2 ^ (fexp prec emax (Zdigits2 m + e) - e) ∧
  (loc_of_shr_record (fst (shr_fexp prec emax m e l)) = loc_Exact ↔
   m mod 2 ^ (fexp prec emax (Zdigits2 m + e) - e) = 0 ∧ l = loc_Exact).
Proof.
  intros Hm He. unfold shr_fexp.
  destruct (shr_record_of_loc_spec m l) as [Hrm Hrl].
  destruct (shr_shifted (shr_record_of_loc m l) e
              (fexp prec emax (Zdigits2 m + e) - e))
    as [[Hs1 Hs2] Hs3]; [lia|by rewrite Hrm|].
  split; [rewrite Hs3; lia|]. split; [by rewrite Hs1, Hrm|].
  by rewrite loc_of_shr_record_exact, Hs2, Hrm, Hrl.
Qed.

Lemma shr_fexp_id m e :
  fexp prec emax (Zdigits2 m + e) ≤ e →
  shr_fexp prec emax m e loc_Exact = (Build_shr_record m false false, e).
Proof.
  intros H. unfold shr_fexp, shr. simpl.
  destruct (fexp prec emax (Zdigits2 m + e) - e) eqn:E; try done. lia.
Qed.

Lemma quotient_digits mx n :
  0 ≤ mx → 0 ≤ n →
  mx / 2 ^ n = 0 ∧ (mx = 0 ∨ Z.log2 mx < n) ∨
  0 < mx / 2 ^ n ∧ Z.log2 (mx / 2 ^ n) = Z.log2 mx - n.
Proof.
  intros Hm Hn. rewrite <- Z.shiftr_div_pow2 by done.
  destruct (decide (mx = 0)) as [->|Hne].
  { left. rewrite Z.shiftr_0_l. auto. }
  destruct (decide (Z.log2 mx < n)) as [Hlt|Hge].
  { left. split; [apply Z.shiftr_eq_0; lia|auto]. }
  right. rewrite Z.log2_shiftr by lia. split; [|lia].
  rewrite Z.shiftr_div_pow2 by done.
  assert (2 ^ n ≤ mx) by (apply Z.log2_le_pow2; lia).
  assert (0 < 2 ^ n) by (apply Z.pow_pos_nonneg; lia).
  apply Z.div_str_pos. lia.
Qed.

Lemma canonical_iff m e :
  canonical_mantissa prec emax m e = true ↔
  Z.max (Z.log2 (Zpos m) + 1 + e - 53) (-1074) = e.
Proof.
  unfold canonical_mantissa. rewrite fexp_eq, digits_log2, Z.eqb_eq. done.
Qed.

Lemma binary_round_aux_spec sx mx ex lx :
  0 ≤ mx → ex ≤ fexp prec emax (Zdigits2 mx + ex) →
  ∃ m2,
    (m2 = mx / 2 ^ (fexp prec emax (Zdigits2 mx + ex) - ex) ∨
     m2 = mx / 2 ^ (fexp prec emax (Zdigits2 mx + ex) - ex) + 1) ∧
    (lx = loc_Exact →
     mx mod 2 ^ (fexp prec emax (Zdigits2 mx + ex) - ex) = 0 →
     m2 = mx / 2 ^ (fexp prec emax (Zdigits2 mx + ex) - ex)) ∧
    result_is sx m2 (fexp prec emax (Zdigits2 mx + ex))
      (binary_round_aux prec emax sx mx ex lx).
Proof.
  intros Hm He.
  destruct (shr_fexp_spec mx ex lx Hm He) as (Hs1 & Hs2 & Hs3).
  unfold binary_round_aux.
  destruct (shr_fexp prec emax mx ex lx) as [a e1]. simpl in Hs1, Hs2, Hs3.
  rewrite !fexp_eq in *.
  set (D := Zdigits2 mx + ex) in *.
  set (n := Z.max (D - 53) (-1074) - ex) in *.
  assert (0 ≤ n) as Hn by (subst n; lia).
  assert (0 < 2 ^ n) as Hpow by (apply Z.pow_pos_nonneg; lia).
  set (m1 := mx / 2 ^ n) in *.
  set (m2 := round_nearest_even (shr_m a) (loc_of_shr_record a)).
  destruct (round_cases (shr_m a) (loc_of_shr_record a)) as [Hc Hx].
  fold m2 in Hc, Hx. rewrite Hs2 in Hc, Hx.
  exists m2. split; [exact Hc|].
  split. { intros -> Hmod. apply Hx, Hs3. done. }
  subst e1.
  assert (0 ≤ m1) as Hm1 by (apply Z.div_pos; lia).
  (* the digits of the first quotient *)
  assert (m1 = 0 ∧ Z.max (D - 53) (-1074) = -1074 ∨
          0 < m1 ∧ Z.log2 m1 + 1 + Z.max (D - 53) (-1074) = D) as Hd.
  { destruct (quotient_digits mx n Hm Hn) as [[H0 Hz]|[Hp Hl]].
    - left. split; [done|].
      destruct (decide (mx = 0)) as [E0|Hne0].
      + subst D n. rewrite E0 in *. change (Zdigits2 0) with 0 in *. lia.
      + destruct Hz as [?|Hlt]; [done|].
        subst D n. rewrite Zdigits2_log2 in * by lia. lia.
    - right. split; [done|].
      assert (0 < mx).
      { destruct (decide (mx = 0)) as [->|]; [|lia].
        subst m1. rewrite Z.div_0_l in Hp; lia. }
      fold m1 in Hl. subst D n. rewrite Zdigits2_log2 in * by done. lia. }
  destruct (decide (m2 = 0)) as [Hz|Hnz].
  - (* the result is zero *)
    left. split; [done|]. rewrite Hz.
    assert (m1 = 0) as Hm10 by lia.
    destruct Hd as [[_ He1]|[? _]]; [|lia].
    rewrite shr_fexp_id by (rewrite fexp_eq; simpl; lia). done.
  - right. assert (0 < m2) as Hpos by lia.
    assert (Z.log2 m2 + 1 + Z.max (D - 53) (-1074) = D ∧ 0 < m1 ∨
            Z.log2 m2 + 1 + Z.max (D - 53) (-1074) = D + 1 ∧ 0 < m1 ∧
              m2 = 2 ^ (Z.log2 m1 + 1) ∨
            m1 = 0 ∧ m2 = 1) as Hd2.
    { destruct Hd as [[H0 He1]|[Hp Hl]].
      - right. right. lia.
      - destruct Hc as [->| ->]; [left; lia|].
        pose proof (Z.log2_succ_le m1) as Hle.
        pose proof (Z.log2_le_mono m1 (m1 + 1) ltac:(lia)) as Hge.
        unfold Z.succ in Hle.
        destruct (decide (Z.log2 (m1 + 1) = Z.log2 m1)) as [E|E].
        + left. lia.
        + right. left. split; [lia|]. split; [done|].
          assert (Z.log2 (Z.succ m1) = Z.succ (Z.log2 m1)) as Hs
            by (unfold Z.succ; lia).
          apply Z.log2_eq_succ_is_pow2 in Hs as [b Hb].
          unfold Z.succ in Hb. rewrite Hb.
          assert (0 ≤ b).
          { destruct (decide (0 ≤ b)); [done|].
            rewrite Z.pow_neg_r in Hb; lia. }
          f_equal. rewrite <- (Z.log2_pow2 b) by done. rewrite <- Hb. lia. }
    destruct Hd2 as [[Hl Hp1]|[(Hl & Hp1 & Hp2)|[H0 H1]]].
    + (* same binade *)
      rewrite shr_fexp_id
        by (rewrite fexp_eq, Zdigits2_log2 by done; lia).
      simpl. destruct m2 as [|mf|]; try lia.
      exists mf, (Z.max (D - 53) (-1074)).
      split; [done|]. split; [lia|].
      split; [by rewrite Z.sub_diag, Z.mul_1_r|].
      split; [apply canonical_iff; lia|done].
    + (* the mantissa has grown by a bit *)
      destruct Hd as [[? _]|[_ Hl1]]; [lia|].
      destruct (decide (D - 53 < -1074)) as [Hsub|Hnorm].
      * rewrite shr_fexp_id
          by (rewrite fexp_eq, Zdigits2_log2 by done; lia).
        simpl. destruct m2 as [|mf|]; try lia.
        exists mf, (Z.max (D - 53) (-1074)).
        split; [done|]. split; [lia|].
        split; [by rewrite Z.sub_diag, Z.mul_1_r|].
        split; [apply canonical_iff; lia|done].
      * assert (Z.log2 m1 = 52) as H52 by lia.
        rewrite H52 in Hp2. change (2 ^ (52 + 1)) with 9007199254740992 in Hp2.
        subst m2. rewrite Hp2.
        replace (Z.max (D - 53) (-1074)) with (D - 53) by lia.
        assert (shr_fexp prec emax 9007199254740992 (D - 53) loc_Exact
                = (Build_shr_record 4503599627370496 false false, D - 52))
          as ->.
        { unfold shr_fexp. rewrite fexp_eq.
          change (Zdigits2 9007199254740992) with 54.
          replace (Z.max (54 + (D - 53) - 53) (-1074) - (D - 53)) with 1
            by lia.
          simpl. f_equal. lia. }
        simpl. exists 4503599627370496%positive, (D - 52).
        split; [done|]. split; [lia|].
        split; [replace (D - 52 - (D - 53)) with 1 by lia; done|].
        split; [apply canonical_iff; simpl; lia|done].
    + subst m1. rewrite H1.
      destruct Hd as [[_ He1]|[? _]]; [|lia].
      rewrite shr_fexp_id by (rewrite fexp_eq; simpl; lia).
      simpl. exists 1%positive, (Z.max (D - 53) (-1074)).
      split; [done|]. split; [lia|].
      split; [by rewrite Z.sub_diag|].
      split; [apply canonical_iff; simpl; lia|done].
Qed.

Lemma pow2_pos n : 0 ≤ n → 0 < 2 ^ n.
Proof. intros. apply Z.pow_pos_nonneg; lia. Qed.

Lemma Pos_iter_xO m d : Zpos (Pos.iter xO m d) = Zpos m * 2 ^ Zpos d.
Proof.
  induction d as [|d IH] using Pos.peano_ind.
  - simpl. lia.
  - rewrite Pos.iter_succ, Pos2Z.inj_succ, Z.pow_succ_r by lia.
    rewrite Pos2Z.inj_xO, IH. lia.
Qed.

Lemma shl_align_spec mx ex ex' :
  snd (shl_align mx ex ex') = Z.min ex ex' ∧
  Zpos (fst (shl_align mx ex ex')) = Zpos mx * 2 ^ (ex - Z.min ex ex').
Proof.
  unfold shl_align. destruct (ex' - ex) as [|d|d] eqn:E; simpl.
  - replace (Z.min ex ex') with ex by lia. rewrite Z.sub_diag. lia.
  - replace (Z.min ex ex') with ex by lia. rewrite Z.sub_diag. lia.
  - replace (Z.min ex ex') with ex' by lia. rewrite Pos_iter_xO.
    split; [done|]. do 2 f_equal. lia.
Qed.

Lemma scaled_log2 m e :
  0 < m → -1074 ≤ e → Z.log2 (scaled m e) = Z.log2 m + e + 1074.
Proof. intros. unfold scaled. rewrite Z.log2_mul_pow2; lia. Qed.

Lemma canonical_cases m e :
  canonical_mantissa prec emax m e = true →
  -1074 ≤ e ∧ Z.log2 (Zpos m) ≤ 52 ∧ (e = -1074 ∨ Z.log2 (Zpos m) = 52).
Proof. rewrite canonical_iff. lia. Qed.




(** Among canonical doubles the order of the values is the order of the
    exponents, then of the mantissas. *)
Lemma canonical_le m1 e1 m2 e2 :
  canonical_mantissa prec emax m1 e1 = true →
  canonical_mantissa prec emax m2 e2 = true →
  scaled (Zpos m1) e1 ≤ scaled (Zpos m2) e2 →
  e1 < e2 ∨ e1 = e2 ∧ (m1 ≤ m2)%positive.
Proof.
  intros H1 H2 Hle.
  pose proof (canonical_cases _ _ H1) as (He1 & Hl1 & Hor1).
  pose proof (canonical_cases _ _ H2) as (He2 & Hl2 & Hor2).
  unfold scaled in Hle.
  assert (0 < 2 ^ (e2 + 1074)) as Hp2 by (apply pow2_pos; lia).
  destruct (Z.lt_trichotomy e1 e2) as [?|[->|Hgt]]; [by left| |].
  - right. split; [done|]. nia.
  - exfalso.
    assert (Z.log2 (Zpos m1) = 52) as H52 by lia.
    assert (2 ^ 52 ≤ Zpos m1) by (apply Z.log2_le_pow2; lia).
    assert (Zpos m2 < 2 ^ 53) by (apply Z.log2_lt_pow2; lia).
    assert (2 ^ (e1 + 1074) = 2 ^ (e1 - e2) * 2 ^ (e2 + 1074)) as Hs
      by (rewrite <- Z.pow_add_r by lia; f_equal; lia).
    assert (2 ^ 1 ≤ 2 ^ (e1 - e2)) by (apply Z.pow_le_mono_r; lia).
    change (2 ^ 1) with 2 in *. change (2 ^ 52) with 4503599627370496 in *.
    change (2 ^ 53) with 9007199254740992 in *.
    rewrite Hs in Hle. nia.
Qed.

(** [binary_round] in terms of values. *)
Lemma binary_round_value sx mx ex :
  -1074 ≤ ex →
  ∃ m2 mf ef,
    (m2 = scaled (Zpos mx) ex / 2 ^ grid (scaled (Zpos mx) ex) ∨
     m2 = scaled (Zpos mx) ex / 2 ^ grid (scaled (Zpos mx) ex) + 1) ∧
    (scaled (Zpos mx) ex mod 2 ^ grid (scaled (Zpos mx) ex) = 0 →
     m2 = scaled (Zpos mx) ex / 2 ^ grid (scaled (Zpos mx) ex)) ∧
    canonical_mantissa prec emax mf ef = true ∧
    scaled (Zpos mf) ef = m2 * 2 ^ grid (scaled (Zpos mx) ex) ∧
    binary_round prec emax sx mx ex
    = if ef <=? 971 then S754_finite sx mf ef else S754_infinity sx.
Proof.
  intros He. unfold binary_round.
  destruct (shl_align_spec mx ex (fexp prec emax (Zpos (digits2_pos mx) + ex)))
    as [Hz1 Hz2].
  destruct (shl_align mx ex _) as [mz ez]. simpl in Hz1, Hz2.
  rewrite fexp_eq, digits_log2 in *.
  set (S := scaled (Zpos mx) ex).
  assert (Z.log2 S = Z.log2 (Zpos mx) + ex + 1074) as HlS
    by (apply scaled_log2; lia).
  assert (0 < S) as HS.
  { unfold S, scaled. pose proof (pow2_pos (ex + 1074)). lia. }
  assert (-1074 ≤ ez) as Hez by lia.
  assert (S = scaled (Zpos mz) ez) as HSz.
  { unfold S, scaled. rewrite Hz2, <- Z.mul_assoc, <- Z.pow_add_r by lia.
    do 2 f_equal. lia. }
  assert (Z.log2 (Zpos mz) + ez = Z.log2 (Zpos mx) + ex) as Hlz.
  { rewrite Hz2, Z.log2_mul_pow2 by lia. lia. }
  assert (fexp prec emax (Zdigits2 (Zpos mz) + ez) = grid S - 1074) as Hf.
  { rewrite fexp_eq. simpl Zdigits2. rewrite digits_log2.
    unfold grid. lia. }
  destruct (binary_round_aux_spec sx (Zpos mz) ez loc_Exact)
    as (m2 & Hc & Hx & Hr); [lia|rewrite Hf; unfold grid; lia|].
  rewrite Hf in Hc, Hx, Hr.
  assert (0 ≤ grid S) as Hg0 by (unfold grid; lia).
  assert (0 < 2 ^ grid S) as Hpg by (by apply pow2_pos).
  assert (0 ≤ grid S - 1074 - ez) as Hn by (unfold grid; lia).
  assert (2 ^ grid S = 2 ^ (grid S - 1074 - ez) * 2 ^ (ez + 1074)) as Hsplit
    by (rewrite <- Z.pow_add_r by lia; f_equal; lia).
  assert (0 < 2 ^ (ez + 1074)) as Hpe by (apply pow2_pos; lia).
  assert (0 < 2 ^ (grid S - 1074 - ez)) as Hpn by (by apply pow2_pos).
  assert (Zpos mz / 2 ^ (grid S - 1074 - ez) = S / 2 ^ grid S) as Hq.
  { replace (S / 2 ^ grid S)
      with (Zpos mz * 2 ^ (ez + 1074)
            / (2 ^ (grid S - 1074 - ez) * 2 ^ (ez + 1074)))
      by (rewrite <- Hsplit; f_equal; by rewrite HSz).
    rewrite Z.div_mul_cancel_r by lia. done. }
  assert (S mod 2 ^ grid S = 0 → Zpos mz mod 2 ^ (grid S - 1074 - ez) = 0)
    as Hmod.
  { replace (S mod 2 ^ grid S)
      with ((Zpos mz * 2 ^ (ez + 1074))
            mod (2 ^ (grid S - 1074 - ez) * 2 ^ (ez + 1074)))
      by (rewrite <- Hsplit; f_equal; by rewrite HSz).
    rewrite Z.mul_mod_distr_r by lia. nia. }
  rewrite Hq in Hc, Hx.
  assert (1 ≤ S / 2 ^ grid S) as Hq1.
  { apply Z.div_le_lower_bound; [lia|].
    pose proof (Z.log2_spec S HS) as [Hl _].
    pose proof (Z.log2_nonneg S).
    assert (2 ^ grid S ≤ 2 ^ Z.log2 S)
      by (apply Z.pow_le_mono_r; unfold grid; lia).
    lia. }
  destruct Hr as [[H0 _]|(mf & ef & Hp & Hef & Hv & Hcan & Hres)]; [lia|].
  exists m2, mf, ef. split; [exact Hc|]. split; [auto|].
  split; [exact Hcan|]. split; [|exact Hres].
  unfold scaled. rewrite <- Hv.
  replace (ef + 1074) with ((ef - (grid S - 1074)) + grid S) by lia.
  rewrite Z.pow_add_r by lia. lia.
Qed.





Lemma binary_round_valid sx mx ex :
  -1074 ≤ ex →
  double_valid (binary_round prec emax sx mx ex) = true ∧
  binary_round prec emax sx mx ex ≠ S754_nan.
Proof.
  intros He.
  destruct (binary_round_value sx mx ex He)
    as (m2 & mf & ef & _ & _ & Hcan & _ & ->).
  destruct (ef <=? 971) eqn:E; [|done].
  split; [|done]. unfold double_valid, valid_binary, bounded.
  by rewrite Hcan.
Qed.

(** The conversion of an integer gives a double, never a NaN. *)
Lemma double_of_Z_valid z :
  double_valid (double_of_Z z) = true ∧ double_of_Z z ≠ S754_nan.
Proof.
  destruct z as [|p|p]; [done|apply binary_round_valid; lia..].
Qed.




(** An integer below [2 ^ 53] is a double. *)
Lemma double_of_Z_exact z :
  0 < z < 2 ^ 53 →
  ∃ m e, double_of_Z z = S754_finite false m e ∧
         canonical_mantissa prec emax m e = true ∧
         scaled (Zpos m) e = scaled z 0.
Proof.
  intros Hz. destruct z as [|p|p]; try lia.
  unfold double_of_Z. simpl binary_normalize.
  destruct (binary_round_value false p 0 ltac:(lia))
    as (m2 & mf & ef & _ & Hx & Hcan & Hv & ->).
  set (S := scaled (Zpos p) 0) in *.
  assert (Z.log2 S = Z.log2 (Zpos p) + 0 + 1074) as HlS
    by (apply scaled_log2; lia).
  assert (Z.log2 (Zpos p) < 53) as Hl by (apply Z.log2_lt_pow2; lia).
  pose proof (Z.log2_nonneg (Zpos p)).
  assert (0 ≤ grid S ≤ 1074) as Hg by (unfold grid; lia).
  set (g := grid S) in *.
  assert (0 < 2 ^ g) as Hpg by (apply pow2_pos; lia).
  assert (S = Zpos p * 2 ^ (1074 - g) * 2 ^ g) as HS.
  { unfold S, scaled. rewrite <- Z.mul_assoc, <- Z.pow_add_r by lia.
    do 2 f_equal. lia. }
  assert (S mod 2 ^ g = 0) as Hmod
    by (rewrite HS; apply Z.mod_mul; lia).
  rewrite (Hx Hmod) in Hv.
  assert (scaled (Zpos mf) ef = S) as HvS.
  { rewrite Hv. pose proof (Z.div_mod S (2 ^ g) ltac:(lia)). lia. }
  assert (ef ≤ 971) as Hef.
  { pose proof (canonical_cases _ _ Hcan) as (He0 & _).
    assert (Z.log2 (scaled (Zpos mf) ef) = Z.log2 (Zpos mf) + ef + 1074)
      by (apply scaled_log2; lia).
    pose proof (Z.log2_nonneg (Zpos mf)). rewrite HvS in *. lia. }
  rewrite (proj2 (Z.leb_le ef 971)) by done.
  exists mf, ef. done.
Qed.

Lemma double_trunc_floor m e t :
  -1074 ≤ e →
  double_trunc (S754_finite false m e) = Some t →
  0 ≤ t ∧ scaled t 0 ≤ scaled (Zpos m) e < scaled (t + 1) 0.
Proof.
  intros He [= <-]. simpl cond_Zopp. unfold scaled.
  change (0 + 1074) with 1074.
  assert (0 < 2 ^ (e + 1074)) by (apply pow2_pos; lia).
  destruct (decide (0 ≤ e)) as [H0|Hneg].
  - rewrite Z.shiftl_mul_pow2 by done.
    assert (0 < 2 ^ e) by (by apply pow2_pos).
    rewrite (Z.pow_add_r 2 e 1074) by lia.
    assert (0 < 2 ^ 1074) as Hb by done.
    set (A := 2 ^ e) in *. set (B := 2 ^ 1074) in *.
    clearbody A B. split; nia.
  - rewrite <- Z.shiftr_opp_r, Z.shiftr_div_pow2 by lia.
    assert (0 < 2 ^ (- e)) as Hp by (apply pow2_pos; lia).
    pose proof (Z.div_mod (Zpos m) (2 ^ (- e)) ltac:(lia)) as Hd.
    pose proof (Z.mod_pos_bound (Zpos m) (2 ^ (- e)) Hp) as Hm.
    assert (0 ≤ Zpos m / 2 ^ (- e)) by (apply Z.div_pos; lia).
    assert (2 ^ 1074 = 2 ^ (- e) * 2 ^ (e + 1074)) as ->
      by (rewrite <- Z.pow_add_r by lia; f_equal; lia).
    split; [done|]. nia.
Qed.

Lemma double_to_guint_range x : 0 ≤ double_to_guint x < 2 ^ 32.
Proof.
  unfold double_to_guint. destruct (double_trunc x) as [t|]; [|done].
  destruct (_ && _); [|done]. apply Z.mod_pos_bound. done.
Qed.

Lemma double_to_guint_defined x t :
  double_trunc x = Some t → 0 ≤ t < 2 ^ 32 → double_to_guint x = t.
Proof.
  intros Ht Hr. unfold double_to_guint. rewrite Ht.
  rewrite (proj2 (Z.leb_le _ _)), (proj2 (Z.ltb_lt _ _)) by lia.
  simpl. apply Z.mod_small. done.
Qed.

Lemma double_of_Z_scaled z :
  0 ≤ z < 2 ^ 53 →
  double_valid (double_of_Z z) = true ∧
  double_scaled (double_of_Z z) = Some (scaled z 0).
Proof.
  intros Hz. destruct (decide (z = 0)) as [->|Hne]; [done|].
  destruct (double_of_Z_exact z ltac:(lia)) as (m & e & Hd & Hcan & Hv).
  split; [apply double_of_Z_valid|]. rewrite Hd. simpl. by rewrite Hv.
Qed.

(** The conversion keeps the order of integers below [2 ^ 53]. *)
Lemma double_of_Z_le z1 z2 :
  0 ≤ z1 → z1 ≤ z2 → z2 < 2 ^ 53 →
  double_le (double_of_Z z1) (double_of_Z z2) = true.
Proof.
  intros H0 Hle Hz.
  destruct (decide (z2 = 0)) as [->|Hne2].
  { assert (z1 = 0) as -> by lia. done. }
  destruct (double_of_Z_exact z2 ltac:(lia)) as (m2 & e2 & -> & Hc2 & Hv2).
  destruct (decide (z1 = 0)) as [->|Hne1]; [done|].
  destruct (double_of_Z_exact z1 ltac:(lia)) as (m1 & e1 & -> & Hc1 & Hv1).
  assert (scaled (Zpos m1) e1 ≤ scaled (Zpos m2) e2) as Hs.
  { rewrite Hv1, Hv2. unfold scaled. change (0 + 1074) with 1074.
    apply Z.mul_le_mono_nonneg_r; [|done]. by apply Z.lt_le_incl, pow2_pos. }
  unfold double_le, SFleb, SFcompare.
  destruct (canonical_le _ _ _ _ Hc1 Hc2 Hs) as [Hlt|[-> Hm]].
  - by rewrite (proj2 (Z.compare_lt_iff e1 e2)) by lia.
  - rewrite Z.compare_refl.
    change (Pos.compare_cont Eq m1 m2) with (m1 ?= m2)%positive.
    destruct (m1 ?= m2)%positive eqn:E; try done.
Qed.











End Binary64Facts.

(* ===================================================================== *)
(** ** Facts about the operation lifecycle                               *)
(* ===================================================================== *)

Module OperationLifecycleFacts.
Import OperationLifecycle.

#[local] Set Warnings "-clear-no-such-hyp".

(** *** [exec] and [step] agree *)

Lemma set_threads_id s : set_threads (threads s) s = s.
Proof. by destruct s. Qed.

Lemma idle_true t s :
  idle t s = true → threads s !! t = None ∧ (t ∉ (waiters s).*1).
Proof.
  unfold idle. intros [H1 H2]%andb_true_iff.
  by apply bool_decide_eq_true in H1, H2.
Qed.

Lemma start_step t m s s' :
  start t m s = Some s' →
  threads s !! t = None ∧ (t ∉ (waiters s).*1) ∧
  s' = set_threads (set_pc t m (body (variant s) m) (threads s)) s.
Proof.
  unfold start. destruct (idle t s) eqn:E; [|done].
  intros ?; simplify_eq. by apply idle_true in E as [? ?].
Qed.

Lemma wake_lookup k s t m pc :
  waiters s !! k = Some (t, (m, pc)) →
  wake k s = mkSys (variant s) (completed s) (runs s) (ticket s) (lock s)
               (<[t := (m, LockerEnter :: pc)]> (threads s))
               (delete k (waiters s)).
Proof. intros H. unfold wake. rewrite H. by destruct s. Qed.

Lemma signal_lookup k (w : list (nat * Activation)) :
  w ≠ [] → is_Some (w !! (k mod length w)).
Proof.
  intros H. apply lookup_lt_is_Some. apply Nat.mod_upper_bound.
  by destruct w.
Qed.

Lemma exec_step s a s' : exec s a = Some s' → step s a s'.
Proof.
  destruct s as [v c n k l th w]. destruct a as [t|t|t|t x|x]; simpl.
  - destruct k; try done. intros (? & ? & ->)%start_step. by constructor.
  - intros (? & ? & ->)%start_step. by constructor.
  - intros (? & ? & ->)%start_step. by constructor.
  - destruct (th !! t) as [[m [|stmt rest]]|] eqn:E; try done.
    unfold exec_stmt. destruct stmt; simpl.
    + intros ?; simplify_eq. by constructor.
    + destruct l; [done|]. intros ?; simplify_eq. by constructor.
    + intros ?; simplify_eq. by constructor.
    + intros ?; simplify_eq. unfold cond_signal. simpl.
      destruct w as [|w0 w'] eqn:Ew; [by constructor|].
      rewrite <- Ew.
      destruct (signal_lookup x w) as [[tw [mw pcw]] Hk]; [by subst|].
      rewrite (wake_lookup _ _ tw mw pcw) by done. simpl.
      by econstructor.
    + case_bool_decide; [|done]. intros ?; simplify_eq. by constructor.
    + intros ?; simplify_eq. destruct k; by apply step_source_destroy.
    + destruct c.
      * intros ?; simplify_eq. by constructor.
      * case_bool_decide; [|done]. intros ?; simplify_eq. by constructor.
  - destruct (w !! x) as [[tw [mw pcw]]|] eqn:E; [|done].
    intros ?; simplify_eq. rewrite (wake_lookup _ _ tw mw pcw) by done.
    by constructor.
Qed.

Lemma cond_signal_wake k s a :
  waiters s !! (k mod length (waiters s)) = Some a →
  cond_signal k s = wake (k mod length (waiters s)) s.
Proof.
  unfold cond_signal. destruct (waiters s); [|done].
  by rewrite lookup_nil.
Qed.

Lemma start_idle t m s :
  threads s !! t = None → t ∉ (waiters s).*1 →
  start t m s = Some (set_threads (set_pc t m (body (variant s) m) (threads s)) s).
Proof.
  intros H1 H2. unfold start, idle.
  by rewrite (bool_decide_eq_true_2 _ H1), (bool_decide_eq_true_2 _ H2).
Qed.

Ltac sys_simpl :=
  cbn [variant completed runs ticket lock threads waiters
       set_threads set_lock set_completed set_runs set_ticket set_waiters].

Lemma step_exec s a s' : step s a s' → exec s a = Some s'.
Proof.
  destruct 1; unfold exec; sys_simpl;
    try (by rewrite start_idle);
    try (match goal with H : _ !! _ = Some _ |- _ => rewrite H end);
    unfold exec_stmt; sys_simpl;
    try rewrite bool_decide_eq_true_2 by done;
    try done.
  - rewrite (cond_signal_wake _ _ (tw, (mw, pcw))) by done.
    rewrite (wake_lookup _ _ tw mw pcw) by exact H0. by sys_simpl.
  - by destruct k.
  - by rewrite (wake_lookup _ _ tw mw pcw) by exact H.
Qed.

(** *** Shape *)

Lemma shape_cases v m stmt rest :
  stmt :: rest ∈ tails (body v m) →
  (stmt = CallFunc ∧ m = Perform ∧
   rest = [LockerEnter; SetCompleted; CondSignal; LockerLeave]) ∨
  (stmt = SourceDestroy ∧ m = Cancel ∧ v = MainContext ∧
   rest = [LockerEnter; SetCompleted; CondSignal; LockerLeave]) ∨
  (stmt = LockerEnter ∧ m ≠ Await ∧
   rest = [SetCompleted; CondSignal; LockerLeave]) ∨
  (stmt = LockerEnter ∧ m = Await ∧ rest = [AwaitLoop; LockerLeave]) ∨
  (stmt = SetCompleted ∧ m ≠ Await ∧ rest = [CondSignal; LockerLeave]) ∨
  (stmt = CondSignal ∧ m ≠ Await ∧ rest = [LockerLeave]) ∨
  (stmt = AwaitLoop ∧ m = Await ∧ rest = [LockerLeave]) ∨
  (stmt = LockerLeave ∧ rest = []).
Proof.
  destruct v, m; simpl; rewrite ?elem_of_cons, ?elem_of_nil;
    intros H; repeat (destruct H as [H|H]); simplify_eq; naive_solver.
Qed.

Lemma tails_tail x r l : x :: r ∈ tails l → r ≠ [] → r ∈ tails l.
Proof.
  induction l as [|y l IH]; simpl; [by intros ?%elem_of_nil|].
  intros [H|H]%elem_of_cons Hr.
  - simplify_eq. right. destruct l; [done|]. by left.
  - right. by apply IH.
Qed.

Lemma body_in_tails v m : body v m ≠ [] → body v m ∈ tails (body v m).
Proof. destruct (body v m); [done|]. intros _. by left. Qed.

Lemma set_pc_lookup t m rest (th : gmap nat Activation) t0 a :
  set_pc t m rest th !! t0 = Some a →
  (t0 = t ∧ a = (m, rest) ∧ rest ≠ []) ∨ (t0 ≠ t ∧ th !! t0 = Some a).
Proof.
  unfold set_pc. destruct rest.
  - intros [? ?]%lookup_delete_Some. by right.
  - intros [[? ?]|[? ?]]%lookup_insert_Some; [left|right]; by simplify_eq.
Qed.

Lemma elem_of_delete_list {A} (l : list A) k x : x ∈ delete k l → x ∈ l.
Proof.
  revert k. induction l as [|y l IH]; intros [|k]; simpl; try done.
  - intros H. by right.
  - intros [->|H]%elem_of_cons; [by left|right; by eapply IH].
Qed.

Ltac thread_cases :=
  repeat match goal with
  | H : set_pc _ _ _ _ !! _ = Some _ |- _ =>
      apply set_pc_lookup in H as [(? & ? & ?)|[? H]]; simplify_eq
  | H : <[_ := _]> _ !! _ = Some _ |- _ =>
      apply lookup_insert_Some in H as [[? ?]|[? H]]; simplify_eq
  | H : delete _ _ !! _ = Some _ |- _ =>
      apply lookup_delete_Some in H as [? H]
  | H : _ ∈ delete _ _ |- _ => apply elem_of_delete_list in H
  | H : _ ∈ _ ++ [_] |- _ =>
      apply elem_of_app in H as [H|H%list_elem_of_singleton]; simplify_eq
  end.

Lemma woken_is_await s tw mw pcw k :
  shape_ok s → waiters s !! k = Some (tw, (mw, pcw)) →
  mw = Await ∧ pcw = [AwaitLoop; LockerLeave].
Proof.
  intros [_ Hw] Hk. eapply Hw. by eapply list_elem_of_lookup_2.
Qed.

Lemma step_shape_ok s a s' : shape_ok s → step s a s' → shape_ok s'.
Proof.
  intros Hok Hs. pose proof Hok as [Ht Hw].
  destruct Hs; simpl in *; split; simpl;
    intros t0 m0 pc0 Hl; thread_cases; eauto using tails_tail;
    try (by apply (body_in_tails _ Perform));
    try (by apply (body_in_tails _ Cancel));
    try (by apply (body_in_tails _ Await));
    try (match goal with
         | H : _ !! _ = Some (_, (_, _)) |- _ =>
             destruct (woken_is_await _ _ _ _ _ Hok H) as [-> ->]
         end; simpl; by left).
  apply Ht in H.
  destruct (shape_cases _ _ _ _ H) as
    [?|[?|[?|[?|[?|[?|[?|?]]]]]]]; naive_solver.
Qed.

Lemma shape_ok_init v : shape_ok (init v).
Proof.
  split; simpl.
  - intros t m pc H. by rewrite lookup_empty in H.
  - intros t m pc H. by apply elem_of_nil in H.
Qed.

(** *** The work is called at most once *)

Lemma pending_is_perform s t :
  shape_ok s → pending s t →
  threads s !! t = Some (Perform, Perform_body (variant s)).
Proof.
  intros [Ht _] (m & pc & Hl & Hc). pose proof (Ht _ _ _ Hl) as Hpc.
  destruct pc as [|stmt rest]; [by apply elem_of_nil in Hc|].
  destruct (shape_cases _ _ _ _ Hpc) as
    [?|[?|[?|[?|[?|[?|[?|?]]]]]]]; destruct_and?; simplify_eq;
    try done;
    rewrite ?elem_of_cons, ?elem_of_nil in Hc; naive_solver.
Qed.

Lemma step_pending s a s' t1 :
  shape_ok s → step s a s' → (∀ t, a ≠ HostDispatch t) →
  pending s' t1 → pending s t1.
Proof.
  intros Hok Hs Ha (m1 & pc1 & Hl & Hc). pose proof Hok as [Ht Hw].
  unfold pending.
  destruct Hs; simpl in *; thread_cases; eauto 6;
    try (by destruct (Ha t1));
    try (eexists _, _; split; [eassumption|by right]);
    try (match goal with
         | H : _ !! _ = Some (_, (_, _)) |- _ =>
             destruct (woken_is_await _ _ _ _ _ Hok H) as [-> ->]
         end;
         rewrite ?elem_of_cons, ?elem_of_nil in Hc; naive_solver).
  all: exfalso; unfold Cancel_body, Await_body in Hc; destruct v;
    rewrite ?elem_of_cons, ?elem_of_nil in Hc; naive_solver.
Qed.

Lemma once_ok_init v : once_ok (init v).
Proof.
  unfold once_ok, pending. simpl.
  assert (∀ t, ¬ ∃ m pc, (∅ : gmap nat Activation) !! t = Some (m, pc)
                         ∧ CallFunc ∈ pc) as Hnone.
  { intros t (? & ? & Hx & _). by rewrite lookup_empty in Hx. }
  split; [lia|]. split; [done|]. split; [done|].
  intros t t' Ht. by destruct (Hnone t).
Qed.

Lemma once_ok_mono s s' :
  runs s' = runs s →
  (ticket s' = Queued → ticket s = Queued) →
  (∀ t, pending s' t → pending s t) →
  once_ok s → once_ok s'.
Proof.
  intros Hr Hk Hp (Hle & Hq & Hone & Huniq). unfold once_ok.
  rewrite Hr. repeat split; try done.
  - by apply Hq, Hk.
  - intros t Ht%Hp. revert Ht. by apply Hq, Hk.
  - intros H1 t Ht%Hp. revert Ht. by apply Hone.
  - intros t t' Ht%Hp Ht'%Hp. by apply Huniq.
Qed.

Lemma step_once_ok s a s' :
  shape_ok s → once_ok s → step s a s' → once_ok s'.
Proof.
  intros Hok Honce Hs.
  pose proof (λ Ha t1, step_pending s a s' t1 Hok Hs Ha) as Hmono.
  destruct Hs;
    try (apply (λ Hr Hk Hp, once_ok_mono _ _ Hr Hk Hp Honce);
         [ reflexivity
         | simpl; try done; by destruct k
         | intros t1; by apply Hmono ];
         fail).
  - (* the host dispatches: one thread is now about to call *)
    clear Hmono. destruct Honce as (Hle & Hq & Hone & Huniq). simpl in *.
    destruct (Hq eq_refl) as [-> Hnp].
    assert (∀ t1, pending
              (mkSys v c 0 Dispatched l
                 (<[t:=(Perform, Perform_body v)]> th) w) t1 → t1 = t) as Hp.
    { intros t1 (m1 & pc1 & Hl & Hc). simpl in Hl.
      apply lookup_insert_Some in Hl as [[? ?]|[? Hl]]; [done|].
      destruct (Hnp t1). by exists m1, pc1. }
    repeat split; simpl; try lia; try done.
    intros t1 t2 H1%Hp H2%Hp. congruence.
  - (* the call itself: nobody is about to call any more *)
    destruct Honce as (Hle & Hq & Hone & Huniq). simpl in *.
    assert (pending (mkSys v c n k l th w) t) as Hpt.
    { exists m, (CallFunc :: rest). split; [done|by left]. }
    assert (n = 0) as ->.
    { destruct n as [|[|n]]; [done| |lia]. by destruct (Hone eq_refl t). }
    assert (∀ t1, ¬ pending (mkSys v c 1 k l (set_pc t m rest th) w) t1)
      as Hnone.
    { intros t1 Hp1. pose proof Hp1 as (m1 & pc1 & Hl & Hc). simpl in Hl.
      apply set_pc_lookup in Hl as [(-> & ? & ?)|[Hne Hl]]; simplify_eq.
      - destruct Hok as [Ht _]. pose proof (Ht _ _ _ H) as Hin.
        destruct (shape_cases _ _ _ _ Hin) as
          [?|[?|[?|[?|[?|[?|[?|?]]]]]]]; destruct_and?; simplify_eq.
        rewrite ?elem_of_cons, ?elem_of_nil in Hc. naive_solver.
      - apply Hne. apply Huniq; [|done]. by exists m1, pc1. }
    split; [simpl; lia|]. split; simpl.
    { intros ->. destruct (proj2 (Hq eq_refl) t Hpt). }
    split; [by intros _|].
    intros t1 t2 H1. by destruct (Hnone t1).
Qed.

(** *** Await and the lock *)

Lemma step_completed_mono s a s' :
  step s a s' → completed s = true → completed s' = true.
Proof. by destruct 1. Qed.

Lemma step_await_ok s a s' :
  shape_ok s → await_ok s → step s a s' → await_ok s'.
Proof.
  intros Hok Haw Hs. pose proof Hok as [Ht _]. unfold await_ok in *.
  destruct Hs; simpl in *; intros t0 Hl; thread_cases; eauto;
    try (match goal with
         | H : _ !! _ = Some (_, (_, _)) |- _ =>
             destruct (woken_is_await _ _ _ _ _ Hok H) as [? ?]
         end; simplify_eq).
  all: match goal with
       | H : _ !! _ = Some (Await, _ :: _) |- _ =>
           apply Ht in H;
           destruct (shape_cases _ _ _ _ H) as
             [?|[?|[?|[?|[?|[?|[?|?]]]]]]]; destruct_and?; by simplify_eq
       end.
Qed.

Lemma await_ok_init v : await_ok (init v).
Proof. intros t H. simpl in H. by rewrite lookup_empty in H. Qed.

Lemma lock_ok_init v : lock_ok (init v).
Proof. intros t m pc H. simpl in H. by rewrite lookup_empty in H. Qed.

Lemma step_lock_ok s a s' :
  shape_ok s → lock_ok s → step s a s' → lock_ok s'.
Proof.
  intros Hok Hlk Hs. pose proof Hok as [Ht _]. unfold lock_ok in *.
  destruct Hs; simpl in *; intros t0 m0 pc0 Hl Hin; thread_cases;
    try done;
    try (match goal with
         | H : _ !! _ = Some (_, (_, _)) |- _ =>
             destruct (woken_is_await _ _ _ _ _ Hok H) as [? ?]
         end; by simplify_eq);
    try (by eapply Hlk).
  all: try (destruct v; by simplify_eq).
  all: try (match goal with
            | H1 : ?th !! ?t0 = Some (?m0, ?pc0),
              H2 : inside_locker ?pc0 = true |- _ =>
                pose proof (Hlk _ _ _ H1 H2); by simplify_eq
            end).
  all: match goal with
       | H : _ !! _ = Some (_, _ :: _) |- _ =>
           apply Ht in H;
           destruct (shape_cases _ _ _ _ H) as
             [?|[?|[?|[?|[?|[?|[?|?]]]]]]]; destruct_and?; by simplify_eq
       end.
Qed.

(** *** Every reachable state *)

Lemma Inv_init v : Inv (init v).
Proof.
  split; [apply shape_ok_init|]. split; [apply once_ok_init|].
  split; [apply await_ok_init|apply lock_ok_init].
Qed.

Lemma exec_Inv s a s' : Inv s → exec s a = Some s' → Inv s'.
Proof.
  intros (Hs & Ho & Ha & Hl) Hx%exec_step.
  split; [by eapply step_shape_ok|]. split; [by eapply step_once_ok|].
  split; [by eapply step_await_ok|by eapply step_lock_ok].
Qed.

Lemma run_Inv acts : ∀ s s', Inv s → run s acts = Some s' → Inv s'.
Proof.
  induction acts as [|a acts IH]; simpl; intros s s' Hi Hr.
  - by simplify_eq.
  - destruct (exec s a) as [s1|] eqn:E; [|done].
    eapply IH; [|done]. by eapply exec_Inv.
Qed.

Lemma reachable_Inv v acts s : run (init v) acts = Some s → Inv s.
Proof. apply run_Inv, Inv_init. Qed.

Lemma exec_completed_mono s a s' :
  exec s a = Some s' → completed s = true → completed s' = true.
Proof. intros Hx%exec_step. by eapply step_completed_mono. Qed.

Lemma run_flag_changes acts : ∀ s s',
  run s acts = Some s' →
  (completed s = true → completed s' = true) ∧
  flag_changes s acts =
    if completed s then 0 else if completed s' then 1 else 0.
Proof.
  induction acts as [|a acts IH]; simpl; intros s s' Hr.
  - simplify_eq. split; [done|]. by destruct (completed s').
  - destruct (exec s a) as [s1|] eqn:E; [|done].
    destruct (IH _ _ Hr) as [Hm ->].
    pose proof (exec_completed_mono _ _ _ E) as Hm1.
    split; [by intros ?%Hm1%Hm|].
    destruct (completed s) eqn:Hc.
    + rewrite Hm1 by done. by rewrite bool_decide_eq_true_2.
    + destruct (completed s1) eqn:Hc1.
      * rewrite Hm by done. by rewrite bool_decide_eq_false_2.
      * by rewrite bool_decide_eq_true_2.
Qed.

Lemma perform_schedule_completes v :
  ∃ s, run (init v) (perform_schedule 0) = Some s ∧
       completed s = true ∧ runs s = 1 ∧ lock s = None ∧
       threads s = ∅.
Proof. eexists. split; [vm_compute; reflexivity|]. vm_compute. done. Qed.

Lemma run_app a1 : ∀ a2 s s1 s2,
  run s a1 = Some s1 → run s1 a2 = Some s2 → run s (a1 ++ a2) = Some s2.
Proof.
  induction a1 as [|a a1 IH]; simpl; intros a2 s s1 s2 H1 H2.
  - by simplify_eq.
  - destruct (exec s a) as [s'|]; [|done]. by eapply IH.
Qed.

(** C2.  Along every schedule from its creation, an operation of either
    class has had its work called at most once, and its completion flag has
    changed value exactly as often as it has left [Pending]: once if the
    operation is [Terminal], never otherwise.  From a [Terminal] state every
    continuation stays [Terminal], changes the flag no more and still has
    called the work at most once.  The terminal state is reached: when the
    host dispatches the operation and [Perform] runs, it ends [Terminal]
    with the work called once.  (The code keeps one flag for both ways of
    ending, [Perform] and [Cancel].) *)
Theorem operation_completes_once_and_runs_work_at_most_once v acts s :
  run (init v) acts = Some s →
  runs s ≤ 1 ∧
  flag_changes (init v) acts
    = match state s with Pending => 0 | Terminal => 1 end ∧
  (∀ more s', run s more = Some s' →
     state s = Terminal →
     state s' = Terminal ∧ flag_changes s more = 0 ∧ runs s' ≤ 1) ∧
  (∃ s1, run (init v) (perform_schedule 0) = Some s1 ∧
         state s1 = Terminal ∧ runs s1 = 1).
Proof.
  intros Hr. pose proof (reachable_Inv _ _ _ Hr) as (_ & (Hle & _) & _).
  split; [done|]. split; [|split].
  - destruct (run_flag_changes _ _ _ Hr) as [_ ->]. unfold state. simpl.
    by destruct (completed s).
  - intros more s' Hm. unfold state.
    destruct (completed s) eqn:Hc; [intros _|done].
    destruct (run_flag_changes _ _ _ Hm) as [Hmono ->].
    rewrite Hc, Hmono by done. split; [done|]. split; [done|].
    pose proof (run_app _ _ _ _ _ Hr Hm) as Hall.
    by pose proof (reachable_Inv _ _ _ Hall) as (_ & (? & _) & _).
  - destruct (perform_schedule_completes v) as (s1 & H1 & Hc & Hn & _).
    exists s1. unfold state. by rewrite Hc.
Qed.

Lemma operation_lifecycle_witness :
  ∃ s,
    run (init MainContext)
      [CallAwait 1; Step 1 0; Step 1 0; HostDispatch 0; Step 0 0; Step 0 0;
       Step 0 0; Step 0 0] = Some s ∧
    runs s ≤ 1 ∧
    flag_changes (init MainContext)
      [CallAwait 1; Step 1 0; Step 1 0; HostDispatch 0; Step 0 0; Step 0 0;
       Step 0 0; Step 0 0]
      = match state s with Pending => 0 | Terminal => 1 end ∧
    (∀ more s', run s more = Some s' →
       state s = Terminal →
       state s' = Terminal ∧ flag_changes s more = 0 ∧ runs s' ≤ 1) ∧
    (∃ s1, run (init MainContext) (perform_schedule 0) = Some s1 ∧
           state s1 = Terminal ∧ runs s1 = 1).
Proof.
  eexists. split; [vm_compute; reflexivity|].
  apply (operation_completes_once_and_runs_work_at_most_once MainContext
           [CallAwait 1; Step 1 0; Step 1 0; HostDispatch 0; Step 0 0;
            Step 0 0; Step 0 0; Step 0 0]).
  vm_compute. reflexivity.
Defined.

(** *** Await *)

Lemma step_waiters_completed s a s' x :
  step s a s' → completed s = true → x ∈ waiters s' → x ∈ waiters s.
Proof.
  destruct 1; simpl; try done; intros _ Hx; by thread_cases.
Qed.

Lemma run_waiters_completed acts : ∀ s s' x,
  run s acts = Some s' → completed s = true →
  x ∈ waiters s' → x ∈ waiters s.
Proof.
  induction acts as [|a acts IH]; simpl; intros s s' x Hr Hc Hx.
  - by simplify_eq.
  - destruct (exec s a) as [s1|] eqn:E; [|done].
    eapply step_waiters_completed; [by apply exec_step|done|].
    eapply IH; [done| |done]. by eapply exec_completed_mono.
Qed.

Lemma Await_on_completed_returns_at_once s t k1 k2 k3 :
  completed s = true → lock s = None → idle t s = true →
  run s [CallAwait t; Step t k1; Step t k2; Step t k3] = Some s.
Proof.
  destruct s as [v c n k l th w]. simpl. intros -> -> Hidle.
  unfold start. rewrite Hidle. simpl.
  apply idle_true in Hidle as [Hth _]. simpl in Hth.
  rewrite lookup_insert_eq. simpl.
  rewrite lookup_insert_eq. simpl.
  rewrite lookup_insert_eq. simpl.
  rewrite bool_decide_eq_true_2 by done.
  do 2 f_equal. rewrite !insert_insert_eq, delete_insert_eq.
  by apply delete_id.
Qed.

(** C3.  At every point of every schedule: a step in which a thread leaves
    [Await] starts, and ends, in a state whose flag is set; and once the
    flag is set, a thread that calls [Await] is never put to wait on the
    condition variable, whatever happens next, and with the lock free its
    three statements run straight through and leave the state as it was. *)
Theorem Await_returns_only_on_a_completed_operation v acts s :
  run (init v) acts = Some s →
  (∀ t k s', exec s (Step t k) = Some s' → returns Await t s s' →
             state s = Terminal ∧ state s' = Terminal) ∧
  (state s = Terminal →
   ∀ t, idle t s = true →
     (∀ more s', run s (CallAwait t :: more) = Some s' →
                 t ∉ (waiters s').*1) ∧
     (lock s = None →
      ∀ k1 k2 k3,
        run s [CallAwait t; Step t k1; Step t k2; Step t k3] = Some s)).
Proof.
  intros Hr. pose proof (reachable_Inv _ _ _ Hr) as (Hok & _ & Haw & _).
  unfold state. split.
  - intros t k s' Hx ([pc Hpc] & Hgone & Hnw).
    assert (completed s = true) as Hc.
    { pose proof Hok as [Ht _]. apply exec_step in Hx.
      inversion Hx; subst; simpl in *; simplify_eq;
        try (match goal with
             | H : set_pc _ _ ?rest _ !! _ = None |- _ =>
                 destruct rest; simpl in H;
                 [|by rewrite lookup_insert_eq in H]
             end);
        try (match goal with
             | H : _ !! _ = Some (Await, [_]) |- _ =>
                 pose proof (Ht _ _ _ H) as Hin;
                 destruct (shape_cases _ _ _ _ Hin) as
                   [?|[?|[?|[?|[?|[?|[?|?]]]]]]]; destruct_and?;
                 simplify_eq
             end); try done.
      - by eapply Haw.
      - destruct Hnw. rewrite fmap_app. apply elem_of_app. right.
        simpl. by left. }
    rewrite Hc. by rewrite (exec_completed_mono _ _ _ Hx Hc).
  - destruct (completed s) eqn:Hc; [intros _|done].
    intros t Hidle. split.
    + intros more s' Hm Hin.
      apply list_elem_of_fmap in Hin as ([t' a] & -> & Hin).
      pose proof (run_waiters_completed _ _ _ _ Hm Hc Hin) as Hin0.
      apply idle_true in Hidle as [_ Hnw]. apply Hnw.
      apply list_elem_of_fmap. by exists (t', a).
    + intros Hl k1 k2 k3. by apply Await_on_completed_returns_at_once.
Qed.

Lemma Await_witness :
  ∃ s,
    run (init ThreadPool) (perform_schedule 0) = Some s ∧
    (∀ t k s', exec s (Step t k) = Some s' → returns Await t s s' →
               state s = Terminal ∧ state s' = Terminal) ∧
    (state s = Terminal →
     ∀ t, idle t s = true →
       (∀ more s', run s (CallAwait t :: more) = Some s' →
                   t ∉ (waiters s').*1) ∧
       (lock s = None →
        ∀ k1 k2 k3,
          run s [CallAwait t; Step t k1; Step t k2; Step t k3] = Some s)).
Proof.
  eexists. split; [vm_compute; reflexivity|].
  apply (Await_returns_only_on_a_completed_operation ThreadPool
           (perform_schedule 0)).
  vm_compute. reflexivity.
Defined.

(** *** Perform *)

Lemma cond_signal_wakes_one k s :
  length (waiters (cond_signal k s)) = pred (length (waiters s)) ∧
  completed (cond_signal k s) = completed s ∧
  runs (cond_signal k s) = runs s ∧
  lock (cond_signal k s) = lock s ∧
  ticket (cond_signal k s) = ticket s ∧
  variant (cond_signal k s) = variant s.
Proof.
  destruct (decide (waiters s = [])) as [Ew|Ew].
  - assert (cond_signal k s = s) as ->
      by (unfold cond_signal; by rewrite Ew).
    by rewrite Ew.
  - destruct (signal_lookup k (waiters s) Ew) as [[tw [mw pcw]] Hk].
    rewrite (cond_signal_wake _ _ _ Hk), (wake_lookup _ _ _ _ _ Hk).
    simpl. rewrite length_delete by eauto. by rewrite Nat.sub_1_r.
Qed.

(** C4, as the code has it.  A thread at the start of [Perform], with the
    lock free, calls the work once, takes the platform lock, sets the flag
    and signals the condition variable while holding it, and lets the lock
    go as it returns.  The signal is [g_cond_signal]: it wakes one waiting
    thread when there is one, not all of them. *)
Theorem Perform_calls_func_then_completes_and_signals_one s t k1 k2 k3 k4 k5 :
  threads s !! t = Some (Perform, Perform_body (variant s)) →
  lock s = None →
  ∃ s1 s2 s3 s4 s5,
    exec s (Step t k1) = Some s1 ∧
      runs s1 = S (runs s) ∧ completed s1 = completed s ∧ lock s1 = None ∧
    exec s1 (Step t k2) = Some s2 ∧
      lock s2 = Some t ∧ completed s2 = completed s ∧
    exec s2 (Step t k3) = Some s3 ∧
      lock s3 = Some t ∧ completed s3 = true ∧ waiters s3 = waiters s ∧
    exec s3 (Step t k4) = Some s4 ∧
      lock s4 = Some t ∧
      length (waiters s4) = pred (length (waiters s)) ∧
    exec s4 (Step t k5) = Some s5 ∧
      lock s5 = None ∧ completed s5 = true ∧ runs s5 = S (runs s) ∧
      threads s5 !! t = None ∧ waiters s5 = waiters s4.
Proof.
  destruct s as [v c n k l th w]. simpl. intros Hth ->.
  pose (s3 := mkSys v true (S n) k (Some t)
                (<[t:=(Perform, [CondSignal; LockerLeave])]>
                   (<[t:=(Perform, [SetCompleted; CondSignal; LockerLeave])]>
                      (<[t:=(Perform,
                             [LockerEnter; SetCompleted; CondSignal;
                              LockerLeave])]> th))) w).
  destruct (cond_signal_wakes_one k4 s3) as (Hlen & Hc & Hn & Hl & _).
  destruct (cond_signal k4 s3) as [v' c' n' k' l' th' w'] eqn:Es.
  subst s3. simpl in *. subst.
  eexists _, _, _, _, _.
  split. { rewrite Hth. reflexivity. } simpl.
  split; [done|]. split; [done|]. split; [done|].
  rewrite lookup_insert_eq. simpl.
  split; [reflexivity|]. simpl. split; [done|]. split; [done|].
  rewrite lookup_insert_eq. simpl.
  split; [reflexivity|]. simpl. split; [done|]. split; [done|].
  split; [done|].
  rewrite lookup_insert_eq. unfold exec_stmt. rewrite Es.
  split; [reflexivity|]. simpl. split; [done|]. split; [done|].
  rewrite lookup_insert_eq. simpl.
  rewrite bool_decide_eq_true_2 by done.
  split; [reflexivity|]. simpl.
  split; [done|]. split; [done|]. split; [done|].
  split; [by rewrite lookup_delete_eq|done].
Qed.

Lemma Perform_witness :
  threads (mkSys MainContext false 0 Dispatched None
             {[0 := (Perform, Perform_body MainContext)]} [])
    !! 0 = Some (Perform, Perform_body MainContext) ∧
  lock (mkSys MainContext false 0 Dispatched None
          {[0 := (Perform, Perform_body MainContext)]} []) = None ∧
  ∃ s1 s2 s3 s4 s5,
    exec (mkSys MainContext false 0 Dispatched None
            {[0 := (Perform, Perform_body MainContext)]} [])
         (Step 0 0) = Some s1 ∧
      runs s1 = 1 ∧ completed s1 = false ∧ lock s1 = None ∧
    exec s1 (Step 0 0) = Some s2 ∧
      lock s2 = Some 0 ∧ completed s2 = false ∧
    exec s2 (Step 0 0) = Some s3 ∧
      lock s3 = Some 0 ∧ completed s3 = true ∧ waiters s3 = [] ∧
    exec s3 (Step 0 0) = Some s4 ∧
      lock s4 = Some 0 ∧
      length (waiters s4) = pred 0 ∧
    exec s4 (Step 0 0) = Some s5 ∧
      lock s5 = None ∧ completed s5 = true ∧ runs s5 = 1 ∧
      threads s5 !! 0 = None ∧ waiters s5 = waiters s4.
Proof.
  split; [reflexivity|]. split; [reflexivity|].
  apply (Perform_calls_func_then_completes_and_signals_one
           (mkSys MainContext false 0 Dispatched None
              {[0 := (Perform, Perform_body MainContext)]} [])
           0 0 0 0 0 0); reflexivity.
Defined.

(** C4, as the claim words it, fails: with two threads waiting in [Await],
    [Perform] runs to its end, the flag is set, and one of the two is still
    waiting; a broadcast at that point would have woken both. *)
Lemma Perform_signal_leaves_a_waiter_blocked :
  ∃ s s',
    run (init MainContext)
      [CallAwait 1; Step 1 0; Step 1 0; CallAwait 2; Step 2 0; Step 2 0;
       HostDispatch 0; Step 0 0; Step 0 0; Step 0 0] = Some s ∧
    (waiters s).*1 = [1; 2] ∧
    threads s !! 0 = Some (Perform, [CondSignal; LockerLeave]) ∧
    run s [Step 0 0; Step 0 0] = Some s' ∧
    completed s' = true ∧
    threads s' !! 0 = None ∧
    (waiters s').*1 = [2] ∧
    waiters (cond_broadcast s) = [].
Proof.
  eexists _, _. split; [vm_compute; reflexivity|].
  split; [reflexivity|]. split; [reflexivity|].
  split; [vm_compute; reflexivity|].
  split; [reflexivity|]. split; [reflexivity|].
  split; reflexivity.
Qed.

(** *** Cancel on the pool *)

Lemma step_variant s a s' : step s a s' → variant s' = variant s.
Proof. by destruct 1. Qed.

Lemma ThreadPool_Cancel_exec s t s' :
  variant s = ThreadPool → exec s (CallCancel t) = Some s' → s' = s.
Proof.
  destruct s as [v c n k l th w]. simpl. intros ->.
  intros (Hth & _ & ->)%start_step. simpl in *.
  by rewrite delete_id.
Qed.

Lemma ThreadPool_run_without_cancel acts : ∀ s s',
  variant s = ThreadPool → run s acts = Some s' →
  run s (without_cancel acts) = Some s'.
Proof.
  induction acts as [|a acts IH]; simpl; intros s s' Hv Hr; [done|].
  destruct (exec s a) as [s1|] eqn:E; [|done].
  destruct (is_cancel a) eqn:Ec.
  - destruct a; try done.
    rewrite (ThreadPool_Cancel_exec _ _ _ Hv E) in Hr. by apply IH.
  - simpl. rewrite E. apply IH; [|done].
    by rewrite (step_variant _ _ _ (exec_step _ _ _ E)).
Qed.

(** C5.  On a pool operation a call to [Cancel] by a thread that is free to
    call goes through and leaves the whole state as it was: flag, run count,
    the pushed job, the lock, the threads and the waiters.  So every
    schedule ends in the same state when its calls to [Cancel] are taken
    out: the work runs, or not, regardless of them. *)
Theorem ThreadPool_Cancel_is_a_no_op s t :
  variant s = ThreadPool →
  (idle t s = true → exec s (CallCancel t) = Some s) ∧
  (∀ s', exec s (CallCancel t) = Some s' → s' = s) ∧
  (∀ acts s', run s acts = Some s' →
              run s (without_cancel acts) = Some s').
Proof.
  intros Hv. split; [|split].
  - intros Hidle. simpl. unfold start. rewrite Hidle, Hv. simpl.
    apply idle_true in Hidle as [Hth _].
    rewrite delete_id by done. by rewrite set_threads_id.
  - intros s'. by apply ThreadPool_Cancel_exec.
  - intros acts s'. by apply ThreadPool_run_without_cancel.
Qed.

Lemma ThreadPool_Cancel_witness :
  variant (init ThreadPool) = ThreadPool ∧
  (idle 7 (init ThreadPool) = true →
   exec (init ThreadPool) (CallCancel 7) = Some (init ThreadPool)) ∧
  (∀ s', exec (init ThreadPool) (CallCancel 7) = Some s' →
         s' = init ThreadPool) ∧
  (∀ acts s', run (init ThreadPool) acts = Some s' →
              run (init ThreadPool) (without_cancel acts) = Some s').
Proof.
  split; [reflexivity|].
  apply (ThreadPool_Cancel_is_a_no_op (init ThreadPool) 7). reflexivity.
Defined.

(** Cancelled or not, a pool operation that is dispatched runs its work. *)
Example ThreadPool_Cancel_then_work_runs :
  ∃ s, run (init ThreadPool)
         (CallCancel 7 :: HostDispatch 0 :: CallCancel 8 :: Step 0 0
          :: CallCancel 7 :: [Step 0 0; Step 0 0; Step 0 0; Step 0 0])
       = Some s ∧ runs s = 1 ∧ completed s = true.
Proof. eexists. split; [vm_compute; reflexivity|]. by vm_compute. Qed.

(** On the main context a cancel that gets in first keeps the work from
    running: the host finds the source destroyed. *)
Example MainContext_Cancel_first_prevents_work :
  ∃ s, run (init MainContext)
         [CallCancel 7; Step 7 0; Step 7 0; Step 7 0; Step 7 0; Step 7 0]
       = Some s ∧
       runs s = 0 ∧ completed s = true ∧ ticket s = Destroyed ∧
       exec s (HostDispatch 0) = None.
Proof. eexists. split; [vm_compute; reflexivity|]. by vm_compute. Qed.

(** *** The completion flag is written under the lock *)

Lemma completion_flag_written_under_lock v acts s a s' :
  run (init v) acts = Some s →
  exec s a = Some s' →
  completed s ≠ completed s' →
  ∃ t k, a = Step t k ∧ lock s = Some t.
Proof.
  intros Hr Hx Hne. pose proof (reachable_Inv _ _ _ Hr) as (_ & _ & _ & Hl).
  apply exec_step in Hx. destruct Hx; simpl in *; try done.
  exists t, x. split; [done|]. by eapply Hl.
Qed.

End OperationLifecycleFacts.

(* ===================================================================== *)
(** ** Facts about the memory backend                                    *)
(* ===================================================================== *)

Module MemoryBackendFacts.
Import MemoryBackend.

Local Open Scope Z_scope.

Section Pairing.

Context {Host : Type}.
Variable gum_memory_allocate :
  Z → GumPageProtection → Z → Host → Z * Host.
Variable gum_memory_release : Z → Z → Host → bool * Host.

Lemma Allocate_returns_host_base address size is_executable
    (w : World Host) :
  fst (Allocate gum_memory_allocate address size is_executable w) =
  fst (gum_memory_allocate size
         (if is_executable then GUM_PAGE_RWX else GUM_PAGE_RW)
         address (host w)).
Proof.
  unfold Allocate. destruct (gum_memory_allocate _ _ _ _) as [base h].
  simpl. by destruct (base =? 0).
Qed.

Lemma remove_after_add r (registry : list GumMemoryRange) :
  gum_cloak_remove_range r (gum_cloak_add_range r registry) = registry.
Proof. unfold gum_cloak_add_range. simpl. by rewrite decide_True. Qed.

(** C6, as the code has it.  [Allocate] hands back the host's base; when
    it is not null the range [base, size] is in the cloak registry once
    [Allocate] returns, and the host call and the registration are its only
    effects, in that order; on a null base nothing is registered.  A [Free]
    or [Release] that succeeds has released the memory first and then
    taken the same range out of the registry; one that fails leaves the
    registry alone. *)
Theorem Allocate_cloaks_Free_uncloaks (address size : Z)
    (is_executable : bool) (w : World Host) :
  (let prot := if is_executable then GUM_PAGE_RWX else GUM_PAGE_RW in
   let base := fst (gum_memory_allocate size prot address (host w)) in
   let w' := snd (Allocate gum_memory_allocate address size is_executable w) in
   fst (Allocate gum_memory_allocate address size is_executable w) = base ∧
   if base =? 0
   then cloak w' = cloak w ∧
        effects w' = effects w ++ [MemoryAllocate size prot address base]
   else cloak w' = mkRange base size :: cloak w ∧
        effects w' = effects w ++ [MemoryAllocate size prot address base;
                                   CloakAddRange (mkRange base size)]) ∧
  (let success := fst (gum_memory_release address size (host w)) in
   let w' := snd (Free gum_memory_release address size w) in
   fst (Free gum_memory_release address size w) = success ∧
   snd (Release gum_memory_release address size w) = w' ∧
   fst (Release gum_memory_release address size w) = success ∧
   if success
   then cloak w' = gum_cloak_remove_range (mkRange address size) (cloak w) ∧
        effects w' = effects w ++ [MemoryRelease address size true;
                                   CloakRemoveRange (mkRange address size)]
   else cloak w' = cloak w ∧
        effects w' = effects w ++ [MemoryRelease address size false]).
Proof.
  split.
  - cbv zeta. unfold Allocate.
    destruct (gum_memory_allocate _ _ _ _) as [base h]. simpl.
    destruct (base =? 0) eqn:E; simpl; split; try done.
    split; [done|]. by rewrite <- app_assoc.
  - cbv zeta. unfold Release, Free.
    destruct (gum_memory_release _ _ _) as [success h]. simpl.
    destruct success; simpl; repeat split; try done.
    by rewrite <- app_assoc.
Qed.

(** C10.  [Release] is [Free]: same result, same world afterwards (host
    memory, cloak registry and the calls made), whatever the address and
    the size. *)
Theorem Release_is_Free (address size : Z) (w : World Host) :
  Release gum_memory_release address size w =
  Free gum_memory_release address size w.
Proof. reflexivity. Qed.

End Pairing.

(** C6, as the claim words it, fails: in a [Free] that succeeds the memory
    is released before the range leaves the registry.  Here one page range
    is allocated at 4096 and freed again. *)
Lemma Free_releases_before_it_uncloaks :
  fst (Free pages_release 4096 4096
         (snd (Allocate pages_allocate 0 4096 true fresh_world))) = true ∧
  position (MemoryRelease 4096 4096 true)
    (effects (snd (Free pages_release 4096 4096
       (snd (Allocate pages_allocate 0 4096 true fresh_world))))) = Some 2%nat ∧
  position (CloakRemoveRange (mkRange 4096 4096))
    (effects (snd (Free pages_release 4096 4096
       (snd (Allocate pages_allocate 0 4096 true fresh_world))))) = Some 3%nat.
Proof. vm_compute. done. Qed.

(** Allocating and freeing on the page host leaves the registry empty. *)
Example allocate_then_free_leaves_no_range :
  cloak (snd (Free pages_release 4096 4096
           (snd (Allocate pages_allocate 0 4096 true fresh_world)))) = [].
Proof. vm_compute. done. Qed.

(** A request the host refuses registers nothing. *)
Example failed_allocation_registers_nothing :
  Allocate pages_allocate 0 0 false fresh_world =
  (0, mkWorld (mkPages 4096 []) [] [MemoryAllocate 0 GUM_PAGE_RW 0 0]).
Proof. vm_compute. done. Qed.

End MemoryBackendFacts.

(* ===================================================================== *)
(** ** Facts about the platform coordinator                              *)
(* ===================================================================== *)

Module PlatformFacts.
Import Binary64 Binary64Facts Platform RegistryInterleaving.

Local Open Scope platform_scope.

(** The foreground schedule call, spelled out on a platform whose lock is
    free: the new operation sits at the next address, is in the outstanding
    set, and its source is attached last in the JS context. *)
Lemma ScheduleOnJSThreadDelayed_unfold delay prio f p :
  lock p = false →
  ScheduleOnJSThreadDelayed delay prio f p =
  Some (next_address p,
    mkPlatform false ({[next_address p]} ∪ js_operations p)
      (foreground_runners p) (start_time p)
      (<[next_address p :=
           mkOperation
             (MainContextOperation
                (mkSource (if (delay =? 0)%Z then IdleSource
                           else TimeoutSource delay) prio true))
             f false]> (operations p))
      (runners p) (S (next_address p)) (js_context p ++ [next_address p])
      (thread_pool p) (Mutation OutstandingSet true :: journal p)).
Proof.
  intros Hl. destruct p as [l ops reg t0 heap rs next ctx pool j].
  simpl in Hl. subst l.
  unfold ScheduleOnJSThreadDelayed, bind, make_shared_operation, locker_enter,
    locker_leave, mutate, modify, ret. simpl.
  by rewrite alter_insert_eq.
Qed.

Lemma ScheduleOnThreadPool_unfold f p :
  ScheduleOnThreadPool f p =
  Some (next_address p,
    mkPlatform (lock p) (js_operations p) (foreground_runners p)
      (start_time p)
      (<[next_address p := mkOperation ThreadPoolOperation f false]>
         (operations p))
      (runners p) (S (next_address p)) (js_context p)
      (thread_pool p ++ [next_address p]) (journal p)).
Proof. by destruct p. Qed.

(** The delayed pool schedule call on a platform whose lock is free. *)
Lemma ScheduleOnThreadPoolDelayed_unfold delay f p :
  lock p = false →
  ScheduleOnThreadPoolDelayed delay f p =
  Some (None,
    mkPlatform false ({[S (next_address p)]} ∪ js_operations p)
      (foreground_runners p) (start_time p)
      (delete (next_address p)
         (<[S (next_address p) :=
              mkOperation
                (MainContextOperation
                   (mkSource (if (delay =? 0)%Z then IdleSource
                              else TimeoutSource delay) G_PRIORITY_HIGH true))
                (SubmitToThreadPool f) false]>
            (<[next_address p := mkOperation ThreadPoolOperation f false]>
               (operations p))))
      (runners p) (S (S (next_address p)))
      (js_context p ++ [S (next_address p)])
      (thread_pool p) (Mutation OutstandingSet true :: journal p)).
Proof.
  intros Hl. unfold ScheduleOnThreadPoolDelayed.
  unfold bind at 1. unfold make_shared_operation at 1.
  unfold bind at 1. rewrite ScheduleOnJSThreadDelayed_unfold
    by (by destruct p).
  by destruct p.
Qed.

(** C1 fails on the code.  On a platform whose lock is free, the call hands
    back no handle at all and pushes nothing on the pool; the operation that
    ends up on the pool is made only when the foreground hop runs, at an
    address the caller never sees: it is neither the local [op] nor
    [child_op]. *)
Theorem ScheduleOnThreadPoolDelayed_hands_back_no_handle delay f now p :
  lock p = false →
  ∃ p1 p2,
    ScheduleOnThreadPoolDelayed delay f p = Some (None, p1) ∧
    thread_pool p1 = thread_pool p ∧
    operations p1 !! next_address p = None ∧
    PerformMainContextOperation (S (next_address p)) now p1
      = Some (false, p2) ∧
    thread_pool p2 = thread_pool p ++ [S (S (next_address p))] ∧
    operations p2 !! S (S (next_address p))
      = Some (mkOperation ThreadPoolOperation f false).
Proof.
  intros Hl. rewrite ScheduleOnThreadPoolDelayed_unfold by done.
  eexists. eexists. split; [reflexivity|]. simpl.
  split; [done|]. split; [by rewrite lookup_delete_eq|].
  unfold PerformMainContextOperation, bind, Perform. simpl.
  rewrite lookup_delete_ne by lia. rewrite lookup_insert_eq. simpl.
  unfold bind. simpl. split; [reflexivity|]. simpl. split; [done|].
  rewrite lookup_alter_ne by lia. by rewrite lookup_insert_eq.
Qed.

Lemma ScheduleOnThreadPoolDelayed_on_a_new_platform :
  lock (new_platform 0) = false ∧
  ∃ p1 p2,
    ScheduleOnThreadPoolDelayed 50 (HostFunc 7) (new_platform 0)
      = Some (None, p1) ∧
    thread_pool p1 = thread_pool (new_platform 0) ∧
    operations p1 !! next_address (new_platform 0) = None ∧
    PerformMainContextOperation (S (next_address (new_platform 0))) 1000 p1
      = Some (false, p2) ∧
    thread_pool p2
      = thread_pool (new_platform 0)
        ++ [S (S (next_address (new_platform 0)))] ∧
    operations p2 !! S (S (next_address (new_platform 0)))
      = Some (mkOperation ThreadPoolOperation (HostFunc 7) false).
Proof.
  split; [reflexivity|].
  apply (ScheduleOnThreadPoolDelayed_hands_back_no_handle
           50 (HostFunc 7) 1000 (new_platform 0)).
  reflexivity.
Defined.

(** *** The runner registry *)

Lemma GetForegroundTaskRunner_registered iso r p :
  foreground_runners p !! iso = Some (Some r) →
  GetForegroundTaskRunner iso p = Some (Some r, p).
Proof.
  intros H. unfold GetForegroundTaskRunner, bind, runner_at. by rewrite H.
Qed.

Lemma GetForegroundTaskRunner_creates iso p :
  (foreground_runners p !! iso = None ∨
   foreground_runners p !! iso = Some None) →
  ∃ p',
    GetForegroundTaskRunner iso p = Some (Some (next_address p), p') ∧
    foreground_runners p'
      = <[iso := Some (next_address p)]> (foreground_runners p) ∧
    runners p' = <[next_address p := mkRunner iso]> (runners p) ∧
    next_address p' = S (next_address p) ∧
    lock p' = lock p ∧
    mutations_locked (journal p') = lock p && mutations_locked (journal p).
Proof.
  destruct p as [l ops reg t0 heap rs next ctx pool j]. simpl.
  intros [H|H]; unfold GetForegroundTaskRunner, bind, runner_at; simpl;
    rewrite H; simpl; eexists; (split; [reflexivity|]); simpl.
  - rewrite insert_insert_eq. repeat split; try done.
    by destruct l.
  - done.
Qed.

Lemma runners_wf_new_platform start : runners_wf (new_platform start).
Proof. split; intros *; simpl; by rewrite lookup_empty. Qed.

Lemma GetForegroundTaskRunner_keeps_wf iso r p p' :
  runners_wf p →
  GetForegroundTaskRunner iso p = Some (r, p') →
  runners_wf p'.
Proof.
  intros [Hreg Hlive] Hcall.
  destruct (foreground_runners p !! iso) as [[r0|]|] eqn:E.
  - rewrite (GetForegroundTaskRunner_registered _ _ _ E) in Hcall.
    by simplify_eq.
  - destruct (GetForegroundTaskRunner_creates iso p) as (q & Hq & Hr & Ho & Hn & _);
      [by right|]. rewrite Hq in Hcall. simplify_eq.
    split.
    + intros i r1. rewrite Hr, Ho. intros Hi.
      destruct (decide (i = iso)) as [->|Hne].
      * rewrite lookup_insert_eq in Hi. simplify_eq.
        by rewrite lookup_insert_eq.
      * rewrite lookup_insert_ne in Hi by done.
        pose proof (Hreg _ _ Hi) as Hl. pose proof (Hlive _ _ Hl).
        rewrite lookup_insert_ne by lia. done.
    + intros r1 x. rewrite Ho, Hn. intros Hx.
      destruct (decide (r1 = next_address p)) as [->|Hne]; [lia|].
      rewrite lookup_insert_ne in Hx by done.
      pose proof (Hlive _ _ Hx). lia.
  - destruct (GetForegroundTaskRunner_creates iso p) as (q & Hq & Hr & Ho & Hn & _);
      [by left|]. rewrite Hq in Hcall. simplify_eq.
    split.
    + intros i r1. rewrite Hr, Ho. intros Hi.
      destruct (decide (i = iso)) as [->|Hne].
      * rewrite lookup_insert_eq in Hi. simplify_eq.
        by rewrite lookup_insert_eq.
      * rewrite lookup_insert_ne in Hi by done.
        pose proof (Hreg _ _ Hi) as Hl. pose proof (Hlive _ _ Hl).
        rewrite lookup_insert_ne by lia. done.
    + intros r1 x. rewrite Ho, Hn. intros Hx.
      destruct (decide (r1 = next_address p)) as [->|Hne]; [lia|].
      rewrite lookup_insert_ne in Hx by done.
      pose proof (Hlive _ _ Hx). lia.
Qed.

(** The call always hands back a runner, registered under the isolate. *)
Lemma GetForegroundTaskRunner_total iso p :
  ∃ r p', GetForegroundTaskRunner iso p = Some (Some r, p') ∧
          foreground_runners p' !! iso = Some (Some r) ∧
          (∀ j, j ≠ iso →
                foreground_runners p' !! j = foreground_runners p !! j).
Proof.
  destruct (foreground_runners p !! iso) as [[r0|]|] eqn:E.
  - exists r0, p. by rewrite (GetForegroundTaskRunner_registered _ _ _ E).
  - destruct (GetForegroundTaskRunner_creates iso p) as (q & Hq & Hr & _);
      [by right|].
    exists (next_address p), q. rewrite Hr. split; [done|].
    split; [by rewrite lookup_insert_eq|].
    intros j Hj. by rewrite lookup_insert_ne.
  - destruct (GetForegroundTaskRunner_creates iso p) as (q & Hq & Hr & _);
      [by left|].
    exists (next_address p), q. rewrite Hr. split; [done|].
    split; [by rewrite lookup_insert_eq|].
    intros j Hj. by rewrite lookup_insert_ne.
Qed.

(** Two isolates registered in a well-formed platform have two runners. *)
Lemma registered_runners_differ p i j ri rj :
  runners_wf p → i ≠ j →
  foreground_runners p !! i = Some (Some ri) →
  foreground_runners p !! j = Some (Some rj) →
  ri ≠ rj.
Proof.
  intros [Hreg _] Hij Hi Hj ->.
  pose proof (Hreg _ _ Hi) as H1. pose proof (Hreg _ _ Hj) as H2.
  rewrite H1 in H2. by simplify_eq.
Qed.

(** Calls made one after the other memoize.  On a well-formed platform,
    asking for the runner of an isolate yields a runner; asking again
    yields the same one and changes nothing; asking for another isolate
    yields another runner and does not disturb the first; the registry then
    holds exactly these runners for the two isolates and is still well
    formed. *)
Lemma GetForegroundTaskRunner_memoizes_in_sequence p i j :
  runners_wf p → i ≠ j →
  ∃ ri rj p1 p2,
    GetForegroundTaskRunner i p = Some (Some ri, p1) ∧
    GetForegroundTaskRunner i p1 = Some (Some ri, p1) ∧
    GetForegroundTaskRunner j p1 = Some (Some rj, p2) ∧
    GetForegroundTaskRunner j p2 = Some (Some rj, p2) ∧
    GetForegroundTaskRunner i p2 = Some (Some ri, p2) ∧
    ri ≠ rj ∧
    foreground_runners p2 !! i = Some (Some ri) ∧
    foreground_runners p2 !! j = Some (Some rj) ∧
    runners p2 !! ri = Some (mkRunner i) ∧
    runners p2 !! rj = Some (mkRunner j) ∧
    runners_wf p2.
Proof.
  intros Hwf Hij.
  destruct (GetForegroundTaskRunner_total i p) as (ri & p1 & H1 & Hi1 & _).
  destruct (GetForegroundTaskRunner_total j p1) as (rj & p2 & H2 & Hj2 & Ho2).
  pose proof (GetForegroundTaskRunner_keeps_wf _ _ _ _ Hwf H1) as Hwf1.
  pose proof (GetForegroundTaskRunner_keeps_wf _ _ _ _ Hwf1 H2) as Hwf2.
  assert (foreground_runners p2 !! i = Some (Some ri)) as Hi2
    by (by rewrite Ho2).
  exists ri, rj, p1, p2. repeat split; try done.
  - by apply GetForegroundTaskRunner_registered.
  - by apply GetForegroundTaskRunner_registered.
  - by apply GetForegroundTaskRunner_registered.
  - by apply (registered_runners_differ p2 i j).
  - by apply Hwf2.
  - by apply Hwf2.
  - by apply Hwf2.
  - by apply Hwf2.
Qed.

(** The call is its first statement followed by the rest of its body. *)
Lemma GetForegroundTaskRunner_in_two_statements iso :
  GetForegroundTaskRunner iso
  = (let* runner := GetForegroundTaskRunner_lookup iso in
     GetForegroundTaskRunner_rest iso runner).
Proof. reflexivity. Qed.

(** C8 fails on the code.  The call takes no lock between looking the
    isolate up and storing the runner it makes.  When a second caller looks
    an isolate up before the first caller of that isolate has stored its
    runner, each caller makes a runner of its own: the two calls return
    different runners, both runner objects are alive for the one isolate,
    the registry keeps the second, and every later call returns the second,
    not the one the first caller holds. *)
Theorem GetForegroundTaskRunner_overlapping_first_calls_make_two_runners
    iso p :
  (foreground_runners p !! iso = None ∨
   foreground_runners p !! iso = Some None) →
  ∃ a b p',
    overlapping_calls iso p = Some ((Some a, Some b), p') ∧
    a ≠ b ∧
    runners p' !! a = Some (mkRunner iso) ∧
    runners p' !! b = Some (mkRunner iso) ∧
    foreground_runners p' !! iso = Some (Some b) ∧
    GetForegroundTaskRunner iso p' = Some (Some b, p') ∧
    GetForegroundTaskRunner iso
    = (let* runner := GetForegroundTaskRunner_lookup iso in
       GetForegroundTaskRunner_rest iso runner).
Proof.
  destruct p as [l ops reg t0 heap rs next ctx pool j]. simpl.
  intros Hno.
  exists next, (S next).
  unfold overlapping_calls, GetForegroundTaskRunner_lookup, runner_at.
  unfold bind at 1. simpl.
  destruct Hno as [Hno|Hno]; rewrite Hno; simpl;
    unfold bind at 1; unfold runner_at; simpl;
    rewrite ?lookup_insert_eq, ?Hno; simpl;
    (eexists; split; [reflexivity|]); simpl;
    (split; [lia|]);
    (split; [by rewrite lookup_insert_ne, lookup_insert_eq by lia|]);
    (split; [by rewrite lookup_insert_eq|]);
    (split; [by rewrite lookup_insert_eq|]);
    (split; [|reflexivity]);
    unfold GetForegroundTaskRunner, bind, runner_at; simpl;
    by rewrite lookup_insert_eq.
Qed.

Lemma GetForegroundTaskRunner_overlapping_on_a_new_platform :
  (foreground_runners (new_platform 0) !! 11 = None ∨
   foreground_runners (new_platform 0) !! 11 = Some None) ∧
  ∃ a b p',
    overlapping_calls 11 (new_platform 0) = Some ((Some a, Some b), p') ∧
    a ≠ b ∧
    runners p' !! a = Some (mkRunner 11) ∧
    runners p' !! b = Some (mkRunner 11) ∧
    foreground_runners p' !! 11 = Some (Some b) ∧
    GetForegroundTaskRunner 11 p' = Some (Some b, p') ∧
    GetForegroundTaskRunner 11
    = (let* runner := GetForegroundTaskRunner_lookup 11 in
       GetForegroundTaskRunner_rest 11 runner).
Proof.
  split; [by left|].
  apply (GetForegroundTaskRunner_overlapping_first_calls_make_two_runners
           11 (new_platform 0)).
  by left.
Defined.

(** *** Which writes hold the platform lock *)

Lemma ScheduleOnJSThreadDelayed_mutates_locked delay prio f p :
  lock p = false →
  ∃ op p', ScheduleOnJSThreadDelayed delay prio f p = Some (op, p') ∧
           op ∈ js_operations p' ∧
           journal p' = Mutation OutstandingSet true :: journal p.
Proof.
  intros Hl. rewrite ScheduleOnJSThreadDelayed_unfold by done.
  eexists _, _. split; [reflexivity|]. simpl. split; [set_solver|done].
Qed.

Lemma ReleaseMainContextOperation_mutates_locked op p :
  lock p = false →
  ∃ p', ReleaseMainContextOperation op p = Some (tt, p') ∧
        (op ∉ js_operations p') ∧
        journal p' = Mutation OutstandingSet true :: journal p.
Proof.
  destruct p as [l ops reg t0 heap rs next ctx pool j]. simpl.
  intros ->. unfold ReleaseMainContextOperation, bind, locker_enter.
  simpl. eexists. split; [reflexivity|]. simpl.
  split; [|done]. intros [_ Hn]%elem_of_difference.
  apply Hn. by apply elem_of_singleton.
Qed.

(** C7 fails on the code.  On a platform whose lock is free and whose
    journal has only locked writes, [GetForegroundTaskRunner] for an isolate
    that has no runner yet puts one in the registry and never takes the
    lock: the journal then holds an unlocked write to the registry. *)
Theorem GetForegroundTaskRunner_writes_registry_unlocked iso p :
  lock p = false →
  foreground_runners p !! iso = None →
  mutations_locked (journal p) = true →
  ∃ r p',
    GetForegroundTaskRunner iso p = Some (Some r, p') ∧
    foreground_runners p' !! iso = Some (Some r) ∧
    lock p' = false ∧
    In (Mutation RunnerRegistry false) (journal p') ∧
    mutations_locked (journal p') = false.
Proof.
  destruct p as [l ops reg t0 heap rs next ctx pool j]. simpl.
  intros -> Hnone Hj.
  unfold GetForegroundTaskRunner, bind, runner_at. simpl.
  rewrite Hnone. simpl.
  eexists _, _. split; [reflexivity|]. simpl.
  split; [by rewrite lookup_insert_eq|]. split; [done|].
  split; [by left|done].
Qed.

Lemma GetForegroundTaskRunner_unlocked_on_a_new_platform :
  lock (new_platform 0) = false ∧
  foreground_runners (new_platform 0) !! 11 = None ∧
  mutations_locked (journal (new_platform 0)) = true ∧
  ∃ r p',
    GetForegroundTaskRunner 11 (new_platform 0) = Some (Some r, p') ∧
    foreground_runners p' !! 11 = Some (Some r) ∧
    lock p' = false ∧
    In (Mutation RunnerRegistry false) (journal p') ∧
    mutations_locked (journal p') = false.
Proof.
  split; [reflexivity|]. split; [reflexivity|]. split; [reflexivity|].
  apply (GetForegroundTaskRunner_writes_registry_unlocked 11 (new_platform 0));
    reflexivity.
Defined.

(** *** Idle tasks *)


#[local] Arguments double_add : simpl never.
#[local] Arguments double_div : simpl never.
#[local] Arguments double_of_Z : simpl never.
#[local] Arguments MonotonicallyIncreasingTime : simpl never.








(** The clock 2.0019 s after the start reads the double nearest 2.001, and
    the deadline is the double [4543381424078935 * 2 ^ -51]; the clock
    1000 microseconds after the start reads the double nearest 0.001,
    which is above 1/1000. *)
Example idle_deadline_value :
  MonotonicallyIncreasingTime (new_platform 5000000) 7001900
  = S754_finite false 4505851427184181 (-51) ∧
  double_add (MonotonicallyIncreasingTime (new_platform 5000000) 7001900)
    (double_div (double_of_Z 1) (double_of_Z 60))
  = S754_finite false 4543381424078935 (-51) ∧
  MonotonicallyIncreasingTime (new_platform 5000000) 5001000
  = S754_finite false 4611686018427388 (-62).
Proof. vm_compute. done. Qed.

End PlatformFacts.

(* ===================================================================== *)
(** ** More facts about the operation lifecycle                          *)
(* ===================================================================== *)

Module OperationLifecycleInvariantsFacts.
Import OperationLifecycle OperationLifecycleInvariants.
Import OperationLifecycleFacts.
#[local] Set Warnings "-clear-no-such-hyp".

(** *** A cancelled source is never dispatched *)

Lemma unfired_ok_init v : unfired_ok (init v).
Proof.
  intros _. split; [done|]. intros t (m & pc & H & _). simpl in H.
  by rewrite lookup_empty in H.
Qed.

Lemma step_unfired_ok s a s' :
  shape_ok s → unfired_ok s → step s a s' → unfired_ok s'.
Proof.
  intros Hok Hun Hs.
  pose proof (λ Ha t1, step_pending s a s' t1 Hok Hs Ha) as Hmono.
  destruct Hs; intros Hk; simpl in *; try done.
  all: try (destruct Hun as [Hr Hp]; [by destruct k|];
            split; [done|]; intros t1 H1%Hmono; [by eapply Hp|done]).
  (* the call of func: the caller was about to call *)
  destruct Hun as [_ Hp]; [done|]. destruct (Hp t).
  exists m, (CallFunc :: rest). split; [done|by left].
Qed.

Lemma step_ticket_destroyed s a s' :
  step s a s' → ticket s = Destroyed → ticket s' = Destroyed.
Proof. destruct 1; simpl; try done. by intros ->. Qed.

Lemma run_invariant (P : Sys → Prop) :
  (∀ s a s', P s → exec s a = Some s' → P s') →
  ∀ acts s s', P s → run s acts = Some s' → P s'.
Proof.
  intros Hstep. induction acts as [|a acts IH]; simpl; intros s s' HP Hr.
  - by simplify_eq.
  - destruct (exec s a) as [s1|] eqn:E; [|done]. eauto.
Qed.

Lemma run_cons s a acts :
  run s (a :: acts)
  = match exec s a with Some s' => run s' acts | None => None end.
Proof. reflexivity. Qed.

Lemma exec_cancelled_ok s a s' :
  cancelled_ok s → exec s a = Some s' → cancelled_ok s'.
Proof.
  intros (Hi & Hu & Hk) Hx. split; [by eapply exec_Inv|].
  apply exec_step in Hx. destruct Hi as (Hok & _).
  split; [by eapply step_unfired_ok|by eapply step_ticket_destroyed].
Qed.

Lemma reachable_unfired_ok v acts s :
  run (init v) acts = Some s → Inv s ∧ unfired_ok s.
Proof.
  apply (run_invariant (λ s, Inv s ∧ unfired_ok s)).
  - intros s0 a s1 [Hi Hu] Hx. split; [by eapply exec_Inv|].
    destruct Hi as (Hok & _). eapply step_unfired_ok; [done..|].
    by apply exec_step.
  - split; [apply Inv_init|apply unfired_ok_init].
Qed.

(** X1. A main-context operation cancelled while its source is still
    queued never runs its work: after [Cancel] has destroyed the source,
    no schedule dispatches the operation, and [func] has run zero times in
    every state reached afterwards. *)
Theorem Cancel_before_dispatch_keeps_the_work_from_running acts s t k :
  run (init MainContext) acts = Some s →
  ticket s = Queued →
  idle t s = true →
  ∃ s1,
    run s [CallCancel t; Step t k] = Some s1 ∧
    ticket s1 = Destroyed ∧
    ∀ more s', run s1 more = Some s' →
      runs s' = 0 ∧ ticket s' = Destroyed ∧
      ∀ t', exec s' (HostDispatch t') = None.
Proof.
  intros Hr Hq Hidle.
  destruct (reachable_unfired_ok _ _ _ Hr) as [Hi Hu].
  assert (variant s = MainContext) as Hv.
  { clear -Hr. revert Hr.
    apply (run_invariant (λ s, variant s = MainContext)); [|done].
    intros s0 a s1 <- Hx%exec_step. by eapply step_variant. }
  destruct s as [v c n tk l th w]. simpl in Hq, Hv. subst.
  assert (exec (mkSys MainContext c n Queued l th w) (CallCancel t)
          = Some (mkSys MainContext c n Queued l
                    (<[t := (Cancel, Cancel_body MainContext)]> th) w)) as E1.
  { simpl. unfold start. by rewrite Hidle. }
  assert (exec (mkSys MainContext c n Queued l
                  (<[t := (Cancel, Cancel_body MainContext)]> th) w)
               (Step t k)
          = Some (mkSys MainContext c n Destroyed l
                    (<[t:=(Cancel, [LockerEnter; SetCompleted; CondSignal;
                                    LockerLeave])]>
                       (<[t:=(Cancel, Cancel_body MainContext)]> th)) w))
    as E2.
  { simpl. by rewrite lookup_insert_eq. }
  eexists. split.
  { by rewrite run_cons, E1, run_cons, E2. }
  split; [done|].
  intros more s' Hm.
  assert (cancelled_ok s') as (Hi' & Hu' & Hk').
  { revert Hm. apply (run_invariant cancelled_ok);
      [apply exec_cancelled_ok|].
    pose proof (exec_Inv _ _ _ Hi E1) as Hi1.
    split; [by eapply exec_Inv|]. split; [|done].
    destruct Hi1 as (Hok1 & _).
    eapply step_unfired_ok; [exact Hok1| |by apply exec_step].
    eapply (step_unfired_ok (mkSys MainContext c n Queued l th w));
      [by destruct Hi|exact Hu|by apply exec_step]. }
  split; [by apply Hu'; rewrite Hk'|]. split; [done|].
  intros t'. destruct s'. simpl in *. by subst.
Qed.

Lemma Cancel_before_dispatch_witness :
  ∃ s1,
    run (init MainContext) [CallCancel 3; Step 3 0] = Some s1 ∧
    ticket s1 = Destroyed ∧
    ∀ more s', run s1 more = Some s' →
      runs s' = 0 ∧ ticket s' = Destroyed ∧
      ∀ t', exec s' (HostDispatch t') = None.
Proof.
  apply (Cancel_before_dispatch_keeps_the_work_from_running [] _ 3 0);
    reflexivity.
Defined.

(** *** Locker scopes *)

(** X2. In every reachable state at most one running thread is inside
    the scope of a [GumV8PlatformLocker] of [Perform], [Cancel] or
    [Await]; a thread parked in [g_cond_wait] has given the lock up and is
    not counted. *)
Theorem locker_scopes_exclude_each_other v acts s t1 t2 m1 m2 pc1 pc2 :
  run (init v) acts = Some s →
  threads s !! t1 = Some (m1, pc1) → inside_locker pc1 = true →
  threads s !! t2 = Some (m2, pc2) → inside_locker pc2 = true →
  t1 = t2.
Proof.
  intros Hr H1 Hin1 H2 Hin2.
  pose proof (reachable_Inv _ _ _ Hr) as (_ & _ & _ & Hl).
  pose proof (Hl _ _ _ H1 Hin1) as E1. pose proof (Hl _ _ _ H2 Hin2) as E2.
  congruence.
Qed.

Lemma locker_scopes_witness :
  ∃ s,
    run (init MainContext)
      [CallAwait 1; HostDispatch 0; Step 0 0; Step 0 0; Step 0 0] = Some s ∧
    threads s !! 0 = Some (Perform, [CondSignal; LockerLeave]) ∧
    inside_locker [CondSignal; LockerLeave] = true ∧
    0 = 0.
Proof.
  eexists. split; [vm_compute; reflexivity|].
  split; [reflexivity|]. split; [reflexivity|].
  eapply (locker_scopes_exclude_each_other MainContext
            [CallAwait 1; HostDispatch 0; Step 0 0; Step 0 0; Step 0 0]
            _ 0 0 Perform Perform [CondSignal; LockerLeave]
            [CondSignal; LockerLeave]); reflexivity.
Defined.

(** *** The lock is held by a running thread inside a locker, or free *)

Lemma NoDup_delete_fst (w : list (nat * Activation)) k :
  NoDup w.*1 → NoDup (delete k w).*1.
Proof.
  intros H. rewrite list_fmap_delete.
  eapply sublist_NoDup; [done|]. apply sublist_delete.
Qed.

Lemma elem_of_delete_NoDup (l : list nat) k x :
  NoDup l → l !! k = Some x → x ∉ delete k l.
Proof.
  revert k. induction l as [|y l IH]; intros [|k]; simpl; try done.
  - intros Hnd ?; simplify_eq. by apply NoDup_cons in Hnd as [? _].
  - intros [Hy Hnd]%NoDup_cons Hk [->|Hin]%elem_of_cons.
    + apply Hy. by eapply list_elem_of_lookup_2.
    + by eapply IH.
Qed.

Lemma apart_ok_init v : apart_ok (init v).
Proof. split; simpl; [constructor|]. by intros t ?%elem_of_nil. Qed.

Lemma wake_apart (th : gmap nat Activation) (w : list (nat * Activation))
    k tw a b :
  NoDup w.*1 → (∀ t, t ∈ w.*1 → th !! t = None) →
  w !! k = Some (tw, a) →
  NoDup (delete k w).*1 ∧
  ∀ t, t ∈ (delete k w).*1 → <[tw := b]> th !! t = None ∧ th !! t = None
                             ∧ t ≠ tw.
Proof.
  intros Hnd Hap Hk. split; [by apply NoDup_delete_fst|].
  intros t Hin. rewrite list_fmap_delete in Hin.
  assert (t ≠ tw) as Hne.
  { intros ->. revert Hin. apply elem_of_delete_NoDup; [done|].
    by rewrite list_lookup_fmap, Hk. }
  assert (th !! t = None) as Hn.
  { apply Hap. eapply elem_of_delete_list. exact Hin. }
  by rewrite lookup_insert_ne.
Qed.

Lemma set_pc_lookup_ne t m rest (th : gmap nat Activation) t0 :
  t0 ≠ t → set_pc t m rest th !! t0 = th !! t0.
Proof.
  intros Hne. unfold set_pc. destruct rest.
  - by rewrite lookup_delete_ne.
  - by rewrite lookup_insert_ne.
Qed.

Lemma step_apart_ok s a s' : apart_ok s → step s a s' → apart_ok s'.
Proof.
  intros [Hnd Hap] Hs. unfold apart_ok.
  destruct Hs; simpl in *.
  all: try (split; [done|]; intros t0 Hin; pose proof (Hap _ Hin) as Hn;
            first [ rewrite lookup_insert_ne; [done|congruence]
                  | rewrite set_pc_lookup_ne; [done|congruence] ]; fail).
  - (* signal: one waiter becomes runnable *)
    destruct (wake_apart th w _ tw (mw, pcw) (mw, LockerEnter :: pcw)
                Hnd Hap H0) as [Hnd' Hap'].
    split; [done|]. intros t0 Hin. destruct (Hap' _ Hin) as (Hn & Ho & Hne).
    rewrite set_pc_lookup_ne; [done|]. intros ->. by rewrite Ho in H.
  - (* wait: the runnable thread becomes a waiter *)
    rewrite fmap_app. simpl. split.
    + apply NoDup_app. split; [done|]. split; [|apply NoDup_singleton].
      intros t0 Hin ->%list_elem_of_singleton.
      apply Hap in Hin. by rewrite Hin in H.
    + intros t0 [Hin| ->%list_elem_of_singleton]%elem_of_app.
      * rewrite lookup_delete_ne; [by apply Hap|].
        intros ->. apply Hap in Hin. by rewrite Hin in H.
      * by rewrite lookup_delete_eq.
  - destruct (wake_apart th w _ tw (mw, pcw) (mw, LockerEnter :: pcw)
                Hnd Hap H) as [Hnd' Hap'].
    split; [done|]. intros t0 Hin. by destruct (Hap' _ Hin) as (Hn & _).
Qed.

Lemma held_ok_init v : held_ok (init v).
Proof. by intros t. Qed.

Lemma waiter_not_running (th : gmap nat Activation)
    (w : list (nat * Activation)) k tw a :
  (∀ t, t ∈ w.*1 → th !! t = None) → w !! k = Some (tw, a) →
  th !! tw = None.
Proof.
  intros Hap Hk. apply Hap. apply list_elem_of_fmap. exists (tw, a).
  split; [done|]. by eapply list_elem_of_lookup_2.
Qed.

Lemma step_held_ok s a s' :
  shape_ok s → apart_ok s → held_ok s → step s a s' → held_ok s'.
Proof.
  intros Hok [Hnd Hap] Hh Hs. pose proof Hok as [Ht Hw].
  unfold held_ok in *.
  destruct Hs; simpl in *; intros t0 Hl0; try done.
  all: try (destruct (Hh _ Hl0) as (m0 & pc0 & Hlk & Hin)).
  all: try (match goal with
            | H : ?w !! _ = Some (?tw, _) |- _ =>
                pose proof (waiter_not_running _ _ _ _ _ Hap H) as Hnr
            end).
  all: try (match goal with
            | H : _ !! ?t = Some (_, _ :: _) |- _ =>
                destruct (decide (t0 = t)) as [->|Hne];
                [ pose proof (Ht _ _ _ H) as Hsh;
                  destruct (shape_cases _ _ _ _ Hsh) as
                    [?|[?|[?|[?|[?|[?|[?|?]]]]]]]; destruct_and?;
                  simplify_eq; simpl;
                  try (rewrite lookup_insert_eq; by eexists _, _)
                | exists m0, pc0; split; [|done];
                  rewrite set_pc_lookup_ne by done;
                  try (rewrite lookup_insert_ne; [done|congruence]);
                  done ]
            end; fail).
  all: try (exists m0, pc0; split; [|done];
            first [ rewrite lookup_insert_ne; [done|congruence]
                  | rewrite set_pc_lookup_ne; [done|congruence] ]; fail).
  simplify_eq. pose proof (Ht _ _ _ H) as Hsh.
  destruct (shape_cases _ _ _ _ Hsh) as
    [?|[?|[?|[?|[?|[?|[?|?]]]]]]]; destruct_and?; simplify_eq; simpl;
    rewrite lookup_insert_eq; by eexists _, _.
Qed.

Lemma reachable_held_ok v acts s :
  run (init v) acts = Some s → Inv s ∧ apart_ok s ∧ held_ok s.
Proof.
  apply (run_invariant (λ s, Inv s ∧ apart_ok s ∧ held_ok s)).
  - intros s0 a s1 (Hi & Ha & Hh) Hx. split; [by eapply exec_Inv|].
    apply exec_step in Hx. destruct Hi as (Hok & _).
    split; [by eapply step_apart_ok|by eapply step_held_ok].
  - split; [apply Inv_init|]. split; [apply apart_ok_init|apply held_ok_init].
Qed.

(** X3. In every reachable state the platform lock, when held, is
    held by a running thread inside a locker scope, never by a thread
    parked in [g_cond_wait]; when no call is in progress the lock is
    free. *)
Theorem platform_lock_is_held_only_inside_a_locker v acts s :
  run (init v) acts = Some s →
  (∀ t, lock s = Some t →
        (∃ m pc, threads s !! t = Some (m, pc) ∧ inside_locker pc = true) ∧
        t ∉ (waiters s).*1) ∧
  (threads s = ∅ → lock s = None).
Proof.
  intros Hr. destruct (reachable_held_ok _ _ _ Hr) as (_ & [_ Hap] & Hh).
  split.
  - intros t Hl. destruct (Hh _ Hl) as (m & pc & Hth & Hin).
    split; [by exists m, pc|]. intros Hw%Hap. by rewrite Hw in Hth.
  - intros He. destruct (lock s) as [t|] eqn:Hl; [|done].
    destruct (Hh _ Hl) as (m & pc & Hth & _).
    by rewrite He, lookup_empty in Hth.
Qed.

Lemma platform_lock_witness :
  ∃ s,
    run (init ThreadPool)
      [CallAwait 1; Step 1 0; Step 1 0; HostDispatch 0; Step 0 0; Step 0 0]
      = Some s ∧
    (∀ t, lock s = Some t →
          (∃ m pc, threads s !! t = Some (m, pc) ∧ inside_locker pc = true) ∧
          t ∉ (waiters s).*1) ∧
    (threads s = ∅ → lock s = None).
Proof.
  eexists. split; [vm_compute; reflexivity|].
  apply (platform_lock_is_held_only_inside_a_locker ThreadPool
           [CallAwait 1; Step 1 0; Step 1 0; HostDispatch 0; Step 0 0;
            Step 0 0]).
  vm_compute. reflexivity.
Defined.

(** *** Whole calls *)

(** X4. [Await] on an operation that is not completed, with the lock
    free, parks the caller on the condition variable behind the waiters
    already there and leaves the platform lock released. *)
Theorem Await_on_a_pending_operation_waits_with_the_lock_released
    s t k1 k2 :
  completed s = false → lock s = None → idle t s = true →
  run s [CallAwait t; Step t k1; Step t k2]
  = Some (mkSys (variant s) false (runs s) (ticket s) None (threads s)
            (waiters s ++ [(t, (Await, [AwaitLoop; LockerLeave]))])).
Proof.
  destruct s as [v c n k l th w]. simpl. intros -> -> Hidle.
  unfold start. rewrite Hidle. simpl.
  apply idle_true in Hidle as [Hth _]. simpl in Hth.
  rewrite lookup_insert_eq. simpl.
  rewrite lookup_insert_eq. simpl.
  rewrite bool_decide_eq_true_2 by done.
  do 2 f_equal. rewrite !delete_insert_eq. by apply delete_id.
Qed.

(** X5. A waiter woken without a signal while the operation is still
    not completed takes the lock again, tests the flag and goes back to
    wait: [Await] does not return, and the lock is free again. *)
Theorem spurious_wakeup_sends_the_thread_back_to_wait s k t x y :
  completed s = false → lock s = None →
  waiters s !! k = Some (t, (Await, [AwaitLoop; LockerLeave])) →
  threads s !! t = None →
  run s [SpuriousWakeup k; Step t x; Step t y]
  = Some (mkSys (variant s) false (runs s) (ticket s) None (threads s)
            (delete k (waiters s)
             ++ [(t, (Await, [AwaitLoop; LockerLeave]))])).
Proof.
  destruct s as [v c n tk l th w]. simpl. intros -> -> Hk Hth.
  rewrite Hk. unfold wake. simpl. rewrite Hk. simpl.
  rewrite lookup_insert_eq. simpl.
  rewrite lookup_insert_eq. simpl.
  rewrite bool_decide_eq_true_2 by done.
  do 2 f_equal. rewrite !delete_insert_eq. by apply delete_id.
Qed.

Lemma cond_signal_lone_waiter k s t m pc :
  waiters s = [(t, (m, pc))] →
  cond_signal k s
  = mkSys (variant s) (completed s) (runs s) (ticket s) (lock s)
      (<[t := (m, LockerEnter :: pc)]> (threads s)) [].
Proof.
  intros Hw.
  assert (waiters s !! (k mod length (waiters s)) = Some (t, (m, pc))) as Hk.
  { rewrite Hw. simpl length. by rewrite Nat.mod_1_r. }
  rewrite (cond_signal_wake _ _ _ Hk), (wake_lookup _ _ _ _ _ Hk).
  rewrite Hw. simpl length. by rewrite Nat.mod_1_r.
Qed.

(** X6. [Perform] followed by the one thread that waits in [Await]:
    the work runs once, the flag is set, the waiter is woken, finds the
    flag set and returns; no thread stays parked and the lock is free. *)
Theorem Perform_releases_a_lone_waiter s p w k1 k2 k3 k4 k5 j1 j2 j3 :
  waiters s = [(w, (Await, [AwaitLoop; LockerLeave]))] →
  threads s !! p = Some (Perform, Perform_body (variant s)) →
  threads s !! w = None →
  lock s = None →
  run s [Step p k1; Step p k2; Step p k3; Step p k4; Step p k5;
         Step w j1; Step w j2; Step w j3]
  = Some (mkSys (variant s) true (S (runs s)) (ticket s) None
            (delete p (threads s)) []).
Proof.
  destruct s as [v c n tk l th ws]. simpl. intros -> Hp Hw ->.
  assert (p ≠ w) as Hne by (intros ->; by rewrite Hw in Hp).
  rewrite Hp. simpl.
  rewrite lookup_insert_eq. simpl.
  rewrite lookup_insert_eq. simpl.
  rewrite lookup_insert_eq. unfold exec_stmt.
  erewrite cond_signal_lone_waiter by reflexivity. simpl.
  rewrite lookup_insert_eq. simpl.
  rewrite bool_decide_eq_true_2 by done. simpl.
  rewrite lookup_delete_ne by done.
  rewrite lookup_insert_ne by done. rewrite lookup_insert_eq. simpl.
  rewrite lookup_insert_eq. simpl.
  rewrite lookup_insert_eq. simpl.
  rewrite bool_decide_eq_true_2 by done.
  do 2 f_equal. apply map_eq. intros i.
  repeat (rewrite lookup_delete || rewrite lookup_insert).
  repeat case_decide; by simplify_eq.
Qed.

(** X7. [GumV8MainContextOperation::Cancel], run through with the
    lock free: the source is destroyed first and outside the lock (a
    source already dispatched or destroyed stays as it is), then the
    operation is marked completed and one waiter, if any, is signalled;
    the work is not run by it. *)
Theorem MainContext_Cancel_destroys_the_source_then_completes
    s t k1 k2 k3 k4 k5 :
  threads s !! t = Some (Cancel, Cancel_body MainContext) →
  lock s = None →
  ∃ s1 s5,
    exec s (Step t k1) = Some s1 ∧
      ticket s1 = match ticket s with Queued => Destroyed | x => x end ∧
      completed s1 = completed s ∧ lock s1 = None ∧
      waiters s1 = waiters s ∧
    run s1 [Step t k2; Step t k3; Step t k4; Step t k5] = Some s5 ∧
      ticket s5 = ticket s1 ∧ completed s5 = true ∧ runs s5 = runs s ∧
      lock s5 = None ∧ threads s5 !! t = None ∧
      length (waiters s5) = pred (length (waiters s)).
Proof.
  destruct s as [v c n tk l th w]. simpl. intros Hth ->.
  pose (s3 := mkSys v true n
                (match tk with Queued => Destroyed | x => x end) (Some t)
                (<[t:=(Cancel, [CondSignal; LockerLeave])]>
                   (<[t:=(Cancel, [SetCompleted; CondSignal; LockerLeave])]>
                      (<[t:=(Cancel,
                             [LockerEnter; SetCompleted; CondSignal;
                              LockerLeave])]> th))) w).
  destruct (cond_signal_wakes_one k4 s3) as (Hlen & Hc & Hn & Hl & Hk & _).
  destruct (cond_signal k4 s3) as [v' c' n' k' l' th' w'] eqn:Es.
  subst s3. simpl in *. subst.
  eexists _, _.
  split. { rewrite Hth. reflexivity. } simpl.
  split; [by destruct tk|]. split; [done|]. split; [done|]. split; [done|].
  rewrite lookup_insert_eq. simpl.
  rewrite lookup_insert_eq. simpl.
  rewrite lookup_insert_eq. unfold exec_stmt.
  assert ((match tk with Queued => Destroyed | Dispatched => Dispatched
                       | Destroyed => Destroyed end)
          = match tk with Queued => Destroyed | x => x end) as Etk
    by (by destruct tk).
  rewrite Etk, Es. simpl.
  rewrite lookup_insert_eq. simpl.
  rewrite bool_decide_eq_true_2 by done.
  split; [reflexivity|]. simpl.
  split; [by destruct tk|]. split; [done|]. split; [done|]. split; [done|].
  split; [by rewrite lookup_delete_eq|done].
Qed.

Lemma MainContext_Cancel_witness :
  threads (mkSys MainContext false 0 Queued None
             {[5 := (Cancel, Cancel_body MainContext)]}
             [(1, (Await, [AwaitLoop; LockerLeave]))])
    !! 5 = Some (Cancel, Cancel_body MainContext) ∧
  lock (mkSys MainContext false 0 Queued None
          {[5 := (Cancel, Cancel_body MainContext)]}
          [(1, (Await, [AwaitLoop; LockerLeave]))]) = None ∧
  ∃ s1 s5,
    exec (mkSys MainContext false 0 Queued None
            {[5 := (Cancel, Cancel_body MainContext)]}
            [(1, (Await, [AwaitLoop; LockerLeave]))]) (Step 5 0)
      = Some s1 ∧
      ticket s1 = Destroyed ∧
      completed s1 = false ∧ lock s1 = None ∧
      waiters s1 = [(1, (Await, [AwaitLoop; LockerLeave]))] ∧
    run s1 [Step 5 0; Step 5 0; Step 5 0; Step 5 0] = Some s5 ∧
      ticket s5 = ticket s1 ∧ completed s5 = true ∧ runs s5 = 0 ∧
      lock s5 = None ∧ threads s5 !! 5 = None ∧
      length (waiters s5) = pred 1.
Proof.
  split; [reflexivity|]. split; [reflexivity|].
  apply (MainContext_Cancel_destroys_the_source_then_completes
           (mkSys MainContext false 0 Queued None
              {[5 := (Cancel, Cancel_body MainContext)]}
              [(1, (Await, [AwaitLoop; LockerLeave]))])
           5 0 0 0 0 0); reflexivity.
Defined.

Lemma Await_pending_witness :
  completed (init MainContext) = false ∧
  lock (init MainContext) = None ∧
  idle 4 (init MainContext) = true ∧
  run (init MainContext) [CallAwait 4; Step 4 0; Step 4 0]
  = Some (mkSys (variant (init MainContext)) false
            (runs (init MainContext)) (ticket (init MainContext)) None
            (threads (init MainContext))
            (waiters (init MainContext)
             ++ [(4, (Await, [AwaitLoop; LockerLeave]))])).
Proof.
  split; [reflexivity|]. split; [reflexivity|]. split; [reflexivity|].
  apply (Await_on_a_pending_operation_waits_with_the_lock_released
           (init MainContext) 4 0 0); reflexivity.
Defined.

Lemma spurious_wakeup_witness :
  completed (mkSys ThreadPool false 0 Queued None ∅
               [(4, (Await, [AwaitLoop; LockerLeave]))]) = false ∧
  lock (mkSys ThreadPool false 0 Queued None ∅
          [(4, (Await, [AwaitLoop; LockerLeave]))]) = None ∧
  waiters (mkSys ThreadPool false 0 Queued None ∅
             [(4, (Await, [AwaitLoop; LockerLeave]))]) !! 0
    = Some (4, (Await, [AwaitLoop; LockerLeave])) ∧
  threads (mkSys ThreadPool false 0 Queued None ∅
             [(4, (Await, [AwaitLoop; LockerLeave]))]) !! 4 = None ∧
  run (mkSys ThreadPool false 0 Queued None ∅
         [(4, (Await, [AwaitLoop; LockerLeave]))])
      [SpuriousWakeup 0; Step 4 0; Step 4 0]
  = Some (mkSys ThreadPool false 0 Queued None ∅
            (delete 0 [(4, (Await, [AwaitLoop; LockerLeave]))]
             ++ [(4, (Await, [AwaitLoop; LockerLeave]))])).
Proof.
  split; [reflexivity|]. split; [reflexivity|]. split; [reflexivity|].
  split; [reflexivity|].
  apply (spurious_wakeup_sends_the_thread_back_to_wait
           (mkSys ThreadPool false 0 Queued None ∅
              [(4, (Await, [AwaitLoop; LockerLeave]))]) 0 4 0 0);
    reflexivity.
Defined.

Lemma Perform_lone_waiter_witness :
  ∃ s,
    run (init ThreadPool) [CallAwait 1; Step 1 0; Step 1 0; HostDispatch 0]
      = Some s ∧
    waiters s = [(1, (Await, [AwaitLoop; LockerLeave]))] ∧
    threads s !! 0 = Some (Perform, Perform_body (variant s)) ∧
    threads s !! 1 = None ∧
    lock s = None ∧
    run s [Step 0 0; Step 0 0; Step 0 0; Step 0 0; Step 0 0;
           Step 1 0; Step 1 0; Step 1 0]
    = Some (mkSys (variant s) true (S (runs s)) (ticket s) None
              (delete 0 (threads s)) []).
Proof.
  eexists. split; [vm_compute; reflexivity|].
  split; [reflexivity|]. split; [reflexivity|]. split; [reflexivity|].
  split; [reflexivity|].
  eapply (Perform_releases_a_lone_waiter _ 0 1 0 0 0 0 0 0 0 0);
    reflexivity.
Defined.

End OperationLifecycleInvariantsFacts.

(* ===================================================================== *)
(** ** Facts about the platform calls                                    *)
(* ===================================================================== *)

Module PlatformCallsFacts.
Import Binary64 Binary64Facts Platform PlatformCalls PlatformFacts.
Local Open Scope platform_scope.
#[local] Set Warnings "-clear-no-such-hyp".

Lemma Perform_completes op now o p :
  lock p = false → operations p !! op = Some o → op < next_address p →
  invocable p (func o) →
  ∃ p' ran,
    Perform op now p = Some (tt, p') ∧
    lock p' = false ∧
    js_operations p' = js_operations p ∧
    js_context p' = js_context p ∧
    foreground_runners p' = foreground_runners p ∧
    runners p' = runners p ∧
    operations p' !! op = Some (complete o) ∧
    next_address p ≤ next_address p' ∧
    journal p'
      = Signalled op :: Mutation CompletionFlag true :: ran ++ journal p ∧
    mutations_locked ran = true.
Proof.
  destruct p as [l ops reg t0 heap rs next ctx pool j]. simpl.
  intros -> Hop Hlt Hinv. unfold Perform. simpl. rewrite Hop.
  destruct o as [cl f c]. simpl in *.
  destruct f as [id|r t|r t|t|g]; simpl in Hinv.
  - exists (mkPlatform false ops reg t0 (alter complete op heap) rs next ctx
              pool (Signalled op :: Mutation CompletionFlag true
                    :: FuncCalled id :: j)), [FuncCalled id].
    split; [reflexivity|]. simpl. rewrite lookup_alter_eq, Hop.
    by repeat (split; [done|]).
  - destruct Hinv as [x Hx].
    exists (mkPlatform false ops reg t0 (alter complete op heap) rs next ctx
              pool (Signalled op :: Mutation CompletionFlag true
                    :: TaskRan (isolate x) t :: j)), [TaskRan (isolate x) t].
    split. { unfold bind, invoke, Run_Task. simpl. by rewrite Hx. }
    simpl. rewrite lookup_alter_eq, Hop. by repeat (split; [done|]).
  - destruct Hinv as [x Hx].
    eexists (mkPlatform false ops reg t0 (alter complete op heap) rs next ctx
              pool (Signalled op :: Mutation CompletionFlag true
                    :: IdleTaskRan (isolate x) t _ :: j)),
      [IdleTaskRan (isolate x) t _].
    split. { unfold bind, invoke, Run_IdleTask. simpl. rewrite Hx.
             reflexivity. }
    simpl. rewrite lookup_alter_eq, Hop. by repeat (split; [done|]).
  - exists (mkPlatform false ops reg t0 (alter complete op heap) rs next ctx
              pool (Signalled op :: Mutation CompletionFlag true
                    :: WorkerTaskRan t :: j)), [WorkerTaskRan t].
    split; [reflexivity|]. simpl. rewrite lookup_alter_eq, Hop.
    by repeat (split; [done|]).
  - eexists _, []. split; [reflexivity|]. simpl.
    rewrite lookup_alter_eq, lookup_insert_ne, Hop by lia.
    repeat (split; [done|]). split; [lia|]. by split.
Qed.

Lemma ReleaseMainContextOperation_unfold op p :
  lock p = false →
  ReleaseMainContextOperation op p =
  Some (tt,
    mkPlatform false (js_operations p ∖ {[op]}) (foreground_runners p)
      (start_time p) (operations p) (runners p) (next_address p)
      (js_context p) (thread_pool p)
      (Mutation OutstandingSet true :: journal p)).
Proof.
  destruct p as [l ops reg t0 heap rs next ctx pool j]. simpl.
  intros ->. reflexivity.
Qed.

(** X8. A foreground operation is in [js_operations] from the schedule
    call on, stays there while and after it is performed, and is taken out
    by [ReleaseMainContextOperation], which leaves the set as it was before
    the schedule call; the operation stays completed. *)
Theorem foreground_operation_is_outstanding_until_released
    delay prio f now p :
  lock p = false →
  next_address p ∉ js_operations p →
  invocable p f →
  ∃ op p1 p2 p3,
    ScheduleOnJSThreadDelayed delay prio f p = Some (op, p1) ∧
    op ∈ js_operations p1 ∧
    PerformMainContextOperation op now p1 = Some (false, p2) ∧
    op ∈ js_operations p2 ∧
    completed <$> operations p2 !! op = Some true ∧
    ReleaseMainContextOperation op p2 = Some (tt, p3) ∧
    js_operations p3 = js_operations p ∧
    completed <$> operations p3 !! op = Some true ∧
    lock p3 = false.
Proof.
  intros Hl Hfresh Hinv.
  rewrite ScheduleOnJSThreadDelayed_unfold by done.
  set (p1 := mkPlatform _ _ _ _ _ _ _ _ _ _).
  destruct (Perform_completes (next_address p) now
              (mkOperation
                 (MainContextOperation
                    (mkSource (if (delay =? 0)%Z then IdleSource
                               else TimeoutSource delay) prio true))
                 f false) p1)
    as (p2 & ran & Hp & Hl2 & Hjs & _ & _ & _ & Hop & _ & _ & _).
  { done. }
  { subst p1. simpl. by rewrite lookup_insert_eq. }
  { subst p1. simpl. lia. }
  { subst p1. destruct f; simpl in *; done. }
  exists (next_address p), p1, p2. eexists.
  split; [done|]. split; [subst p1; simpl; set_solver|].
  split. { unfold PerformMainContextOperation, bind. by rewrite Hp. }
  split; [rewrite Hjs; subst p1; simpl; set_solver|].
  split; [by rewrite Hop|].
  split; [by apply ReleaseMainContextOperation_unfold|]. simpl.
  split; [rewrite Hjs; subst p1; simpl; set_solver|].
  split; [by rewrite Hop|done].
Qed.

Lemma addresses_wf_new_platform start : addresses_wf (new_platform start).
Proof.
  split; simpl.
  - intros a o H. by rewrite lookup_empty in H.
  - intros a H. set_solver.
Qed.

Lemma addresses_wf_fresh p :
  addresses_wf p →
  operations p !! next_address p = None ∧
  next_address p ∉ js_operations p.
Proof.
  intros [Hops Hjs]. split.
  - destruct (operations p !! next_address p) eqn:E; [|done].
    apply Hops in E. lia.
  - intros Hin%Hjs. lia.
Qed.

(** X9. A pool schedule call followed by a foreground schedule call
    hand out two different handles, neither in use before; each handle
    leads to the operation that holds the closure given, the operations
    there before are untouched, and only the foreground one joins
    [js_operations]. *)
Theorem schedule_calls_hand_out_fresh_handles f g delay prio p :
  addresses_wf p → lock p = false →
  ∃ op1 op2 p1 p2,
    ScheduleOnThreadPool f p = Some (op1, p1) ∧
    ScheduleOnJSThreadDelayed delay prio g p1 = Some (op2, p2) ∧
    op1 ≠ op2 ∧
    operations p !! op1 = None ∧ operations p !! op2 = None ∧
    (op1 ∉ js_operations p) ∧ (op2 ∉ js_operations p) ∧
    operations p2 !! op1 = Some (mkOperation ThreadPoolOperation f false) ∧
    func <$> operations p2 !! op2 = Some g ∧
    (∀ a o, operations p !! a = Some o → operations p2 !! a = Some o) ∧
    js_operations p2 = {[op2]} ∪ js_operations p ∧
    addresses_wf p2.
Proof.
  intros Hwf Hl. pose proof Hwf as [Hops Hjs].
  destruct (addresses_wf_fresh p Hwf) as [Hf1 Hf2].
  pose (p1 := mkPlatform (lock p) (js_operations p) (foreground_runners p)
                (start_time p)
                (<[next_address p := mkOperation ThreadPoolOperation f false]>
                   (operations p))
                (runners p) (S (next_address p)) (js_context p)
                (thread_pool p ++ [next_address p]) (journal p)).
  exists (next_address p), (S (next_address p)), p1. eexists.
  split; [apply ScheduleOnThreadPool_unfold|].
  split; [by apply (ScheduleOnJSThreadDelayed_unfold delay prio g p1)|].
  subst p1. simpl.
  split; [lia|]. split; [done|].
  split. { destruct (operations p !! S (next_address p)) eqn:E; [|done].
           apply Hops in E. lia. }
  split; [done|]. split; [intros Hin%Hjs; lia|].
  split; [by rewrite lookup_insert_ne, lookup_insert_eq by lia|].
  split; [by rewrite lookup_insert_eq|].
  split. { intros a o Ha. pose proof (Hops _ _ Ha).
           by rewrite !lookup_insert_ne by lia. }
  split; [done|].
  split; simpl.
  - intros a o [[<- _]|[_ [[<- _]|[_ Ha]]%lookup_insert_Some]]%lookup_insert_Some;
      try lia. apply Hops in Ha. lia.
  - intros a [->%elem_of_singleton|Ha%Hjs]%elem_of_union; lia.
Qed.

(** X10. [CallOnWorkerThread] pushes one job on the thread pool and
    nothing on the JS context, writes no guarded state, and the job, once
    performed, runs the task, completes the operation under the lock and
    signals it. *)
Theorem CallOnWorkerThread_runs_the_task_once_on_the_pool task now p :
  lock p = false →
  ∃ p1 p2,
    CallOnWorkerThread task p = Some (tt, p1) ∧
    thread_pool p1 = thread_pool p ++ [next_address p] ∧
    js_operations p1 = js_operations p ∧
    js_context p1 = js_context p ∧
    journal p1 = journal p ∧
    PerformThreadPoolOperation (next_address p) now p1 = Some (tt, p2) ∧
    journal p2 = Signalled (next_address p)
                 :: Mutation CompletionFlag true
                 :: WorkerTaskRan task :: journal p ∧
    operations p2 !! next_address p
      = Some (mkOperation ThreadPoolOperation (TaskRun task) true) ∧
    js_operations p2 = js_operations p.
Proof.
  destruct p as [l ops reg t0 heap rs next ctx pool j]. simpl. intros ->.
  eexists _, _. split; [reflexivity|]. simpl.
  do 4 (split; [done|]).
  unfold PerformThreadPoolOperation, Perform. simpl.
  rewrite lookup_insert_eq. simpl.
  split; [reflexivity|]. simpl. split; [done|].
  split; [by rewrite lookup_alter_eq, lookup_insert_eq|done].
Qed.

Lemma GetForegroundTaskRunner_keeps_lock iso r p p' :
  GetForegroundTaskRunner iso p = Some (r, p') →
  lock p' = lock p ∧ js_context p' = js_context p ∧
  js_operations p' = js_operations p ∧ operations p' = operations p.
Proof.
  destruct p as [l ops reg t0 heap rs next ctx pool j].
  unfold GetForegroundTaskRunner, bind, runner_at. simpl.
  destruct (reg !! iso) as [[r0|]|]; simpl; unfold ret; intros ?;
    simplify_eq; simpl; by repeat split.
Qed.

(** X11. [CallOnForegroundThread] registers or finds the isolate's
    runner, queues one idle source of default priority on the JS context,
    and the operation, once performed, runs the task under the locker of
    that isolate. *)
Theorem CallOnForegroundThread_runs_the_task_in_its_isolate
    iso task now p :
  runners_wf p → lock p = false →
  ∃ r op p1 p2,
    CallOnForegroundThread iso task p = Some (tt, p1) ∧
    foreground_runners p1 !! iso = Some (Some r) ∧
    runners p1 !! r = Some (mkRunner iso) ∧
    js_context p1 = js_context p ++ [op] ∧
    operations p1 !! op
      = Some (mkOperation
                (MainContextOperation
                   (mkSource IdleSource G_PRIORITY_DEFAULT true))
                (RunTask r task) false) ∧
    PerformMainContextOperation op now p1 = Some (false, p2) ∧
    journal p2 = Signalled op :: Mutation CompletionFlag true
                 :: TaskRan iso task :: journal p1.
Proof.
  intros Hwf Hl.
  destruct (GetForegroundTaskRunner_total iso p) as (r & p0 & Hget & Hreg & _).
  pose proof (GetForegroundTaskRunner_keeps_wf _ _ _ _ Hwf Hget) as Hwf0.
  destruct (GetForegroundTaskRunner_keeps_lock _ _ _ _ Hget)
    as (Hl0 & Hctx0 & _).
  pose proof (proj1 Hwf0 _ _ Hreg) as Hr.
  rewrite Hl in Hl0.
  unfold CallOnForegroundThread, on_runner. unfold bind at 1. rewrite Hget.
  unfold PostTask, ScheduleOnJSThread. unfold bind at 1.
  rewrite ScheduleOnJSThreadDelayed_unfold by done.
  exists r, (next_address p0). eexists _, _.
  split; [reflexivity|]. simpl.
  split; [done|]. split; [done|]. split; [by rewrite Hctx0|].
  split; [by rewrite lookup_insert_eq|].
  unfold PerformMainContextOperation, bind, Perform. simpl.
  rewrite lookup_insert_eq. simpl. unfold bind, Run_Task. simpl.
  rewrite Hr. simpl. split; reflexivity.
Qed.

(** X12. [PostDelayedTask] passes the binary64 product
    [delay_in_seconds * 1000.0] for a [guint]: it schedules at the default
    priority with the converted product as the delay, on an idle source
    when that is 0, and then does just what [PostTask] does.  For a
    product that is not negative and whose whole part fits a [guint], the
    delay is the product with the fraction of a millisecond cut off. *)
Theorem PostDelayedTask_cuts_the_delay_to_whole_milliseconds
    runner task (delay_in_seconds : double) p :
  lock p = false →
  ∃ p1,
    PostDelayedTask runner task delay_in_seconds p = Some (tt, p1) ∧
    operations p1 !! next_address p
      = Some (mkOperation
                (MainContextOperation
                   (mkSource
                      (if (double_to_guint
                             (double_mul delay_in_seconds
                                (double_of_Z 1000)) =? 0)%Z
                       then IdleSource
                       else TimeoutSource
                              (double_to_guint
                                 (double_mul delay_in_seconds
                                    (double_of_Z 1000))))
                      G_PRIORITY_DEFAULT true))
                (RunTask runner task) false) ∧
    (0 ≤ double_to_guint
           (double_mul delay_in_seconds (double_of_Z 1000)) < 2 ^ 32)%Z ∧
    (∀ m e,
       double_mul delay_in_seconds (double_of_Z 1000)
       = S754_finite false m e →
       (-1074 ≤ e)%Z → (Z.shiftl (Zpos m) e < 2 ^ 32)%Z →
       (scaled (double_to_guint (S754_finite false m e)) 0
        ≤ scaled (Zpos m) e
        < scaled (double_to_guint (S754_finite false m e) + 1) 0)%Z) ∧
    (double_to_guint (double_mul delay_in_seconds (double_of_Z 1000)) = 0%Z →
     PostDelayedTask runner task delay_in_seconds p = PostTask runner task p).
Proof.
  intros Hl. unfold PostDelayedTask.
  unfold bind at 1. rewrite ScheduleOnJSThreadDelayed_unfold by done.
  eexists. split; [reflexivity|]. simpl operations.
  split; [by rewrite lookup_insert_eq|].
  split; [apply double_to_guint_range|].
  split.
  - intros m e _ He Hfit.
    destruct (double_trunc_floor m e (Z.shiftl (Zpos m) e) He eq_refl)
      as [Ht0 Hb].
    rewrite (double_to_guint_defined (S754_finite false m e)
               (Z.shiftl (Zpos m) e)); [exact Hb|done|lia].
  - intros Hz. rewrite Hz.
    unfold PostTask, ScheduleOnJSThread. unfold bind.
    by rewrite ScheduleOnJSThreadDelayed_unfold by done.
Qed.

(** The product is rounded before it is cut: 0.11699999999999999 s is
    scheduled at 117 ms, though the exact product is below 117; a negative
    delay of one second is scheduled at 4294966296 ms. *)
Example PostDelayedTask_rounds_the_product :
  double_to_guint
    (double_mul (S754_finite false 8430738502437568 (-56))
       (double_of_Z 1000)) = 117%Z ∧
  (8430738502437568 * 1000 < 117 * 2 ^ 56)%Z ∧
  double_to_guint (double_mul (double_of_Z (-1)) (double_of_Z 1000))
  = 4294966296%Z.
Proof. vm_compute. done. Qed.


(** X14. While the real time in milliseconds is below [2 ^ 53],
    [CurrentClockTimeMillis] is exactly the real time in whole
    milliseconds, rounded down, and it never goes back while the real time
    does not. *)
Theorem CurrentClockTimeMillis_is_whole_milliseconds rt1 rt2 :
  (0 ≤ rt1 ≤ rt2)%Z → (rt2 / 1000 < 2 ^ 53)%Z →
  double_scaled (CurrentClockTimeMillis rt1)
  = Some (scaled (rt1 / 1000) 0) ∧
  double_valid (CurrentClockTimeMillis rt1) = true ∧
  double_le (CurrentClockTimeMillis rt1) (CurrentClockTimeMillis rt2)
  = true ∧
  (1000 * (rt1 / 1000) ≤ rt1 < 1000 * (rt1 / 1000) + 1000)%Z.
Proof.
  intros H Hfit. unfold CurrentClockTimeMillis.
  rewrite !Z.quot_div_nonneg by lia.
  pose proof (Z.div_mod rt1 1000 ltac:(lia)) as Hd1.
  pose proof (Z.mod_pos_bound rt1 1000 ltac:(lia)) as Hm1.
  pose proof (Z.div_le_mono rt1 rt2 1000 ltac:(lia) ltac:(lia)) as Hmono.
  assert (0 ≤ rt1 / 1000)%Z as H0 by (apply Z.div_pos; lia).
  destruct (double_of_Z_scaled (rt1 / 1000) ltac:(lia)) as [Hv Hs].
  split; [exact Hs|]. split; [exact Hv|].
  split; [apply double_of_Z_le; lia|lia].
Qed.

(** Above [2 ^ 53] milliseconds the conversion rounds. *)
Example CurrentClockTimeMillis_rounds_large_times :
  CurrentClockTimeMillis 9007199254740995000
  = S754_finite false 4503599627370498 1.
Proof. vm_compute. reflexivity. Qed.

Lemma post_on_registered_runner iso r (call : nat → M unit) p :
  foreground_runners p !! iso = Some (Some r) →
  on_runner iso call p = call r p.
Proof.
  intros H. unfold on_runner. unfold bind at 1.
  by rewrite (GetForegroundTaskRunner_registered _ _ _ H).
Qed.

Lemma schedule_keeps_registry delay prio f op p p1 :
  lock p = false →
  ScheduleOnJSThreadDelayed delay prio f p = Some (op, p1) →
  op = next_address p ∧ lock p1 = false ∧
  foreground_runners p1 = foreground_runners p ∧
  runners p1 = runners p ∧
  next_address p1 = S (next_address p) ∧
  js_context p1 = js_context p ++ [op] ∧
  operations p1
  = <[op := mkOperation
              (MainContextOperation
                 (mkSource (if (delay =? 0)%Z then IdleSource
                            else TimeoutSource delay) prio true))
              f false]> (operations p).
Proof.
  intros Hl. rewrite ScheduleOnJSThreadDelayed_unfold by done.
  intros ?. simplify_eq. simpl. by repeat split.
Qed.

(** X15. [CallOnForegroundThread], [CallIdleOnForegroundThread] and
    [CallDelayedOnForegroundThread] for one isolate, one after the other,
    post to one and the same runner: the registry is written by the first
    call only, and the three operations are queued in call order. *)
Theorem foreground_calls_share_the_isolate_runner
    iso t1 t2 t3 (delay_in_seconds : double) p :
  lock p = false →
  ∃ r op p1 p2 p3,
    CallOnForegroundThread iso t1 p = Some (tt, p1) ∧
    CallIdleOnForegroundThread iso t2 p1 = Some (tt, p2) ∧
    CallDelayedOnForegroundThread iso t3 delay_in_seconds p2
      = Some (tt, p3) ∧
    foreground_runners p1 !! iso = Some (Some r) ∧
    foreground_runners p3 = foreground_runners p1 ∧
    runners p3 = runners p1 ∧
    js_context p3 = js_context p ++ [op; S op; S (S op)] ∧
    func <$> operations p3 !! op = Some (RunTask r t1) ∧
    func <$> operations p3 !! S op = Some (RunIdleTask r t2) ∧
    func <$> operations p3 !! S (S op) = Some (RunTask r t3).
Proof.
  intros Hl.
  destruct (GetForegroundTaskRunner_total iso p) as (r & p0 & Hget & Hreg & _).
  destruct (GetForegroundTaskRunner_keeps_lock _ _ _ _ Hget)
    as (Hl0 & Hctx0 & _).
  rewrite Hl in Hl0.
  destruct (ScheduleOnJSThreadDelayed 0 G_PRIORITY_DEFAULT (RunTask r t1) p0)
    as [[op p1]|] eqn:E1;
    [|by rewrite ScheduleOnJSThreadDelayed_unfold in E1].
  destruct (schedule_keeps_registry _ _ _ _ _ _ Hl0 E1)
    as (-> & Hl1 & Hf1 & Hr1 & Hn1 & Hc1 & Ho1).
  destruct (ScheduleOnJSThreadDelayed 0 G_PRIORITY_LOW (RunIdleTask r t2) p1)
    as [[op2 p2]|] eqn:E2;
    [|by rewrite ScheduleOnJSThreadDelayed_unfold in E2].
  destruct (schedule_keeps_registry _ _ _ _ _ _ Hl1 E2)
    as (-> & Hl2 & Hf2 & Hr2 & Hn2 & Hc2 & Ho2).
  set (ms := double_to_guint
               (double_mul delay_in_seconds (double_of_Z 1000))).
  destruct (ScheduleOnJSThreadDelayed ms G_PRIORITY_DEFAULT (RunTask r t3) p2)
    as [[op3 p3]|] eqn:E3;
    [|by rewrite ScheduleOnJSThreadDelayed_unfold in E3].
  destruct (schedule_keeps_registry _ _ _ _ _ _ Hl2 E3)
    as (-> & Hl3 & Hf3 & Hr3 & Hn3 & Hc3 & Ho3).
  exists r, (next_address p0), p1, p2, p3.
  split.
  { unfold CallOnForegroundThread, on_runner. unfold bind at 1.
    rewrite Hget. unfold PostTask, ScheduleOnJSThread, bind.
    by rewrite E1. }
  split.
  { unfold CallIdleOnForegroundThread.
    rewrite (post_on_registered_runner iso r) by (by rewrite Hf1).
    unfold PostIdleTask, ScheduleOnJSThread_with_priority, bind.
    by rewrite E2. }
  split.
  { unfold CallDelayedOnForegroundThread.
    rewrite (post_on_registered_runner iso r) by (by rewrite Hf2, Hf1).
    unfold PostDelayedTask. fold ms. unfold bind. by rewrite E3. }
  split; [by rewrite Hf1|]. split; [by rewrite Hf3, Hf2|].
  split; [by rewrite Hr3, Hr2|].
  split. { rewrite Hc3, Hc2, Hc1, Hctx0, Hn2, Hn1, <- !app_assoc. done. }
  rewrite Ho3, Ho2, Ho1, Hn2, Hn1.
  split; [by rewrite !lookup_insert_ne, lookup_insert_eq by lia|].
  split; [by rewrite lookup_insert_ne, lookup_insert_eq by lia|].
  by rewrite lookup_insert_eq.
Qed.

Lemma foreground_calls_on_a_new_platform :
  lock (new_platform 0) = false ∧
  ∃ r op p1 p2 p3,
    CallOnForegroundThread 11 1 (new_platform 0) = Some (tt, p1) ∧
    CallIdleOnForegroundThread 11 2 p1 = Some (tt, p2) ∧
    CallDelayedOnForegroundThread 11 3
      (S754_finite false 4503599627370496 (-54)) p2 = Some (tt, p3) ∧
    foreground_runners p1 !! 11 = Some (Some r) ∧
    foreground_runners p3 = foreground_runners p1 ∧
    runners p3 = runners p1 ∧
    js_context p3 = js_context (new_platform 0) ++ [op; S op; S (S op)] ∧
    func <$> operations p3 !! op = Some (RunTask r 1) ∧
    func <$> operations p3 !! S op = Some (RunIdleTask r 2) ∧
    func <$> operations p3 !! S (S op) = Some (RunTask r 3).
Proof.
  split; [reflexivity|].
  apply (foreground_calls_share_the_isolate_runner 11 1 2 3
           (S754_finite false 4503599627370496 (-54)) (new_platform 0)).
  reflexivity.
Defined.

Lemma foreground_operation_on_a_new_platform :
  lock (new_platform 0) = false ∧
  (next_address (new_platform 0) ∉ js_operations (new_platform 0)) ∧
  invocable (new_platform 0) (HostFunc 7) ∧
  ∃ op p1 p2 p3,
    ScheduleOnJSThreadDelayed 25 G_PRIORITY_DEFAULT (HostFunc 7)
      (new_platform 0) = Some (op, p1) ∧
    op ∈ js_operations p1 ∧
    PerformMainContextOperation op 40 p1 = Some (false, p2) ∧
    op ∈ js_operations p2 ∧
    completed <$> operations p2 !! op = Some true ∧
    ReleaseMainContextOperation op p2 = Some (tt, p3) ∧
    js_operations p3 = js_operations (new_platform 0) ∧
    completed <$> operations p3 !! op = Some true ∧
    lock p3 = false.
Proof.
  assert (next_address (new_platform 0) ∉ js_operations (new_platform 0))
    as Hfresh by (simpl; set_solver).
  split; [reflexivity|]. split; [exact Hfresh|]. split; [exact I|].
  apply (foreground_operation_is_outstanding_until_released
           25 G_PRIORITY_DEFAULT (HostFunc 7) 40 (new_platform 0));
    [reflexivity|exact Hfresh|exact I].
Defined.

Lemma fresh_handles_on_a_new_platform :
  addresses_wf (new_platform 0) ∧ lock (new_platform 0) = false ∧
  ∃ op1 op2 p1 p2,
    ScheduleOnThreadPool (HostFunc 1) (new_platform 0) = Some (op1, p1) ∧
    ScheduleOnJSThreadDelayed 5 G_PRIORITY_DEFAULT (HostFunc 2) p1
      = Some (op2, p2) ∧
    op1 ≠ op2 ∧
    operations (new_platform 0) !! op1 = None ∧
    operations (new_platform 0) !! op2 = None ∧
    (op1 ∉ js_operations (new_platform 0)) ∧
    (op2 ∉ js_operations (new_platform 0)) ∧
    operations p2 !! op1
      = Some (mkOperation ThreadPoolOperation (HostFunc 1) false) ∧
    func <$> operations p2 !! op2 = Some (HostFunc 2) ∧
    (∀ a o, operations (new_platform 0) !! a = Some o →
            operations p2 !! a = Some o) ∧
    js_operations p2 = {[op2]} ∪ js_operations (new_platform 0) ∧
    addresses_wf p2.
Proof.
  split; [apply addresses_wf_new_platform|]. split; [reflexivity|].
  apply (schedule_calls_hand_out_fresh_handles (HostFunc 1) (HostFunc 2) 5
           G_PRIORITY_DEFAULT (new_platform 0));
    [apply addresses_wf_new_platform|reflexivity].
Defined.

Lemma CallOnWorkerThread_on_a_new_platform :
  lock (new_platform 0) = false ∧
  ∃ p1 p2,
    CallOnWorkerThread 3 (new_platform 0) = Some (tt, p1) ∧
    thread_pool p1
      = thread_pool (new_platform 0) ++ [next_address (new_platform 0)] ∧
    js_operations p1 = js_operations (new_platform 0) ∧
    js_context p1 = js_context (new_platform 0) ∧
    journal p1 = journal (new_platform 0) ∧
    PerformThreadPoolOperation (next_address (new_platform 0)) 9 p1
      = Some (tt, p2) ∧
    journal p2 = Signalled (next_address (new_platform 0))
                 :: Mutation CompletionFlag true
                 :: WorkerTaskRan 3 :: journal (new_platform 0) ∧
    operations p2 !! next_address (new_platform 0)
      = Some (mkOperation ThreadPoolOperation (TaskRun 3) true) ∧
    js_operations p2 = js_operations (new_platform 0).
Proof.
  split; [reflexivity|].
  apply (CallOnWorkerThread_runs_the_task_once_on_the_pool 3 9
           (new_platform 0)); reflexivity.
Defined.

Lemma CallOnForegroundThread_on_a_new_platform :
  runners_wf (new_platform 0) ∧ lock (new_platform 0) = false ∧
  ∃ r op p1 p2,
    CallOnForegroundThread 11 3 (new_platform 0) = Some (tt, p1) ∧
    foreground_runners p1 !! 11 = Some (Some r) ∧
    runners p1 !! r = Some (mkRunner 11) ∧
    js_context p1 = js_context (new_platform 0) ++ [op] ∧
    operations p1 !! op
      = Some (mkOperation
                (MainContextOperation
                   (mkSource IdleSource G_PRIORITY_DEFAULT true))
                (RunTask r 3) false) ∧
    PerformMainContextOperation op 9 p1 = Some (false, p2) ∧
    journal p2 = Signalled op :: Mutation CompletionFlag true
                 :: TaskRan 11 3 :: journal p1.
Proof.
  split; [apply runners_wf_new_platform|]. split; [reflexivity|].
  apply (CallOnForegroundThread_runs_the_task_in_its_isolate 11 3 9
           (new_platform 0)); [apply runners_wf_new_platform|reflexivity].
Defined.

Lemma PostDelayedTask_of_a_second_and_a_half :
  lock (new_platform 0) = false ∧
  ∃ p1,
    PostDelayedTask 1 3 (S754_finite false 6755399441055744 (-52))
      (new_platform 0) = Some (tt, p1) ∧
    operations p1 !! next_address (new_platform 0)
      = Some (mkOperation
                (MainContextOperation
                   (mkSource (TimeoutSource 1500) G_PRIORITY_DEFAULT true))
                (RunTask 1 3) false).
Proof.
  split; [reflexivity|].
  destruct (PostDelayedTask_cuts_the_delay_to_whole_milliseconds 1 3
              (S754_finite false 6755399441055744 (-52)) (new_platform 0)
              eq_refl) as (p1 & H1 & H2 & _).
  exists p1. split; [exact H1|]. exact H2.
Defined.


Lemma CurrentClockTimeMillis_two_readings :
  (0 ≤ 1234567 ≤ 2000000)%Z ∧ (2000000 / 1000 < 2 ^ 53)%Z ∧
  double_scaled (CurrentClockTimeMillis 1234567)
  = Some (scaled (1234567 / 1000) 0) ∧
  double_valid (CurrentClockTimeMillis 1234567) = true ∧
  double_le (CurrentClockTimeMillis 1234567) (CurrentClockTimeMillis 2000000)
  = true ∧
  (1000 * (1234567 / 1000) ≤ 1234567 < 1000 * (1234567 / 1000) + 1000)%Z.
Proof.
  assert (0 ≤ 1234567 ≤ 2000000)%Z as H0 by lia.
  assert (2000000 / 1000 < 2 ^ 53)%Z as H1 by done.
  split; [exact H0|]. split; [exact H1|].
  apply (CurrentClockTimeMillis_is_whole_milliseconds 1234567 2000000);
    [exact H0|exact H1].
Defined.

End PlatformCallsFacts.

(* ===================================================================== *)
(** ** Facts about the script bundles                                    *)
(* ===================================================================== *)

Module BundlesFacts.
Import Bundles.
#[local] Set Warnings "-clear-no-such-hyp".

Lemma owned_constructed : owned constructed.
Proof.
  intros b [x Hx]. unfold constructed, InitRuntime in *. simpl in *.
  apply lookup_insert_Some in Hx as [[<- _]|[_ Hx]]; [by right; left|].
  apply lookup_insert_Some in Hx as [[<- _]|[_ Hx]]; [by left|].
  by rewrite lookup_empty in Hx.
Qed.

Lemma owned_get g s : owned s → owned (get g s).
Proof.
  intros Ho b. destruct s as [r d o j lv n k].
  destruct g; unfold get, GetObjCBundle, GetJavaBundle; simpl.
  - destruct o as [x|]; simpl; [apply Ho|].
    intros [y [[<- _]|[_ Hy]]%lookup_insert_Some]; [tauto|].
    destruct (Ho b) as [?|[?|[?|?]]]; simpl in *; eauto; by simplify_eq.
  - destruct j as [x|]; simpl; [apply Ho|].
    intros [y [[<- _]|[_ Hy]]%lookup_insert_Some]; [tauto|].
    destruct (Ho b) as [?|[?|[?|?]]]; simpl in *; eauto; by simplify_eq.
Qed.

Lemma owned_gets gs : ∀ s, owned s → owned (foldl (λ s g, get g s) s gs).
Proof.
  induction gs as [|g gs IH]; simpl; intros s Ho; [done|].
  by apply IH, owned_get.
Qed.

Lemma live_clear m s b :
  live (clear m s) !! b
  = if decide (m = Some b) then None else live s !! b.
Proof.
  destruct m as [x|]; simpl.
  - rewrite lookup_delete. repeat case_decide; by simplify_eq.
  - done.
Qed.

Lemma disposals_clear m s :
  isolate_disposals (clear m s) = isolate_disposals s.
Proof. by destruct m. Qed.

Lemma isolate_disposals_gets gs : ∀ s,
  isolate_disposals (foldl (λ s g, get g s) s gs) = isolate_disposals s.
Proof.
  induction gs as [|g gs IH]; simpl; intros s; [done|].
  rewrite IH. destruct s as [r d o j lv n k]. by destruct g, o, j.
Qed.

(** X16. Whatever bundles the lazy getters have made since
    construction, [Dispose] frees them all, together with the runtime and
    debug bundles, clears the four members and disposes the isolate
    once. *)
Theorem Dispose_frees_every_bundle gs :
  live (Dispose (foldl (λ s g, get g s) constructed gs)) = ∅ ∧
  runtime_bundle (Dispose (foldl (λ s g, get g s) constructed gs)) = None ∧
  debug_bundle (Dispose (foldl (λ s g, get g s) constructed gs)) = None ∧
  objc_bundle (Dispose (foldl (λ s g, get g s) constructed gs)) = None ∧
  java_bundle (Dispose (foldl (λ s g, get g s) constructed gs)) = None ∧
  isolate_disposals (Dispose (foldl (λ s g, get g s) constructed gs)) = 1.
Proof.
  pose proof (owned_gets gs constructed owned_constructed) as Ho.
  assert (isolate_disposals (foldl (λ s g, get g s) constructed gs) = 0)
    as Hk by (by rewrite isolate_disposals_gets).
  set (s := foldl _ _ _) in *.
  split; [|unfold Dispose; simpl; by rewrite !disposals_clear, Hk].
  apply map_eq. intros b. rewrite lookup_empty.
  unfold Dispose. simpl. rewrite !live_clear.
  repeat case_decide; try done.
  destruct (live s !! b) eqn:E; [|done].
  destruct (Ho b) as [?|[?|[?|?]]]; [by eexists|..]; congruence.
Qed.

Lemma get_keeps_a_made_bundle g s :
  (∀ b, objc_bundle s = Some b → objc_bundle (get g s) = Some b) ∧
  (∀ b, java_bundle s = Some b → java_bundle (get g s) = Some b) ∧
  runtime_bundle (get g s) = runtime_bundle s ∧
  debug_bundle (get g s) = debug_bundle s.
Proof.
  destruct s as [r d o j lv n k].
  destruct g; unfold get, GetObjCBundle, GetJavaBundle; simpl.
  - destruct o; simpl; repeat split; done.
  - destruct j; simpl; repeat split; done.
Qed.

Lemma gets_keep_a_made_bundle gs : ∀ s,
  (∀ b, objc_bundle s = Some b →
        objc_bundle (foldl (λ s g, get g s) s gs) = Some b) ∧
  (∀ b, java_bundle s = Some b →
        java_bundle (foldl (λ s g, get g s) s gs) = Some b) ∧
  runtime_bundle (foldl (λ s g, get g s) s gs) = runtime_bundle s ∧
  debug_bundle (foldl (λ s g, get g s) s gs) = debug_bundle s.
Proof.
  induction gs as [|g gs IH]; intros s; simpl; [done|].
  destruct (IH (get g s)) as (Ho & Hj & Hr & Hd).
  destruct (get_keeps_a_made_bundle g s) as (Ho1 & Hj1 & Hr1 & Hd1).
  split; [intros b Hb; by apply Ho, Ho1|].
  split; [intros b Hb; by apply Hj, Hj1|].
  split; congruence.
Qed.

Lemma GetObjCBundle_sets s :
  ∃ b, fst (GetObjCBundle s) = Some b ∧
       objc_bundle (snd (GetObjCBundle s)) = Some b.
Proof.
  destruct s as [r d o j lv n k]. unfold GetObjCBundle. simpl.
  destruct o as [x|]; simpl; eauto.
Qed.

Lemma GetJavaBundle_sets s :
  ∃ b, fst (GetJavaBundle s) = Some b ∧
       java_bundle (snd (GetJavaBundle s)) = Some b.
Proof.
  destruct s as [r d o j lv n k]. unfold GetJavaBundle. simpl.
  destruct j as [x|]; simpl; eauto.
Qed.

(** X17. [GetObjCBundle] and [GetJavaBundle] make their bundle once:
    whatever getter calls come in between, a later call hands back the
    bundle of the first call and changes nothing. *)
Theorem lazy_bundles_are_made_once s gs :
  (GetObjCBundle (foldl (λ s g, get g s) (snd (GetObjCBundle s)) gs)
   = (fst (GetObjCBundle s),
      foldl (λ s g, get g s) (snd (GetObjCBundle s)) gs) ∧
   is_Some (fst (GetObjCBundle s))) ∧
  (GetJavaBundle (foldl (λ s g, get g s) (snd (GetJavaBundle s)) gs)
   = (fst (GetJavaBundle s),
      foldl (λ s g, get g s) (snd (GetJavaBundle s)) gs) ∧
   is_Some (fst (GetJavaBundle s))).
Proof.
  split.
  - destruct (GetObjCBundle_sets s) as (b & Hb & Hset).
    destruct (gets_keep_a_made_bundle gs (snd (GetObjCBundle s)))
      as (Ho & _).
    specialize (Ho b Hset). rewrite Hb. split; [|by eexists].
    unfold GetObjCBundle at 1. by rewrite Ho.
  - destruct (GetJavaBundle_sets s) as (b & Hb & Hset).
    destruct (gets_keep_a_made_bundle gs (snd (GetJavaBundle s)))
      as (_ & Hj & _).
    specialize (Hj b Hset). rewrite Hb. split; [|by eexists].
    unfold GetJavaBundle at 1. by rewrite Hj.
Qed.

End BundlesFacts.

(* ===================================================================== *)
(** ** Facts about runs of memory backend calls                          *)
(* ===================================================================== *)

Module MemoryBackendRunsFacts.
Import MemoryBackend MemoryBackendRuns.
Local Open Scope Z_scope.

Lemma paired_app t1 t2 : paired t1 → paired t2 → paired (t1 ++ t2).
Proof.
  unfold paired. intros H1 H2.
  rewrite List.filter_app, flat_map_app. by rewrite <- H1, <- H2.
Qed.

Lemma host_calls_app t1 t2 :
  length (List.filter is_host_call (t1 ++ t2))
  = (length (List.filter is_host_call t1)
     + length (List.filter is_host_call t2))%nat.
Proof. by rewrite List.filter_app, length_app. Qed.

Section Pairing.

Context {Host : Type}.
Variable gum_memory_allocate :
  Z → GumPageProtection → Z → Host → Z * Host.
Variable gum_memory_release : Z → Z → Host → bool * Host.

Lemma call_trace c (w : World Host) :
  ∃ t, effects (call gum_memory_allocate gum_memory_release c w)
       = effects w ++ t ∧
       paired t ∧ length (List.filter is_host_call t) = 1%nat.
Proof.
  destruct c as [a sz x|a sz|a sz]; simpl; unfold Release, Free, Allocate.
  - destruct (gum_memory_allocate _ _ _ _) as [base h].
    destruct (base =? 0) eqn:E; simpl.
    + eexists. split; [done|]. unfold paired. simpl. by rewrite E.
    + eexists. split; [by rewrite <- app_assoc|].
      unfold paired. simpl. by rewrite E.
  - destruct (gum_memory_release _ _ _) as [ok h]. destruct ok; simpl.
    + eexists. split; [by rewrite <- app_assoc|]. by unfold paired.
    + eexists. split; [done|]. by unfold paired.
  - destruct (gum_memory_release _ _ _) as [ok h]. destruct ok; simpl.
    + eexists. split; [by rewrite <- app_assoc|]. by unfold paired.
    + eexists. split; [done|]. by unfold paired.
Qed.

(** X18. Over any run of [Allocate], [Free] and [Release] calls on any
    host, each call makes exactly one call on the page allocator, and the
    cloak is called right after each success, with the range handed out or
    released, and at no other time. *)
Theorem every_cloak_call_follows_its_host_call cs : ∀ (w : World Host),
  ∃ t, effects (calls gum_memory_allocate gum_memory_release cs w)
       = effects w ++ t ∧
       paired t ∧ length (List.filter is_host_call t) = length cs.
Proof.
  induction cs as [|c cs IH]; intros w; simpl.
  - exists []. by rewrite app_nil_r.
  - destruct (call_trace c w) as (t0 & E0 & P0 & L0).
    destruct (IH (call gum_memory_allocate gum_memory_release c w))
      as (t1 & E1 & P1 & L1).
    exists (t0 ++ t1). unfold calls in *. simpl.
    rewrite E1, E0, <- app_assoc. split; [done|].
    split; [by apply paired_app|]. rewrite host_calls_app. lia.
Qed.

End Pairing.

End MemoryBackendRunsFacts.

(* ===================================================================== *)
(** ** Facts about the script test fixture                               *)
(* ===================================================================== *)

Module ScriptFixtureFacts.
Import ScriptFixture.
Local Open Scope char_scope.

Lemma read_printf_02x b : read_02x (printf_02x b) = Some b.
Proof. destruct b; vm_compute; reflexivity. Qed.

Lemma printf_02x_inj b1 b2 : printf_02x b1 = printf_02x b2 → b1 = b2.
Proof.
  intros H. pose proof (read_printf_02x b1) as H1.
  rewrite H, read_printf_02x in H1. by simplify_eq.
Qed.

Lemma format_from_S i data s :
  format_from (S i) data s
  = s ++ flat_map (λ b, " " :: printf_02x b) data.
Proof.
  revert i s. induction data as [|b rest IH]; intros i s; simpl.
  - by rewrite app_nil_r.
  - rewrite IH. by rewrite <- !app_assoc.
Qed.

Lemma format_data_cons b rest :
  format_data (b :: rest)
  = printf_02x b ++ flat_map (λ b, " " :: printf_02x b) rest.
Proof. unfold format_data. simpl. by rewrite format_from_S. Qed.

Lemma flat_map_hex_length (l : list Byte.byte) :
  length (flat_map (λ b, " " :: printf_02x b) l) = 3 * length l.
Proof. induction l as [|b l IH]; simpl; [done|]. rewrite IH. lia. Qed.

Lemma flat_map_hex_inj (l1 : list Byte.byte) : ∀ l2,
  flat_map (λ b, " " :: printf_02x b) l1
  = flat_map (λ b, " " :: printf_02x b) l2 → l1 = l2.
Proof.
  induction l1 as [|b1 l1 IH]; intros [|b2 l2]; simpl; try done.
  intros H. injection H as H1 H2 H3.
  assert (b1 = b2) as -> by (apply printf_02x_inj; unfold printf_02x; congruence).
  f_equal. by apply IH.
Qed.

(** X19. The dump of [n] bytes is [3 n - 1] characters long for
    [n > 0] and empty for none, so it fits the [3 * data_size] characters
    the [GString] was sized for. *)
Theorem data_dump_length data :
  length (format_data data) = 3 * length data - 1 ∧
  length (format_data data) ≤ 3 * length data ∧
  (format_data data = [] ↔ data = []).
Proof.
  destruct data as [|b rest]; [by split|].
  rewrite format_data_cons. simpl. rewrite flat_map_hex_length.
  split; [lia|]. split; [lia|]. by split.
Qed.

(** X20. The stored item tells messages apart: different messages or
    different data never give the same item, and data of no bytes is not
    taken for no data. *)
Theorem data_dump_is_injective d1 d2 : item_of d1 = item_of d2 → d1 = d2.
Proof.
  destruct d1 as [msg1 bytes1], d2 as [msg2 bytes2]. unfold item_of. simpl.
  intros H. injection H as -> Hd. f_equal.
  destruct bytes1 as [b1|], bytes2 as [b2|]; simpl in Hd; try done.
  f_equal. injection Hd as Hd.
  destruct b1 as [|x1 r1], b2 as [|x2 r2]; try done.
  - by rewrite format_data_cons in Hd.
  - by rewrite format_data_cons in Hd.
  - rewrite !format_data_cons in Hd. simpl in Hd.
    injection Hd as H1 H2 H3.
    assert (x1 = x2) as ->
      by (apply printf_02x_inj; unfold printf_02x; congruence).
    f_equal. by apply flat_map_hex_inj.
Qed.

Lemma teardown_drain_messages items : ∀ ts q,
  teardown_drain (S (length items)) (mkFixture items ts q)
  = Some (items, mkFixture [] ts (S q)).
Proof.
  induction items as [|item rest IH]; intros ts q; [done|].
  change (teardown_drain (S (length (item :: rest)))
            (mkFixture (item :: rest) ts q))
    with (match teardown_drain (S (length rest)) (mkFixture rest ts q) with
          | Some (items, fx') => Some (item :: items, fx')
          | None => None
          end).
  by rewrite IH.
Qed.

Lemma deliver_messages deliveries : ∀ fx,
  deliver deliveries fx
  = mkFixture (messages fx ++ (item_of <$> deliveries)) (timeouts fx)
      (loop_quits fx + length deliveries).
Proof.
  unfold deliver.
  induction deliveries as [|d rest IH]; intros fx; simpl.
  - rewrite app_nil_r, Nat.add_0_r. by destruct fx.
  - rewrite IH. simpl. rewrite <- app_assoc. f_equal. lia.
Qed.

(** X21. Whatever the message handler has stored and no test has
    popped is freed by the loop of the teardown, oldest first; the loop
    ends with the queue empty after one timeout. *)
Theorem teardown_frees_the_stored_messages_in_arrival_order deliveries fx :
  teardown_drain
    (S (length (messages fx) + length deliveries)) (deliver deliveries fx)
  = Some (messages fx ++ (item_of <$> deliveries),
          mkFixture [] (timeouts fx)
            (S (loop_quits fx + length deliveries))).
Proof.
  rewrite deliver_messages.
  replace (length (messages fx) + length deliveries)
    with (length (messages fx ++ (item_of <$> deliveries)))
    by (by rewrite length_app, length_fmap).
  apply teardown_drain_messages.
Qed.

(** X22. A pop on a queue that holds a message hands back the oldest
    one without running the loop; on an empty queue it runs the loop and
    hands back the first message delivered, keeping the later ones; when
    the timeout fires first it hands back nothing, which fails the
    assertion of [test_script_fixture_pop_message]. *)
Theorem try_pop_message_takes_the_oldest_message
    item rest ts q timeout d deliveries :
  test_script_fixture_try_pop_message (mkFixture (item :: rest) ts q)
    timeout deliveries
  = (Some item, mkFixture rest ts q) ∧
  test_script_fixture_try_pop_message (mkFixture [] ts q) timeout
    (d :: deliveries)
  = (Some (item_of d),
     mkFixture (item_of <$> deliveries) ts (S (q + length deliveries))) ∧
  test_script_fixture_try_pop_message (mkFixture [] ts q) timeout []
  = (None, mkFixture [] ts (S q)) ∧
  test_script_fixture_pop_message (mkFixture [] ts q) [] = None.
Proof.
  split; [done|]. split; [|done].
  unfold test_script_fixture_try_pop_message, run_loop. simpl.
  change (foldl _ _ deliveries)
    with (deliver deliveries
            (test_script_fixture_store_message d.1 d.2 (mkFixture [] ts q))).
  rewrite deliver_messages. simpl. do 3 f_equal.
Qed.

(** X23. The timeouts are a stack: the one pushed last is the one in
    effect, popping it restores the fixture, the set-up leaves 500 ms in
    effect, and with nothing on the stack the timeout reads 0. *)
Theorem timeouts_nest fx t :
  timeout_in_effect (test_script_fixture_push_timeout fx t) = t ∧
  test_script_fixture_pop_timeout (test_script_fixture_push_timeout fx t)
    = fx ∧
  timeout_in_effect test_script_fixture_setup = 500%N ∧
  timeout_in_effect (test_script_fixture_pop_timeout
                       test_script_fixture_setup) = 0%N ∧
  test_script_fixture_pop_timeout
    (mkFixture (messages fx) [] (loop_quits fx))
  = mkFixture (messages fx) [] (loop_quits fx).
Proof.
  destruct fx as [ms ts q].
  unfold timeout_in_effect, test_script_fixture_push_timeout,
    test_script_fixture_pop_timeout. simpl.
  split; [apply last_last|]. split; [by rewrite removelast_last|].
  split; [done|]. split; done.
Qed.

Lemma data_dump_witness :
  item_of (["h"; "i"], Some [Byte.x00; Byte.xff])
  = item_of (["h"; "i"], Some [Byte.x00; Byte.xff]) ∧
  (["h"; "i"], Some [Byte.x00; Byte.xff])
  = (["h"; "i"], Some [Byte.x00; Byte.xff]).
Proof.
  split; [reflexivity|].
  apply (data_dump_is_injective (["h"; "i"], Some [Byte.x00; Byte.xff])
           (["h"; "i"], Some [Byte.x00; Byte.xff])).
  reflexivity.
Defined.

End ScriptFixtureFacts.
